(** * Outage dashboard: aggregation engine, normalizer, query layer, snapshot store

    A shallow embedding of the JavaScript sources of the outage dashboard
    (the React front-end variants and the two snapshot endpoints) and the
    properties of the specification checked against them.

    Modelling conventions.
    - JavaScript strings are Rocq strings, a character standing for a code
      unit below 256: [trim] strips the white space and line terminators of
      that range, [toLowerCase] lowers its upper-case letters.
    - JavaScript numbers are binary64 values. A finite one is the rational
      it denotes ([Q]), and every arithmetic operation rounds its exact
      result to the nearest binary64 value, ties to even ([round64],
      subnormal range included); [NaN] is a separate value ([JsNum]).
      Infinities and the sign of zero are outside the model.
    - A JavaScript object used as a dictionary ([feederOut]) is the [gmap]
      of its own properties; a lookup of a name it does not own reads the
      property inherited from [Object.prototype], and a plain assignment to
      [__proto__] is swallowed by the inherited setter. The blob store is a
      [gmap]. A [Map], whose iteration order is the insertion order, is an
      association list.
    - [String.prototype.localeCompare], the text-to-number conversion and
      the random identifier source are parameters of the development. *)

From Stdlib Require Import ZArith QArith Qround Qabs Qpower Qreduction Qcanon Lqa.
From Stdlib Require Import List String Ascii Bool Lia Permutation Sorted DecimalString.
From stdpp Require Import gmap strings.

Import ListNotations.
Local Open Scope string_scope.
Local Open Scope Z_scope.

(** ** Strings *)

(** TAB, LF, VT, FF, CR, SP and NBSP *)
Definition isWhiteSpace (c : ascii) : bool :=
  let n := nat_of_ascii c in
  ((9 <=? n)%nat && (n <=? 13)%nat) || (n =? 32)%nat || (n =? 160)%nat.

Fixpoint trimStart (s : string) : string :=
  match s with
  | String c s' => if isWhiteSpace c then trimStart s' else s
  | EmptyString => EmptyString
  end.

Fixpoint revString (s acc : string) : string :=
  match s with
  | String c s' => revString s' (String c acc)
  | EmptyString => acc
  end.

Definition trimEnd (s : string) : string :=
  revString (trimStart (revString s "")) "".

Definition trim (s : string) : string := trimEnd (trimStart s).

(** A-Z, and the accented capitals 192-222 but for the sign at 215 *)
Definition lowerChar (c : ascii) : ascii :=
  let n := nat_of_ascii c in
  if ((65 <=? n)%nat && (n <=? 90)%nat)
     || ((192 <=? n)%nat && (n <=? 222)%nat && negb (n =? 215)%nat)
  then ascii_of_nat (n + 32) else c.

Fixpoint toLowerCase (s : string) : string :=
  match s with
  | String c s' => String (lowerChar c) (toLowerCase s')
  | EmptyString => EmptyString
  end.

(** [s.startsWith(p)] *)
Definition startsWith (s p : string) : bool := String.prefix p s.

(** [s.includes(p)] *)
Fixpoint includes (s p : string) : bool :=
  String.prefix p s ||
  match s with
  | String _ s' => includes s' p
  | EmptyString => false
  end.

Definition nonEmpty (s : string) : bool :=
  match s with EmptyString => false | String _ _ => true end.

Definition showZ (z : Z) : string := NilZero.string_of_int (Z.to_int z).

(** ** Numbers *)

(** *** Rounding to binary64 *)

Definition pow2 (k : Z) : Q := (2 ^ k)%Q.

(** the integer part of the binary logarithm of a positive rational *)
Definition ilog2 (x : Q) : Z :=
  let l := Z.log2 (Qnum x) - Z.log2 (Zpos (Qden x)) in
  if Qle_bool (pow2 l) x then l else l - 1.

(** the nearest integer, a tie going to the even one *)
Definition RNE (x : Q) : Z :=
  let f := Qfloor x in
  match (x - inject_Z f ?= 1 # 2)%Q with
  | Lt => f
  | Gt => f + 1
  | Eq => if Z.even f then f else f + 1
  end.

(** the exponent of the last place of the binary64 values next to [x]:
    53 significant bits, and no exponent below that of the subnormals *)
Definition quantum (x : Q) : Z := Z.max (ilog2 (Qabs x) - 52) (-1074).

(** the binary64 value nearest to [x], in lowest terms *)
Definition round64 (x : Q) : Q :=
  if Qeq_bool x 0 then 0%Q
  else Qred (inject_Z (RNE (x / pow2 (quantum x))) * pow2 (quantum x)).

(** [x + y], [x - y], [x * y] and [x / y] on numbers *)
Definition fadd (x y : Q) : Q := round64 (x + y).
Definition fsub (x y : Q) : Q := round64 (x - y).
Definition fmul (x y : Q) : Q := round64 (x * y).
Definition fdiv (x y : Q) : Q := round64 (x / y).

(** [x > y] *)
Definition gtb (x y : Q) : bool := negb (Qle_bool x y).

(** [Math.round]: the nearest integer, a tie going towards plus infinity *)
Definition Math_round (x : Q) : Z := Qfloor (x + (1 # 2))%Q.

(** [Math.max(x, y)] *)
Definition Math_max (x y : Q) : Q := if Qle_bool x y then y else x.

(** a number as stored in a record: finite, or [NaN] *)
Inductive JsNum := Num (x : Q) | NaN.
Arguments Num x%_Q.

Definition isFinite (n : JsNum) : bool :=
  match n with Num _ => true | NaN => false end.

(** [Number(x) || 0] on a stored number *)
Definition NumberOr0 (n : JsNum) : Q :=
  match n with Num x => x | NaN => 0%Q end.

(** *** The text of a number *)

Definition pow10 (k : Z) : Q := (10 ^ k)%Q.

(** the integer part of the decimal logarithm of a positive rational *)
Definition ilog10 (x : Q) : Z :=
  let e := ilog2 x * 30103 / 100000 in
  let e := if Qle_bool (pow10 (e + 1)) x then e + 1 else e in
  let e := if Qle_bool (pow10 (e + 1)) x then e + 1 else e in
  let e := if Qle_bool (pow10 e) x then e else e - 1 in
  if Qle_bool (pow10 e) x then e else e - 1.

(** the decimal [s * 10^e] denotes the number [x] *)
Definition readsBack (x : Q) (s e : Z) : bool :=
  Qeq_bool (round64 (inject_Z s * pow10 e)) x.

(** the decimal of fewest digits that denotes [x], as [(s, e)] standing for
    [s * 10^e]; of two of the same length the one closer to [x] *)
Fixpoint shortestDigits (fuel : nat) (x : Q) (n k : Z) : Z * Z :=
  match fuel with
  | O => (0, 0)
  | S fuel' =>
      let e := n - k in
      let t := (x / pow10 e)%Q in
      let lo := Qfloor t in
      let hi := lo + 1 in
      let okLo := (10 ^ (k - 1) <=? lo) && readsBack x lo e in
      let okHi := readsBack x hi e in
      if okLo && okHi then
        match (t - inject_Z lo ?= inject_Z hi - t)%Q with
        | Lt => (lo, e)
        | Gt => (hi, e)
        | Eq => if Z.even lo then (lo, e) else (hi, e)
        end
      else if okLo then (lo, e)
      else if okHi then (hi, e)
      else shortestDigits fuel' x n (k + 1)
  end.

Fixpoint dropZeros (s : string) : string :=
  match s with
  | String "0" s' => dropZeros s'
  | _ => s
  end.

Definition stripTrailingZeros (s : string) : string :=
  revString (dropZeros (revString s "")) "".

Fixpoint zeros (n : nat) : string :=
  match n with O => "" | S n' => String "0" (zeros n') end.

(** the digits [D], [k] of them, and the position [n] of the decimal point;
    plain notation for [-6 < n <= 21], exponent notation otherwise *)
Definition positiveToString (x : Q) : string :=
  let '(s, e) := shortestDigits 17 x (ilog10 x + 1) 1 in
  let all := showZ s in
  let D := stripTrailingZeros all in
  let k := Z.of_nat (String.length D) in
  let n := Z.of_nat (String.length all) + e in
  if (k <=? n) && (n <=? 21) then D ++ zeros (Z.to_nat (n - k))
  else if (0 <? n) && (n <=? 21)
  then substring 0 (Z.to_nat n) D ++ "." ++ substring (Z.to_nat n) (Z.to_nat (k - n)) D
  else if (-6 <? n) && (n <=? 0) then "0." ++ zeros (Z.to_nat (- n)) ++ D
  else
    let mant :=
      if k =? 1 then D
      else substring 0 1 D ++ "." ++ substring 1 (Z.to_nat (k - 1)) D in
    mant ++ "e" ++ (if n - 1 <? 0 then "-" else "+") ++ showZ (Z.abs (n - 1)).

(** [String(x)] on a finite number *)
Definition NumberToString (x : Q) : string :=
  if Qeq_bool x 0 then "0"
  else if Qle_bool 0 x then positiveToString x
  else "-" ++ positiveToString (- x).

(** ** JavaScript values of an imported row *)

Inductive JsVal :=
| JUndefined
| JNull
| JBool (b : bool)
| JNumber (x : Q)
| JString (s : string).
Arguments JNumber x%_Q.

Definition nullish (v : JsVal) : bool :=
  match v with JUndefined | JNull => true | _ => false end.

(** [a ?? b] *)
Definition coalesce (a b : JsVal) : JsVal := if nullish a then b else a.
Infix "??" := coalesce (at level 61, left associativity).

Definition truthy (v : JsVal) : bool :=
  match v with
  | JUndefined | JNull => false
  | JBool b => b
  | JNumber x => negb (Qeq_bool x 0)
  | JString s => nonEmpty s
  end.

(** [String(v)] and, on the values that have the method, [v.toString()] *)
Definition ToString (v : JsVal) : string :=
  match v with
  | JUndefined => "undefined"
  | JNull => "null"
  | JBool true => "true"
  | JBool false => "false"
  | JNumber x => NumberToString x
  | JString s => s
  end.

(** ** Data model *)

Module Row.
(** One parsed CSV line; a column that is absent reads [JUndefined]. *)
Record t := mk {
  id : JsVal; feeder : JsVal; bay : JsVal; feeder_name : JsVal;
  name : JsVal; station : JsVal; substation : JsVal;
  consumers : JsVal; consumer_count : JsVal; count : JsVal;
  isOut : JsVal; outage : JsVal; feeder_isOut : JsVal }.
Definition empty : t :=
  mk JUndefined JUndefined JUndefined JUndefined JUndefined JUndefined
     JUndefined JUndefined JUndefined JUndefined JUndefined JUndefined
     JUndefined.
End Row.

Module Station.
(** [{id, feeder, name, consumers, isOut}] *)
Record t := mk {
  id : string; feeder : string; name : string;
  consumers : JsNum; isOut : bool }.
(** a record built by the normalizer has no [feeder_isOut] property *)
Definition feeder_isOut (_ : t) : JsVal := JUndefined.
End Station.

Module StationE.
(** [{ ...s, effOut }] *)
Record t := mk { s : Station.t; effOut : bool }.
End StationE.

Module Group.
Record t := mk {
  name : string; stations : list StationE.t;
  total : Q; affected : Q; healthy : Q }.
End Group.

Module Totals.
Record t := mk { total : Q; affected : Q; healthy : Q; pct : Q }.
End Totals.

(** ** The [Map] of groups: keys in insertion order *)

Module JsMap.
Definition t := list (string * Group.t).

Fixpoint has (m : t) (k : string) : bool :=
  match m with
  | [] => false
  | (k', _) :: m' => if String.eqb k' k then true else has m' k
  end.

Fixpoint get (m : t) (k : string) : option Group.t :=
  match m with
  | [] => None
  | (k', g) :: m' => if String.eqb k' k then Some g else get m' k
  end.

(** [m.set(k, g)]: replaces in place, or appends a new key *)
Fixpoint set (m : t) (k : string) (g : Group.t) : t :=
  match m with
  | [] => [(k, g)]
  | (k', g') :: m' =>
      if String.eqb k' k then (k', g) :: m' else (k', g') :: set m' k g
  end.

Definition values (m : t) : list Group.t := map snd m.
Definition keys (m : t) : list string := map fst m.
End JsMap.

(** ** Plain objects as dictionaries *)

(** the property names every plain object inherits from [Object.prototype] *)
Definition objectPrototypeKeys : list string :=
  ["constructor"; "__defineGetter__"; "__defineSetter__"; "hasOwnProperty";
   "__lookupGetter__"; "__lookupSetter__"; "isPrototypeOf";
   "propertyIsEnumerable"; "toString"; "valueOf"; "__proto__"; "toLocaleString"].

Definition inherited (k : string) : bool := existsb (String.eqb k) objectPrototypeKeys.

(** [obj[k] = v] on an object holding booleans: an own property is
    written, a new one is created, but for [__proto__], where the inherited
    setter takes the value and, given a boolean, does nothing *)
Definition assign (k : string) (v : bool) (obj : gmap string bool) : gmap string bool :=
  match obj !! k with
  | Some _ => <[k := v]> obj
  | None => if String.eqb k "__proto__" then obj else <[k := v]> obj
  end.

(** ** Aggregation engine *)

(** [!!feederOut[f]]: the own property, or else the inherited one, which is
    a function or an object and so counts as true *)
Definition isFeederOut (feederOut : gmap string bool) (f : string) : bool :=
  match feederOut !! f with
  | Some b => b
  | None => inherited f
  end.

(** [(s.feeder || "Unassigned").toString()] *)
Definition feederOf (s : Station.t) : string :=
  if nonEmpty (Station.feeder s) then Station.feeder s else "Unassigned".

(** [!!(feederOut[f]) || !!s.isOut] *)
Definition effOutOf (feederOut : gmap string bool) (s : Station.t) : bool :=
  isFeederOut feederOut (feederOf s) || Station.isOut s.

(** [Math.round(((a / t) * 100) * 10) / 10] *)
Definition pctExpr (a t : Q) : Q :=
  fdiv (inject_Z (Math_round (fmul (fmul (fdiv a t) 100) 10))) 10.

(** [total > 0 ? Math.round(((affected / total) * 100) * 10) / 10 : 0] *)
Definition pctOf (affected total : Q) : Q :=
  if gtb total 0 then pctExpr affected total else 0%Q.

Module Acc.
(** the variables the aggregation loop updates *)
Record t := mk { groups : JsMap.t; total : Q; affected : Q }.
End Acc.

Definition newGroup (f : string) : Group.t := Group.mk f [] 0 0 0.

(** the body of [for (const s of stations)] *)
Definition aggregateStep (feederOut : gmap string bool) (a : Acc.t) (s : Station.t) : Acc.t :=
  let f := feederOf s in
  let groups :=
    if JsMap.has (Acc.groups a) f then Acc.groups a
    else JsMap.set (Acc.groups a) f (newGroup f) in
  let g := default (newGroup f) (JsMap.get groups f) in
  let cons := NumberOr0 (Station.consumers s) in
  let effOut := effOutOf feederOut s in
  let g' :=
    Group.mk (Group.name g) (Group.stations g ++ [StationE.mk s effOut])
             (fadd (Group.total g) cons)
             (if effOut then fadd (Group.affected g) cons else Group.affected g)
             (Group.healthy g) in
  Acc.mk (JsMap.set groups f g')
         (fadd (Acc.total a) cons)
         (if effOut then fadd (Acc.affected a) cons else Acc.affected a).

Definition aggregateLoop (feederOut : gmap string bool) (stations : list Station.t) : Acc.t :=
  fold_left (aggregateStep feederOut) stations (Acc.mk [] 0 0).

(** [g.healthy = g.total - g.affected] *)
Definition setHealthy (g : Group.t) : Group.t :=
  Group.mk (Group.name g) (Group.stations g) (Group.total g) (Group.affected g)
           (fsub (Group.total g) (Group.affected g)).

(** [Array.prototype.sort]: a stable sort by the comparator [cmp], whose
    result is negative, zero or positive *)
Section Sort.
Context {A : Type} (cmp : A -> A -> Z).

Fixpoint insertSorted (x : A) (l : list A) : list A :=
  match l with
  | [] => [x]
  | y :: l' => if cmp x y <=? 0 then x :: l else y :: insertSorted x l'
  end.

Fixpoint sort (l : list A) : list A :=
  match l with
  | [] => []
  | x :: l' => insertSorted x (sort l')
  end.
End Sort.

Module Aggregate.
Record t := mk { feeders : list Group.t; totals : Totals.t }.
End Aggregate.

Section Dashboard.
(** [a.localeCompare(b)] *)
Variable localeCompare : string -> string -> Z.

Definition aggregate (stations : list Station.t) (feederOut : gmap string bool)
  : Aggregate.t :=
  let a := aggregateLoop feederOut stations in
  let groups := map setHealthy (JsMap.values (Acc.groups a)) in
  let total := Acc.total a in
  let affected := Acc.affected a in
  let healthy := fsub total affected in
  let pct := pctOf affected total in
  Aggregate.mk
    (sort (fun x y => localeCompare (Group.name x) (Group.name y)) groups)
    (Totals.mk total affected healthy pct).

End Dashboard.

(** ** Dashboard state and the toggles *)

Module State.
Record t := mk { stations : list Station.t; feederOut : gmap string bool }.
End State.

(** [setFeederOut(prev => ({ ...prev, [name]: !prev[name] }))]: the computed
    key of the literal defines an own property, whatever the name *)
Definition toggleFeeder (name : string) (st : State.t) : State.t :=
  State.mk (State.stations st)
           (<[name := negb (isFeederOut (State.feederOut st) name)]> (State.feederOut st)).

(** [s.id === id ? { ...s, isOut: !s.isOut } : s] *)
Definition flipStation (id : string) (s : Station.t) : Station.t :=
  if String.eqb (Station.id s) id
  then Station.mk (Station.id s) (Station.feeder s) (Station.name s)
                  (Station.consumers s) (negb (Station.isOut s))
  else s.

Definition toggleStation (id : string) (st : State.t) : State.t :=
  State.mk (map (flipStation id) (State.stations st)) (State.feederOut st).

Module ViewerAdmin.
(** the viewer/admin variant: [if (viewerOnly) return;] guards both toggles *)
Definition toggleFeeder (viewerOnly : bool) (name : string) (st : State.t) : State.t :=
  if viewerOnly then st else toggleFeeder name st.

Definition toggleStation (viewerOnly : bool) (id : string) (st : State.t) : State.t :=
  if viewerOnly then st else toggleStation id st.
End ViewerAdmin.

(** ** Record normalizer *)

Section Normalizer.

(** [Number(v)] *)
Variable StringToNumber : string -> JsNum.

Definition ToNumber (v : JsVal) : JsNum :=
  match v with
  | JUndefined => NaN
  | JNull => Num 0
  | JBool b => Num (if b then 1 else 0)
  | JNumber x => Num x
  | JString s => StringToNumber s
  end.

(** [rid()] / [crypto.randomUUID()]: the n-th identifier drawn *)
Variable rid : nat -> string.

(** [row.id?.toString().trim()], the undefined result read as the empty string *)
Definition givenId (row : Row.t) : string :=
  if nullish (Row.id row) then "" else trim (ToString (Row.id row)).

Definition resolvedFeeder (row : Row.t) : string :=
  trim (ToString (Row.feeder row ?? Row.bay row ?? Row.feeder_name row ?? JString "Unassigned")).

Definition resolvedName (row : Row.t) : string :=
  trim (ToString (Row.name row ?? Row.station row ?? Row.substation row ?? JString "")).

Definition resolvedConsumers (row : Row.t) : JsNum :=
  ToNumber (Row.consumers row ?? Row.consumer_count row ?? Row.count row ?? JNumber 0).

(** [String(v).trim().toLowerCase().startsWith("t")] *)
Definition coerceBool (v : JsVal) : bool :=
  startsWith (toLowerCase (trim (ToString v))) "t".

Definition resolvedIsOut (row : Row.t) : bool :=
  coerceBool (Row.isOut row ?? Row.outage row ?? JString "false").

(** the resolved fields of a row other than the identifier *)
Definition rowData (row : Row.t) : string * string * JsNum * bool :=
  (resolvedFeeder row, resolvedName row, resolvedConsumers row, resolvedIsOut row).

(** the object literal of the [map] callback; [n] counts the identifiers drawn *)
Definition normalizeRow (row : Row.t) (n : nat) : Station.t * nat :=
  let given := givenId row in
  let '(id, n') := if nonEmpty given then (given, n) else (rid n, S n) in
  (Station.mk id (resolvedFeeder row) (resolvedName row)
              (resolvedConsumers row) (resolvedIsOut row), n').

Fixpoint mapRows (rows : list Row.t) (n : nat) : list Station.t * nat :=
  match rows with
  | [] => ([], n)
  | row :: rest =>
      let '(s, n1) := normalizeRow row n in
      let '(ss, n2) := mapRows rest n1 in
      (s :: ss, n2)
  end.

(** [r => r.name && Number.isFinite(r.consumers)], on normalized records *)
Definition keepStation (r : Station.t) : bool :=
  nonEmpty (Station.name r) && isFinite (Station.consumers r).

(** [r => r.name && Number.isFinite(Number(r.consumers))], on raw rows *)
Definition keepRow (r : Row.t) : bool :=
  truthy (Row.name r) && isFinite (ToNumber (Row.consumers r)).

(** [String((r.feeder_isOut ?? "false")).toLowerCase().startsWith("t")] *)
Definition feederFlag (r : Station.t) : bool :=
  startsWith (toLowerCase (ToString (Station.feeder_isOut r ?? JString "false"))) "t".

(** [const initialFeederOut = {};
     for (const r of rows) initialFeederOut[r.feeder] = ...] *)
Definition initialFeederOut (rows : list Station.t) : gmap string bool :=
  fold_left (fun obj r => assign (Station.feeder r) (feederFlag r) obj) rows ∅.

(** the feeders/bays light variant, [importCsv]: [map] first, then [filter] *)
Definition parseRows (data : list Row.t) (n : nat) : list Station.t * nat :=
  let '(mapped, n') := mapRows data n in
  (List.filter keepStation mapped, n').

Definition importCsv (data : list Row.t) (n : nat) : State.t * nat :=
  let '(parsed, n') := parseRows data n in
  (State.mk parsed (initialFeederOut parsed), n').

(** the paginated variants: [filter] on the raw rows first, then [map] *)
Definition normalizeParsed (parsed : list Row.t) (n : nat) : list Station.t * nat :=
  mapRows (List.filter keepRow parsed) n.

Definition applyParsedRows (parsed : list Row.t) (n : nat) : State.t * nat :=
  let '(rows, n') := normalizeParsed parsed n in
  (State.mk rows (initialFeederOut rows), n').

End Normalizer.

(** ** Query/view layer *)

Module FlatRow.
(** [{ feeder: f.name, feederEffOut: !!feederOut[f.name], ...s }]: the
    spread of [s] comes last, so the row's [feeder] is the station's own. *)
Record t := mk { feederEffOut : bool; se : StationE.t }.
Definition feeder (r : t) : string := Station.feeder (StationE.s (se r)).
Definition name (r : t) : string := Station.name (StationE.s (se r)).
Definition effOut (r : t) : bool := StationE.effOut (se r).
End FlatRow.

Definition flatRows (feeders : list Group.t) (feederOut : gmap string bool)
  : list FlatRow.t :=
  flat_map (fun f => map (FlatRow.mk (isFeederOut feederOut (Group.name f)))
                         (Group.stations f)) feeders.

(** [r.name.toLowerCase().includes(needle) || r.feeder.toLowerCase().includes(needle)] *)
Definition matchesNeedle (needle : string) (r : FlatRow.t) : bool :=
  includes (toLowerCase (FlatRow.name r)) needle
  || includes (toLowerCase (FlatRow.feeder r)) needle.

Section Query.
Variable localeCompare : string -> string -> Z.

(** the light-simple and the viewer/admin variants *)
Definition filteredRows (q : string) (showAffectedOnly : bool)
    (selectedFeeder : string) (flat : list FlatRow.t) : list FlatRow.t :=
  let needle := toLowerCase (trim q) in
  let rows := flat in
  let rows :=
    if negb (String.eqb selectedFeeder "ALL")
    then List.filter (fun r => String.eqb (FlatRow.feeder r) selectedFeeder) rows
    else rows in
  let rows := if nonEmpty needle then List.filter (matchesNeedle needle) rows else rows in
  let rows := if showAffectedOnly then List.filter FlatRow.effOut rows else rows in
  sort (fun a b => localeCompare (FlatRow.name a) (FlatRow.name b)) rows.

(** [a.feeder.localeCompare(b.feeder) || a.name.localeCompare(b.name)] *)
Definition byFeederThenName (a b : FlatRow.t) : Z :=
  let c := localeCompare (FlatRow.feeder a) (FlatRow.feeder b) in
  if c =? 0 then localeCompare (FlatRow.name a) (FlatRow.name b) else c.

(** the 200+ scale variant: no feeder scope, feeder-then-name order *)
Definition filteredRows200 (q : string) (showAffectedOnly : bool)
    (flat : list FlatRow.t) : list FlatRow.t :=
  let needle := toLowerCase (trim q) in
  let rows := flat in
  let rows := if nonEmpty needle then List.filter (matchesNeedle needle) rows else rows in
  let rows := if showAffectedOnly then List.filter FlatRow.effOut rows else rows in
  sort byFeederThenName rows.
End Query.

(** ** Pagination *)

(** [Math.ceil(a / b)] for a positive [b] *)
Definition ceilDiv (a b : Z) : Z := - ((- a) / b).

(** [Math.max(1, Math.ceil(filteredRows.length / pageSize))] *)
Definition totalPages (len pageSize : Z) : Z := Z.max 1 (ceilDiv len pageSize).

(** [if (page > totalPages) setPage(1)] *)
Definition pageResetEffect (page total : Z) : Z :=
  if total <? page then 1 else page.

(** One commit of the component. The effect's dependency list is
    [[filteredRows.length, pageSize]]: it runs when either differs from the
    value of the previous render. *)
Definition depsChanged (prev cur : Z * Z) : bool :=
  negb ((fst prev =? fst cur) && (snd prev =? snd cur)).

Definition commitPage (prev cur : Z * Z) (page : Z) : Z :=
  if depsChanged prev cur
  then pageResetEffect page (totalPages (fst cur) (snd cur))
  else page.

(** [filteredRows.slice(start, start + pageSize)], [start = (page - 1) * pageSize] *)
Definition pageRows {A : Type} (rows : list A) (page pageSize : Z) : list A :=
  let start := (page - 1) * pageSize in
  firstn (Z.to_nat pageSize) (skipn (Z.to_nat start) rows).

(** ** The feeder-less variants (dark, updated colours) *)

Module Dark.
(** Their station records are [{id, name, consumers, isOut}]; the functions
    below are read on the full record and never look at a feeder. *)

(** [l.reduce((s, x) => s + (Number(x.consumers) || 0), 0)] *)
Definition sumConsumers (l : list Station.t) : Q :=
  fold_left (fun acc x => fadd acc (NumberOr0 (Station.consumers x))) l 0%Q.

Definition totals (stations : list Station.t) : Totals.t :=
  let total := sumConsumers stations in
  let affected := sumConsumers (List.filter Station.isOut stations) in
  let healthy := fsub total affected in
  let pct := pctOf affected total in
  Totals.mk total affected healthy pct.

End Dark.

(** ** Snapshot store: the publish and the read endpoints *)

(** A property of the request body: absent, [null], or a number. *)
Inductive Field (A : Type) := Absent | Null | Given (x : A).
Arguments Absent {A}.
Arguments Null {A}.
Arguments Given {A} x.

(** [Number(f ?? d)] *)
Definition orElse {A : Type} (f : Field A) (d : A) : A :=
  match f with Given x => x | _ => d end.

(** the truth value of a numeric property in a condition *)
Definition truthyField (f : Field Q) : bool :=
  match f with Given x => negb (Qeq_bool x 0) | _ => false end.

(** a percentage as stored: a number or [NaN] *)
Inductive JsPct := Pct (q : Q) | PctNaN.

(** [t ? Math.round(((a / t) * 100) * 10) / 10 : 0] on the raw properties
    [a] and [t]: an absent numerator makes the quotient [NaN], a [null] one
    counts as zero. *)
Definition derivedPct (a t : Field Q) : JsPct :=
  if truthyField t then
    match a with
    | Absent => PctNaN
    | Null => Pct (pctExpr 0 (orElse t 0%Q))
    | Given x => Pct (pctExpr x (orElse t 0%Q))
    end
  else Pct 0.

Module Body.
Record t := mk {
  affected : Field Q; total : Field Q; healthy : Field Q; pct : Field Q;
  subsOff : Field Q; subsOn : Field Q; subsTotal : Field Q; offPct : Field Q }.
End Body.

Module Payload.
Record t := mk {
  affected : Q; total : Q; healthy : Q; pct : JsPct;
  subsOff : Q; subsOn : Q; subsTotal : Q; offPct : JsPct;
  updatedAt : option string }.
(** the read endpoint's answer when nothing was published *)
Definition fallback : t := mk 0 0 0 (Pct 0) 0 0 0 (Pct 0) None.
End Payload.

(** the object literal [payload]; [now] is [new Date().toISOString()] *)
Definition makePayload (now : string) (body : Body.t) : Payload.t :=
  Payload.mk
    (orElse (Body.affected body) 0%Q)
    (orElse (Body.total body) 0%Q)
    (orElse (Body.healthy body)
       (Math_max 0 (fsub (orElse (Body.total body) 0%Q) (orElse (Body.affected body) 0%Q))))
    (match Body.pct body with
     | Given q => Pct q
     | _ => derivedPct (Body.affected body) (Body.total body)
     end)
    (orElse (Body.subsOff body) 0%Q)
    (orElse (Body.subsOn body) 0%Q)
    (orElse (Body.subsTotal body)
       (fadd (orElse (Body.subsOff body) 0%Q) (orElse (Body.subsOn body) 0%Q)))
    (match Body.offPct body with
     | Given q => Pct q
     | _ => derivedPct (Body.subsOff body) (Body.subsTotal body)
     end)
    (Some now).

(** A request: [OPTIONS], or a [POST] whose body either fails in the [try]
    block ([req.json()] rejects, or the value is [null]) or reads as a
    record of properties. *)
Inductive Request := OPTIONS | POST (body : option Body.t).

Module Response.
Record t := mk { status : Z; text : string }.
End Response.

(** the publish handler over the blob store ['status-store']; the store
    keeps the payload as JSON text, modelled by the payload itself *)
Definition publish (now : string) (req : Request) (store : gmap string Payload.t)
  : gmap string Payload.t * Response.t :=
  match req with
  | OPTIONS => (store, Response.mk 200 "")
  | POST None => (store, Response.mk 400 "Bad Request")
  | POST (Some body) =>
      (<["current" := makePayload now body]> store, Response.mk 200 "OK")
  end.

(** the read handler: [data ?? fallback] (a stored [NaN] reads back as
    [null], which the model does not distinguish) *)
Definition readSnapshot (store : gmap string Payload.t) : Payload.t :=
  default Payload.fallback (store !! "current").

(** ** Instances of the parameters, for evaluation *)

(** code-unit order, standing for [localeCompare] *)
Definition codeUnitCompare (a b : string) : Z :=
  match String.compare a b with Lt => -1 | Eq => 0 | Gt => 1 end.

(** decimal literals [digits], [digits.digits], with an optional sign,
    standing for the text-to-number conversion: the mantissa read so far,
    the number of digits after the point, and whether a digit was seen *)
Fixpoint readDecimal (s : string) (m : Z) (frac : option Z) (seen : bool) : JsNum :=
  match s with
  | EmptyString =>
      if seen then Num (round64 (inject_Z m / inject_Z (10 ^ default 0 frac))) else NaN
  | String c s' =>
      let n := nat_of_ascii c in
      if ((48 <=? n)%nat && (n <=? 57)%nat)%bool
      then readDecimal s' (10 * m + Z.of_nat (n - 48)) (option_map Z.succ frac) true
      else if Ascii.eqb c "." then
        match frac with
        | None => readDecimal s' m (Some 0) seen
        | Some _ => NaN
        end
      else NaN
  end.

Definition negNum (n : JsNum) : JsNum :=
  match n with Num x => Num (- x) | NaN => NaN end.

Definition decimalToNumber (s : string) : JsNum :=
  match trim s with
  | EmptyString => Num 0
  | String "-" r => negNum (readDecimal r 0 None false)
  | String "+" r => readDecimal r 0 None false
  | t => readDecimal t 0 None false
  end.

(** identifiers [id-0], [id-1], ... standing for the random source *)
Definition seqId (n : nat) : string := "id-" ++ showZ (Z.of_nat n).

(** ** Vocabulary of the statements *)

(** [{ ...s, effOut }] with the flag the loop computes *)
Definition annotate (feederOut : gmap string bool) (s : Station.t) : StationE.t :=
  StationE.mk s (effOutOf feederOut s).

(** the stations the loop files under the key [k] *)
Definition members (k : string) (l : list Station.t) : list Station.t :=
  List.filter (fun s => String.eqb (feederOf s) k) l.

(** the sum of the consumers as the code accumulates it: from zero, in the
    order of the list, every addition rounded to binary64 *)
Definition sumCons (l : list Station.t) : Q :=
  fold_left (fun acc s => fadd acc (NumberOr0 (Station.consumers s))) l 0%Q.

(** the same sum over the stations that are effectively out *)
Definition sumAffected (feederOut : gmap string bool) (l : list Station.t) : Q :=
  fold_left (fun acc s => if effOutOf feederOut s
                          then fadd acc (NumberOr0 (Station.consumers s)) else acc) l 0%Q.

(** the group the loop has built under [k] once it has consumed [l] *)
Definition groupOf (feederOut : gmap string bool) (k : string) (l : list Station.t)
  : Group.t :=
  Group.mk k (map (annotate feederOut) (members k l))
           (sumCons (members k l)) (sumAffected feederOut (members k l)) 0.

(** what the aggregation loop maintains, [l] being the stations consumed *)
Definition LoopInv (feederOut : gmap string bool) (l : list Station.t) (a : Acc.t)
  : Prop :=
  List.NoDup (JsMap.keys (Acc.groups a))
  /\ (forall k g, In (k, g) (Acc.groups a) -> g = groupOf feederOut k l)
  /\ (forall s, In s l -> In (feederOf s) (JsMap.keys (Acc.groups a)))
  /\ Acc.total a = sumCons l
  /\ Acc.affected a = sumAffected feederOut l.

(** the feeder key in the specification's reading of the code: the
    station's feeder, or the sentinel when that is empty *)
Definition specKey (s : Station.t) : string :=
  match Station.feeder s with
  | EmptyString => "Unassigned"
  | String _ _ => Station.feeder s
  end.

(** consumer counts that are whole numbers: the count read as an integer,
    and the stations whose count is a whole number, not negative *)
Definition countZ (s : Station.t) : Z := Qfloor (NumberOr0 (Station.consumers s)).

Definition wholeCount (s : Station.t) : Prop :=
  0 <= countZ s /\ (NumberOr0 (Station.consumers s) == inject_Z (countZ s))%Q.

Definition sumZ (l : list Z) : Z := fold_right Z.add 0 l.

Definition sumQ (l : list Q) : Q := fold_right Qplus 0%Q l.

(** the exact sum of whole counts *)
Definition sumCountZ (l : list Station.t) : Z := sumZ (map countZ l).

(** The specification's rounding, in its own words: round half away from zero. *)
Definition roundHalfAwayFromZero (x : Q) : Z :=
  if Qle_bool 0 x then Qfloor (x + (1 # 2))%Q else (- Qfloor (- x + (1 # 2))%Q).

(** The specification's [pct], affected/total*100 to one decimal and 0 at
    total 0, read on the numbers of the code: the product is the binary64
    one and so is the division by 10. *)
Definition specPct (affected total : Q) : Q :=
  if Qeq_bool total 0 then 0%Q
  else fdiv (inject_Z (roundHalfAwayFromZero (fmul (fmul (fdiv affected total) 100) 10))) 10.

(** The same read on exact quotients: the rational affected/total*1000
    rounded half away from zero, in tenths. *)
Definition exactPct (affected total : Q) : Q :=
  if Qeq_bool total 0 then 0%Q
  else (inject_Z (roundHalfAwayFromZero (((affected / total) * 100) * 10)) / 10)%Q.

(** texts that begin like a number: with a digit, a minus sign or a point *)
Definition plainChar (c : ascii) : bool :=
  let n := nat_of_ascii c in
  ((48 <=? n)%nat && (n <=? 57)%nat) || (n =? 45)%nat || (n =? 46)%nat.

Definition plainStart (s : string) : bool :=
  match s with EmptyString => false | String c _ => plainChar c end.

Definition plainHead (s : string) : bool :=
  match s with EmptyString => true | String c _ => plainChar c end.

(** a text whose first character after the leading white space is [t] or [T] *)
Definition startsWithT (s : string) : Prop :=
  exists c r, trimStart s = String c r /\ (c = "t"%char \/ c = "T"%char).

(** a cell that is missing: [undefined] or [null] *)
Definition missing (v : JsVal) : Prop := v = JUndefined \/ v = JNull.

(** a number that is a binary64 value *)
Definition isDouble (x : Q) : Prop := round64 x = x.

(** ** Sample data *)

Definition stationA : Station.t := Station.mk "a" "F1" "Alpha" (Num 40) true.
Definition stationB : Station.t := Station.mk "b" "F1" "Beta" (Num 60) false.
Definition stationC : Station.t := Station.mk "c" "F2" "Gamma" (Num 100) false.
Definition sampleStations : list Station.t := [stationA; stationB; stationC].
Definition sampleState : State.t := State.mk sampleStations ∅.

(** a station whose feeder cell was blank, next to an override of the
    sentinel feeder *)
Definition blankFeederStation : Station.t := Station.mk "x" "" "Delta" (Num 5) false.
Definition unassignedOff : gmap string bool := <["Unassigned" := true]> ∅.

(** a station on a feeder named like an inherited property *)
Definition constructorStation : Station.t :=
  Station.mk "k" "constructor" "Kappa" (Num 5) false.


(** imported rows used in the evaluations below *)
Definition setName (v : JsVal) (r : Row.t) : Row.t :=
  Row.mk (Row.id r) (Row.feeder r) (Row.bay r) (Row.feeder_name r) v
         (Row.station r) (Row.substation r) (Row.consumers r)
         (Row.consumer_count r) (Row.count r) (Row.isOut r) (Row.outage r)
         (Row.feeder_isOut r).

(** [{station: "S1", consumers: 5}] *)
Definition aliasRow : Row.t :=
  Row.mk JUndefined JUndefined JUndefined JUndefined JUndefined (JString "S1")
         JUndefined (JNumber 5) JUndefined JUndefined JUndefined JUndefined
         JUndefined.

(** [{name: "   ", consumers: 5}] *)
Definition blankNameRow : Row.t := setName (JString "   ") aliasRow.

(** [{feeder: "F1", name: "S1", consumers: 1, feeder_isOut: "true"}] *)
Definition overrideRow : Row.t :=
  Row.mk JUndefined (JString "F1") JUndefined JUndefined (JString "S1") JUndefined
         JUndefined (JNumber 1) JUndefined JUndefined JUndefined JUndefined
         (JString "true").

(** the fields of a normalized record other than its identifier *)
Definition stationData (s : Station.t) : string * string * JsNum * bool :=
  (Station.feeder s, Station.name s, Station.consumers s, Station.isOut s).

(** a negative count next to a larger positive one *)
Definition negativeStations : list Station.t :=
  [Station.mk "n" "F" "N" (Num (-1)) true; Station.mk "p" "F" "P" (Num 17) false].

(** the counts 0.1, 0.2 and 0.4 as the import stores them, the second
    station being out *)
Definition fractionStations : list Station.t :=
  [Station.mk "a" "F1" "A" (decimalToNumber "0.1") false;
   Station.mk "b" "F2" "B" (decimalToNumber "0.2") true;
   Station.mk "c" "F1" "C" (decimalToNumber "0.4") false].

(** the counts 0.1 and 0.4 on one feeder and 0.1 on another *)
Definition splitStations : list Station.t :=
  [Station.mk "a" "A" "A1" (decimalToNumber "0.1") false;
   Station.mk "b" "B" "B1" (decimalToNumber "0.1") false;
   Station.mk "c" "A" "A2" (decimalToNumber "0.4") false].

(** 23 consumers out of 80 affected *)
Definition eightyStations : list Station.t :=
  [Station.mk "a" "F" "A" (Num 23) true; Station.mk "b" "F" "B" (Num 57) false].

(** [{affected: 3, total: 1}] and [{affected: 1, total: 3}] *)
Definition overfullBody : Body.t :=
  Body.mk (Given 3%Q) (Given 1%Q) Absent Absent Absent Absent Absent Absent.
Definition thirdBody : Body.t :=
  Body.mk (Given 1%Q) (Given 3%Q) Absent Absent Absent Absent Absent Absent.

(** [{affected: -5, total: -5}] *)
Definition negativeBody : Body.t :=
  Body.mk (Given (-5)%Q) (Given (-5)%Q) Absent Absent Absent Absent Absent Absent.

(** [{affected: 1, total: 3, healthy: 7, pct: 50, subsOff: 2, subsOn: 3}] *)
Definition partialBody : Body.t :=
  Body.mk (Given 1%Q) (Given 3%Q) (Given 7%Q) (Given 50%Q)
          (Given 2%Q) (Given 3%Q) Absent Absent.

(** two feeders whose station names sort against the feeder names *)
Definition crossStations : list Station.t :=
  [Station.mk "z" "F1" "Zeta" (Num 1) false; Station.mk "g" "F2" "Gamma" (Num 1) false].

Definition flatOf (stations : list Station.t) (feederOut : gmap string bool)
  : list FlatRow.t :=
  flatRows (Aggregate.feeders (aggregate codeUnitCompare stations feederOut)) feederOut.

(** [{name: "S", consumers: 1, isOut: "  True"}] *)
Definition paddedTrueRow : Row.t :=
  Row.mk JUndefined JUndefined JUndefined JUndefined (JString "S") JUndefined
         JUndefined (JNumber 1) JUndefined JUndefined (JString "  True") JUndefined
         JUndefined.

(** a row with the given [isOut] and [outage] cells *)
Definition outageRow (isOut outage : JsVal) : Row.t :=
  Row.mk JUndefined JUndefined JUndefined JUndefined (JString "S") JUndefined
         JUndefined (JNumber 1) JUndefined JUndefined isOut outage JUndefined.

(** ** Further operations of the variants *)

(** [setAllFeeders(out)]: [next = { ...prev }], then [next[f.name] = out]
    for every group [f] of the current aggregation *)
Definition setAllFeeders (localeCompare : string -> string -> Z) (out : bool)
    (st : State.t) : State.t :=
  State.mk (State.stations st)
    (fold_left (fun next f => assign (Group.name f) out next)
       (Aggregate.feeders
          (aggregate localeCompare (State.stations st) (State.feederOut st)))
       (State.feederOut st)).



(** the feeders/bays variant's search filter, [visibleFeeders] *)
Definition visibleStation (filterNeedle : string) (f : Group.t) (s : StationE.t) : bool :=
  includes (toLowerCase (Station.name (StationE.s s))) filterNeedle
  || includes (toLowerCase (Group.name f)) filterNeedle.

Definition visibleFeeders (q : string) (feeders : list Group.t) : list Group.t :=
  let filterNeedle := toLowerCase (trim q) in
  if negb (nonEmpty filterNeedle) then feeders
  else
    List.filter
      (fun f => (0 <? Z.of_nat (length (Group.stations f)))
                || includes (toLowerCase (Group.name f)) filterNeedle)
      (map (fun f => Group.mk (Group.name f)
                              (List.filter (visibleStation filterNeedle f) (Group.stations f))
                              (Group.total f) (Group.affected f) (Group.healthy f))
           feeders).

(** substation counts of the viewer/admin variant *)
Module Counts.
Record t := mk { total : Z; off : Z; on : Z; offPct : Q }.
End Counts.

(** [let off = 0; for (const r of rows) if (r.effOut) off++] *)
Definition countOff (rows : list FlatRow.t) : Z :=
  fold_left (fun off r => if FlatRow.effOut r then off + 1 else off) rows 0.

(** [total ? Math.round((off / total) * 1000) / 10 : 0] *)
Definition offPctOf (off total : Z) : Q :=
  if negb (total =? 0)
  then fdiv (inject_Z (Math_round (fmul (fdiv (inject_Z off) (inject_Z total)) 1000))) 10
  else 0%Q.

Definition countsOf (rows : list FlatRow.t) : Counts.t :=
  let total := Z.of_nat (length rows) in
  let off := countOff rows in
  let on := total - off in
  Counts.mk total off on (offPctOf off total).

Definition stationCounts (flat : list FlatRow.t) : Counts.t := countsOf flat.

(** [null] under the scope ["ALL"] *)
Definition feederStationCounts (selectedFeeder : string) (flat : list FlatRow.t)
  : option Counts.t :=
  if String.eqb selectedFeeder "ALL" then None
  else Some (countsOf (List.filter (fun r => String.eqb (FlatRow.feeder r) selectedFeeder) flat)).

(** [LegendItem]: [total > 0 ? Math.round((value / total) * 1000) / 10 : 0] *)
Definition legendPct (value total : Q) : Q :=
  if gtb total 0
  then fdiv (inject_Z (Math_round (fmul (fdiv value total) 1000))) 10
  else 0%Q.

(** the pager buttons; a disabled button does not fire *)
Inductive PagerButton := First | Prev | Next | Last.

Definition pagerClick (b : PagerButton) (totalPages page : Z) : Z :=
  match b with
  | First => if page =? 1 then page else 1
  | Prev => if page =? 1 then page else Z.max 1 (page - 1)
  | Next => if page =? totalPages then page else Z.min totalPages (page + 1)
  | Last => if page =? totalPages then page else totalPages
  end.

(** the caption "Showing from-to of length" *)
Definition showingFrom (len page pageSize : Z) : Z :=
  if len =? 0 then 0 else (page - 1) * pageSize + 1.

Definition showingTo (len page pageSize : Z) : Z := Z.min (page * pageSize) len.

(** [renderRows]: the table body of the 200+ scale variant, a header row
    whenever the feeder differs from that of the row before *)
Inductive Rendered := HeaderRow (feeder : string) | StationRow (r : FlatRow.t).

Fixpoint renderFrom (lastFeeder : option string) (rows : list FlatRow.t)
  : list Rendered :=
  match rows with
  | [] => []
  | r :: rest =>
      let same :=
        match lastFeeder with
        | Some l => String.eqb (FlatRow.feeder r) l
        | None => false
        end in
      if same then StationRow r :: renderFrom lastFeeder rest
      else HeaderRow (FlatRow.feeder r) :: StationRow r
             :: renderFrom (Some (FlatRow.feeder r)) rest
  end.

Definition renderRows (rows : list FlatRow.t) : list Rendered := renderFrom None rows.

(** [hashStringToHue]: [h = (h * 31 + str.charCodeAt(i)) >>> 0], then [h % 360] *)
Definition charCodeAt (c : ascii) : Z := Z.of_nat (nat_of_ascii c).

(** [x >>> 0] on a non-negative integer *)
Definition toUint32 (x : Z) : Z := x mod 2 ^ 32.

Fixpoint hashLoop (str : string) (h : Z) : Z :=
  match str with
  | EmptyString => h
  | String c rest => hashLoop rest (toUint32 (h * 31 + charCodeAt c))
  end.

Definition hashStringToHue (str : string) : Z := hashLoop str 0 mod 360.

(** ** Vocabulary of the further statements *)

(** the user's actions on the outage flags, and a run of them *)
Inductive Action :=
| ToggleFeeder (name : string)
| ToggleStation (id : string)
| SetAllFeeders (out : bool).

Definition act (cmp : string -> string -> Z) (st : State.t) (a : Action) : State.t :=
  match a with
  | ToggleFeeder name => toggleFeeder name st
  | ToggleStation id => toggleStation id st
  | SetAllFeeders out => setAllFeeders cmp out st
  end.

Definition run (cmp : string -> string -> Z) (l : list Action) (st : State.t) : State.t :=
  fold_left (act cmp) l st.

(** the unreduced polynomial that [hashLoop] follows *)
Fixpoint polyHash (str : string) (h : Z) : Z :=
  match str with
  | EmptyString => h
  | String c rest => polyHash rest (h * 31 + charCodeAt c)
  end.

(** the rows the headers of a rendering govern: each station row paired with
    the feeder of the last header before it *)
Fixpoint underHeaders (cur : option string) (l : list Rendered)
  : list (option string * FlatRow.t) :=
  match l with
  | [] => []
  | HeaderRow f :: rest => underHeaders (Some f) rest
  | StationRow r :: rest => (cur, r) :: underHeaders cur rest
  end.

(** the pages [1 .. n] of a list *)
Definition pagesOf {A : Type} (rows : list A) (pageSize : Z) (n : nat) : list (list A) :=
  map (fun i => pageRows rows (Z.of_nat (S i)) pageSize) (seq 0 n).


(** what no toggle changes in a station *)
Definition stationCore (s : Station.t) : string * string * string * JsNum :=
  (Station.id s, Station.feeder s, Station.name s, Station.consumers s).

(** a run of requests against the publish endpoint, each with its clock reading *)
Definition serve (reqs : list (string * Request)) (store : gmap string Payload.t)
  : gmap string Payload.t :=
  fold_left (fun st r => fst (publish (fst r) (snd r) st)) reqs store.

(** the payload of the last request of a run that was a well-formed POST *)
Definition lastPublished (reqs : list (string * Request)) (before : option Payload.t)
  : option Payload.t :=
  fold_left (fun acc r =>
               match snd r with
               | POST (Some body) => Some (makePayload (fst r) body)
               | _ => acc
               end) reqs before.


(** a plain assignment under the key [k] takes effect on the object [obj],
    or is swallowed by it *)
Definition writable (obj : gmap string bool) (k : string) : bool :=
  match obj !! k with
  | Some _ => true
  | None => negb (String.eqb k "__proto__")
  end.

Definition swallowed (obj : gmap string bool) (k : string) : Prop :=
  k = "__proto__" /\ obj !! k = None.

(** * Properties *)

(** ** Rounding to binary64 *)

Lemma pow2_pos k : (0 < pow2 k)%Q.
Proof. apply Qpower_0_lt. reflexivity. Qed.

Lemma pow2_nonzero k : ~ (pow2 k == 0)%Q.
Proof. intros E. pose proof (pow2_pos k) as H. rewrite E in H. discriminate H. Qed.

Lemma pow2_add a b : (pow2 (a + b) == pow2 a * pow2 b)%Q.
Proof. apply Qpower_plus. discriminate. Qed.

Lemma pow2_le a b : a <= b -> (pow2 a <= pow2 b)%Q.
Proof. intros H. apply Qpower_le_compat_l; [exact H | discriminate]. Qed.

Lemma pow2_lt a b : a < b -> (pow2 a < pow2 b)%Q.
Proof. intros H. apply Qpower_lt_compat_l; [exact H | reflexivity]. Qed.

Lemma pow2_lt_inv a b : (pow2 a < pow2 b)%Q -> a < b.
Proof. intros H. apply (Qpower_lt_compat_l_inv 2); [exact H | reflexivity]. Qed.

Lemma pow2_Z k : 0 <= k -> (pow2 k == inject_Z (2 ^ k))%Q.
Proof. intros H. unfold pow2. now rewrite Zpower_Qpower. Qed.

Lemma div_pow2 x k : (x / pow2 k == x * pow2 (- k))%Q.
Proof. unfold Qdiv, pow2. now rewrite Qpower_opp. Qed.

Lemma pow2_cancel k : (pow2 (- k) * pow2 k == 1)%Q.
Proof. rewrite <- pow2_add. now replace (- k + k) with 0 by lia. Qed.

Lemma pow2_sub a b :
  0 <= a -> 0 <= b -> (pow2 (a - b) == inject_Z (2 ^ a) / inject_Z (2 ^ b))%Q.
Proof.
  intros Ha Hb. replace (a - b) with (a + - b) by lia.
  rewrite pow2_add, <- div_pow2, !pow2_Z by lia. reflexivity.
Qed.

Lemma ilog2_bounds n d :
  0 < n ->
  let l := Z.log2 n - Z.log2 (Zpos d) in
  (pow2 (l - 1) < n # d)%Q /\ (n # d < pow2 (l + 1))%Q.
Proof.
  intros Hn l.
  pose proof (Z.log2_spec n Hn) as [Ha1 Ha2].
  pose proof (Z.log2_spec (Zpos d) ltac:(lia)) as [Hb1 Hb2].
  pose proof (Z.log2_nonneg n) as Ha. pose proof (Z.log2_nonneg (Zpos d)) as Hb.
  set (a := Z.log2 n) in *. set (b := Z.log2 (Zpos d)) in *.
  assert (HA : 0 < 2 ^ a) by (apply Z.pow_pos_nonneg; lia).
  assert (HB : 0 < 2 ^ b) by (apply Z.pow_pos_nonneg; lia).
  assert (HA' : 0 < 2 ^ Z.succ a) by (apply Z.pow_pos_nonneg; lia).
  assert (HB' : 0 < 2 ^ Z.succ b) by (apply Z.pow_pos_nonneg; lia).
  split.
  - replace (l - 1) with (a - Z.succ b) by (unfold l; lia).
    rewrite pow2_sub by lia.
    apply Qlt_shift_div_r; [unfold Qlt; simpl; lia|].
    unfold Qlt, Qmult, inject_Z. simpl. nia.
  - replace (l + 1) with (Z.succ a - b) by (unfold l; lia).
    rewrite pow2_sub by lia.
    apply Qlt_shift_div_l; [unfold Qlt; simpl; lia|].
    unfold Qlt, Qmult, inject_Z. simpl. nia.
Qed.

Lemma ilog2_spec x :
  (0 < x)%Q -> (pow2 (ilog2 x) <= x)%Q /\ (x < pow2 (ilog2 x + 1))%Q.
Proof.
  intros Hx. destruct x as [n d].
  assert (Hn : 0 < n) by (unfold Qlt in Hx; simpl in Hx; lia).
  destruct (ilog2_bounds n d Hn) as [Hlo Hhi]. cbv zeta in Hlo, Hhi.
  unfold ilog2. cbn [Qnum Qden].
  set (l := Z.log2 n - Z.log2 (Zpos d)) in *.
  destruct (Qle_bool (pow2 l) (n # d)) eqn:E.
  - split; [now apply Qle_bool_iff | exact Hhi].
  - split; [now apply Qlt_le_weak|].
    replace (l - 1 + 1) with l by lia.
    apply Qnot_le_lt. intros H. apply Qle_bool_iff in H. congruence.
Qed.

Lemma ilog2_unique x e :
  (pow2 e <= x)%Q -> (x < pow2 (e + 1))%Q -> ilog2 x = e.
Proof.
  intros H1 H2.
  assert (Hx : (0 < x)%Q) by (eapply Qlt_le_trans; [apply pow2_pos | exact H1]).
  destruct (ilog2_spec x Hx) as [S1 S2].
  assert (A : ilog2 x < e + 1).
  { apply pow2_lt_inv. eapply Qle_lt_trans; eauto. }
  assert (B : e < ilog2 x + 1).
  { apply pow2_lt_inv. eapply Qle_lt_trans; eauto. }
  lia.
Qed.

Lemma ilog2_proper x y : (0 < x)%Q -> (x == y)%Q -> ilog2 x = ilog2 y.
Proof.
  intros Hx E. destruct (ilog2_spec x Hx) as [S1 S2].
  symmetry. apply ilog2_unique; now rewrite <- E.
Qed.

Lemma ilog2_mono x y : (0 < x)%Q -> (x <= y)%Q -> ilog2 x <= ilog2 y.
Proof.
  intros Hx Hxy.
  assert (Hy : (0 < y)%Q) by (eapply Qlt_le_trans; eauto).
  destruct (ilog2_spec x Hx) as [S1 _]. destruct (ilog2_spec y Hy) as [_ T2].
  assert (A : ilog2 x < ilog2 y + 1).
  { apply pow2_lt_inv. eapply Qle_lt_trans; [exact S1|]. eapply Qle_lt_trans; eauto. }
  lia.
Qed.

(** *** Rounding to the nearest integer, ties to even *)

Lemma RNE_proper x y : (x == y)%Q -> RNE x = RNE y.
Proof.
  intros E. unfold RNE. rewrite (Qfloor_comp _ _ E).
  assert (C : (x - inject_Z (Qfloor y) ?= 1 # 2)%Q = (y - inject_Z (Qfloor y) ?= 1 # 2)%Q).
  { apply Qcompare_comp; [|reflexivity]. unfold Qminus. now rewrite E. }
  now rewrite C.
Qed.

Lemma RNE_Z n : RNE (inject_Z n) = n.
Proof.
  unfold RNE. rewrite Qfloor_Z.
  assert (E : (inject_Z n - inject_Z n ?= 1 # 2)%Q = Lt).
  { rewrite <- Qlt_alt. unfold Qlt, Qminus, Qplus, Qopp, inject_Z. simpl. lia. }
  now rewrite E.
Qed.

Lemma RNE_range x : Qfloor x <= RNE x <= Qfloor x + 1.
Proof.
  unfold RNE. destruct (_ ?= _)%Q; [destruct (Z.even _)| |]; lia.
Qed.

Lemma RNE_mono x y : (x <= y)%Q -> RNE x <= RNE y.
Proof.
  intros Hxy. pose proof (Qfloor_resp_le _ _ Hxy) as Hf.
  pose proof (RNE_range x) as Rx. pose proof (RNE_range y) as Ry.
  destruct (Z.eq_dec (Qfloor x) (Qfloor y)) as [E|NE]; [|lia].
  unfold RNE. rewrite <- E. set (f := Qfloor x).
  destruct (x - inject_Z f ?= 1 # 2)%Q eqn:Cx; destruct (y - inject_Z f ?= 1 # 2)%Q eqn:Cy;
    try (destruct (Z.even f)); try lia; exfalso;
    first [apply Qeq_alt in Cx | apply Qlt_alt in Cx | apply Qgt_alt in Cx];
    first [apply Qeq_alt in Cy | apply Qlt_alt in Cy | apply Qgt_alt in Cy]; lra.
Qed.

(** *** The quantum of a non-zero number *)

Lemma Qabs_pos_of_nonzero x : ~ (x == 0)%Q -> (0 < Qabs x)%Q.
Proof.
  intros Hx. destruct (Qlt_le_dec 0 (Qabs x)) as [H|H]; [exact H|].
  exfalso. apply Hx. apply Qabs_Qle_condition in H. destruct H as [H1 H2].
  apply Qle_antisym; [exact H2 | exact H1].
Qed.

Lemma quantum_ge x : -1074 <= quantum x.
Proof. unfold quantum. lia. Qed.

Lemma quantum_upper x : ~ (x == 0)%Q -> (Qabs x < pow2 (quantum x + 53))%Q.
Proof.
  intros Hx. destruct (ilog2_spec _ (Qabs_pos_of_nonzero x Hx)) as [_ H].
  eapply Qlt_le_trans; [exact H|]. apply pow2_le. unfold quantum. lia.
Qed.

Lemma quantum_lower x :
  ~ (x == 0)%Q -> -1074 < quantum x -> (pow2 (quantum x + 52) <= Qabs x)%Q.
Proof.
  intros Hx Hk. destruct (ilog2_spec _ (Qabs_pos_of_nonzero x Hx)) as [H _].
  replace (quantum x + 52) with (ilog2 (Qabs x)) by (unfold quantum in *; lia).
  exact H.
Qed.

Lemma quantum_proper x y : ~ (x == 0)%Q -> (x == y)%Q -> quantum x = quantum y.
Proof.
  intros Hx E. unfold quantum.
  rewrite (ilog2_proper (Qabs x) (Qabs y)); [reflexivity | now apply Qabs_pos_of_nonzero |].
  now rewrite E.
Qed.

Lemma quantum_mono x y :
  ~ (x == 0)%Q -> (Qabs x <= Qabs y)%Q -> quantum x <= quantum y.
Proof.
  intros Hx H. unfold quantum.
  pose proof (ilog2_mono _ _ (Qabs_pos_of_nonzero x Hx) H). lia.
Qed.

Lemma pow2_scale j k : 0 <= j -> (inject_Z (2 ^ j) * pow2 k == pow2 (k + j))%Q.
Proof. intros Hj. rewrite <- pow2_Z by exact Hj. rewrite pow2_add. apply Qmult_comm. Qed.

Lemma pow2_scale_opp j k : 0 <= j -> (inject_Z (- 2 ^ j) * pow2 k == - pow2 (k + j))%Q.
Proof.
  intros Hj. rewrite inject_Z_opp, <- (pow2_scale j k Hj). ring.
Qed.

Lemma scaled_le_Z x k m : (x <= inject_Z m * pow2 k)%Q -> RNE (x / pow2 k) <= m.
Proof.
  intros H. rewrite <- (RNE_Z m). apply RNE_mono.
  apply Qle_shift_div_r; [apply pow2_pos | exact H].
Qed.

Lemma scaled_ge_Z x k m : (inject_Z m * pow2 k <= x)%Q -> m <= RNE (x / pow2 k).
Proof.
  intros H. rewrite <- (RNE_Z m) at 1. apply RNE_mono.
  apply Qle_shift_div_l; [apply pow2_pos | exact H].
Qed.

Lemma scaled_mono x y k : (x <= y)%Q -> RNE (x / pow2 k) <= RNE (y / pow2 k).
Proof.
  intros H. apply RNE_mono. unfold Qdiv. apply Qmult_le_compat_r; [exact H|].
  apply Qlt_le_weak, Qinv_lt_0_compat, pow2_pos.
Qed.

Lemma unscaled_le m n k : m <= n -> (inject_Z m * pow2 k <= inject_Z n * pow2 k)%Q.
Proof.
  intros H. apply Qmult_le_compat_r; [now rewrite <- Zle_Qle | apply Qlt_le_weak, pow2_pos].
Qed.

(** *** The rounded value *)

Lemma round64_eq x :
  ~ (x == 0)%Q ->
  (round64 x == inject_Z (RNE (x / pow2 (quantum x))) * pow2 (quantum x))%Q.
Proof.
  intros Hx. unfold round64. destruct (Qeq_bool x 0) eqn:E.
  - apply Qeq_bool_iff in E. contradiction.
  - apply Qred_correct.
Qed.

Lemma round64_zero x : (x == 0)%Q -> round64 x = 0%Q.
Proof. intros E. unfold round64. apply Qeq_bool_iff in E. now rewrite E. Qed.

Lemma round64_proper x y : (x == y)%Q -> round64 x = round64 y.
Proof.
  intros E. unfold round64.
  assert (B : Qeq_bool x 0 = Qeq_bool y 0).
  { apply eq_true_iff_eq. rewrite !Qeq_bool_iff. now rewrite E. }
  rewrite <- B. destruct (Qeq_bool x 0) eqn:Hx; [reflexivity|].
  apply Qeq_bool_neq in Hx. apply Qred_complete.
  rewrite <- (quantum_proper x y Hx E).
  rewrite (RNE_proper (x / pow2 (quantum x)) (y / pow2 (quantum x))); [reflexivity|].
  unfold Qdiv. apply Qmult_comp; [exact E | reflexivity].
Qed.

Lemma round64_nonneg x : (0 <= x)%Q -> (0 <= round64 x)%Q.
Proof.
  intros Hx. destruct (Qeq_dec x 0) as [E|NE]; [rewrite (round64_zero x E); apply Qle_refl|].
  rewrite (round64_eq x NE).
  apply Qmult_le_0_compat; [|apply Qlt_le_weak, pow2_pos].
  replace 0%Q with (inject_Z 0) by reflexivity. rewrite <- Zle_Qle.
  apply scaled_ge_Z. rewrite Qmult_0_l. exact Hx.
Qed.

Lemma round64_nonpos x : (x <= 0)%Q -> (round64 x <= 0)%Q.
Proof.
  intros Hx. destruct (Qeq_dec x 0) as [E|NE]; [rewrite (round64_zero x E); apply Qle_refl|].
  rewrite (round64_eq x NE).
  assert (H : RNE (x / pow2 (quantum x)) <= 0).
  { apply scaled_le_Z. rewrite Qmult_0_l. exact Hx. }
  pose proof (unscaled_le _ _ (quantum x) H) as H'. now rewrite Qmult_0_l in H'.
Qed.

Lemma nonzero_of_pos x : (0 < x)%Q -> ~ (x == 0)%Q.
Proof. intros H E. rewrite E in H. exact (Qlt_irrefl _ H). Qed.

Lemma nonzero_of_neg x : (x < 0)%Q -> ~ (x == 0)%Q.
Proof. intros H E. rewrite E in H. exact (Qlt_irrefl _ H). Qed.

Lemma round64_upper_pos x : (0 < x)%Q -> (round64 x <= pow2 (quantum x + 53))%Q.
Proof.
  intros Hx. pose proof (nonzero_of_pos x Hx) as NE.
  rewrite (round64_eq x NE), <- (pow2_scale 53 (quantum x)) by lia.
  apply unscaled_le, scaled_le_Z. rewrite pow2_scale by lia.
  apply Qlt_le_weak. rewrite <- (Qabs_pos x) at 1 by now apply Qlt_le_weak.
  now apply quantum_upper.
Qed.

Lemma round64_lower_pos x :
  (0 < x)%Q -> -1074 < quantum x -> (pow2 (quantum x + 52) <= round64 x)%Q.
Proof.
  intros Hx Hk. pose proof (nonzero_of_pos x Hx) as NE.
  rewrite (round64_eq x NE), <- (pow2_scale 52 (quantum x)) by lia.
  apply unscaled_le, scaled_ge_Z. rewrite pow2_scale by lia.
  rewrite <- (Qabs_pos x) at 2 by now apply Qlt_le_weak.
  now apply quantum_lower.
Qed.

Lemma round64_lower_neg x : (x < 0)%Q -> (- pow2 (quantum x + 53) <= round64 x)%Q.
Proof.
  intros Hx. pose proof (nonzero_of_neg x Hx) as NE.
  rewrite (round64_eq x NE), <- (pow2_scale_opp 53 (quantum x)) by lia.
  apply unscaled_le, scaled_ge_Z. rewrite pow2_scale_opp by lia.
  pose proof (quantum_upper x NE) as H.
  rewrite (Qabs_neg x) in H by now apply Qlt_le_weak. lra.
Qed.

Lemma round64_upper_neg x :
  (x < 0)%Q -> -1074 < quantum x -> (round64 x <= - pow2 (quantum x + 52))%Q.
Proof.
  intros Hx Hk. pose proof (nonzero_of_neg x Hx) as NE.
  rewrite (round64_eq x NE), <- (pow2_scale_opp 52 (quantum x)) by lia.
  apply unscaled_le, scaled_le_Z. rewrite pow2_scale_opp by lia.
  pose proof (quantum_lower x NE Hk) as H.
  rewrite (Qabs_neg x) in H by now apply Qlt_le_weak. lra.
Qed.

Lemma round64_mono x y : (x <= y)%Q -> (round64 x <= round64 y)%Q.
Proof.
  intros Hxy. destruct (Qlt_le_dec 0 x) as [Hx|Hx].
  - assert (Hy : (0 < y)%Q) by (apply (Qlt_le_trans _ x); assumption).
    pose proof (nonzero_of_pos x Hx) as NEx. pose proof (nonzero_of_pos y Hy) as NEy.
    assert (Hk : quantum x <= quantum y).
    { apply quantum_mono; [exact NEx|]. rewrite !Qabs_pos by now apply Qlt_le_weak. exact Hxy. }
    destruct (Z.eq_dec (quantum x) (quantum y)) as [E|NE].
    + rewrite (round64_eq x NEx), (round64_eq y NEy), E.
      now apply unscaled_le, scaled_mono.
    + eapply Qle_trans; [now apply round64_upper_pos|].
      eapply Qle_trans; [|apply round64_lower_pos; [exact Hy|]].
      * apply pow2_le. lia.
      * pose proof (quantum_ge x). lia.
  - destruct (Qlt_le_dec y 0) as [Hy|Hy].
    + assert (Hx' : (x < 0)%Q) by (apply (Qle_lt_trans _ y); assumption).
      pose proof (nonzero_of_neg x Hx') as NEx. pose proof (nonzero_of_neg y Hy) as NEy.
      assert (Hk : quantum y <= quantum x).
      { apply quantum_mono; [exact NEy|]. rewrite !Qabs_neg by now apply Qlt_le_weak. lra. }
      destruct (Z.eq_dec (quantum x) (quantum y)) as [E|NE].
      * rewrite (round64_eq x NEx), (round64_eq y NEy), E.
        now apply unscaled_le, scaled_mono.
      * eapply Qle_trans; [apply round64_upper_neg; [exact Hx'|]|].
        -- pose proof (quantum_ge y). lia.
        -- eapply Qle_trans; [|now apply round64_lower_neg].
           apply Qopp_le_compat. apply pow2_le. lia.
    + eapply Qle_trans; [now apply round64_nonpos | now apply round64_nonneg].
Qed.


Lemma Qabs_scaled m k : (Qabs (inject_Z m * pow2 k) == inject_Z (Z.abs m) * pow2 k)%Q.
Proof.
  rewrite Qabs_Qmult, (Qabs_pos (pow2 k)) by apply Qlt_le_weak, pow2_pos.
  apply Qmult_comp; [|reflexivity]. unfold Qabs, inject_Z. reflexivity.
Qed.

Lemma round64_fix m k :
  Z.abs m < 2 ^ 53 -> -1074 <= k ->
  round64 (inject_Z m * pow2 k) = Qred (inject_Z m * pow2 k).
Proof.
  intros Hm Hk. set (x := (inject_Z m * pow2 k)%Q).
  destruct (Qeq_dec x 0) as [E|NE].
  - rewrite (round64_zero x E). symmetry. now apply (Qred_complete x 0).
  - assert (Hq : quantum x <= k).
    { destruct (ilog2_spec _ (Qabs_pos_of_nonzero x NE)) as [S1 _].
      assert (U : (Qabs x < pow2 (k + 53))%Q).
      { unfold x. rewrite Qabs_scaled, <- (pow2_scale 53 k) by lia.
        apply Qmult_lt_compat_r; [apply pow2_pos|]. now rewrite <- Zlt_Qlt. }
      assert (L : ilog2 (Qabs x) < k + 53).
      { apply pow2_lt_inv. eapply Qle_lt_trans; eauto. }
      unfold quantum. lia. }
    unfold round64. destruct (Qeq_bool x 0) eqn:B;
      [apply Qeq_bool_iff in B; contradiction|].
    apply Qred_complete. set (q := quantum x) in *.
    assert (S : (x / pow2 q == inject_Z (m * 2 ^ (k - q)))%Q).
    { rewrite inject_Z_mult, <- pow2_Z by lia. rewrite div_pow2. unfold x.
      rewrite <- Qmult_assoc, <- pow2_add.
      now replace (k + - q) with (k - q) by lia. }
    rewrite (RNE_proper _ _ S), RNE_Z.
    rewrite inject_Z_mult, <- pow2_Z by lia. unfold x.
    rewrite <- Qmult_assoc, <- pow2_add.
    now replace (k - q + q) with k by lia.
Qed.

Lemma round64_fix_le m k :
  Z.abs m <= 2 ^ 53 -> -1074 <= k ->
  round64 (inject_Z m * pow2 k) = Qred (inject_Z m * pow2 k).
Proof.
  intros Hm Hk. destruct (Z.eq_dec (Z.abs m) (2 ^ 53)) as [E|NE].
  - assert (X : (inject_Z m * pow2 k == inject_Z (m / 2) * pow2 (k + 1))%Q).
    { rewrite (Z.add_comm k 1), pow2_add, Qmult_assoc.
      apply Qmult_comp; [|reflexivity].
      replace (pow2 1) with (inject_Z 2) by reflexivity. rewrite <- inject_Z_mult.
      apply inject_Z_injective.
      assert (H : m = 2 ^ 53 \/ m = - 2 ^ 53) by lia.
      destruct H as [-> | ->]; reflexivity. }
    rewrite (round64_proper _ _ X), (Qred_complete _ _ X).
    apply round64_fix; [|lia].
    assert (H : m = 2 ^ 53 \/ m = - 2 ^ 53) by lia.
    destruct H as [-> | ->]; reflexivity.
  - apply round64_fix; lia.
Qed.

Lemma Qred_Z z : Qred (inject_Z z) = inject_Z z.
Proof. apply Qred_identity. apply Z.gcd_1_r. Qed.

Lemma round64_Z z : Z.abs z <= 2 ^ 53 -> round64 (inject_Z z) = inject_Z z.
Proof.
  intros Hz.
  assert (X : (inject_Z z == inject_Z z * pow2 0)%Q) by (unfold pow2; simpl; ring).
  rewrite (round64_proper _ _ X), round64_fix_le by lia.
  rewrite <- (Qred_complete _ _ X). apply Qred_Z.
Qed.




Lemma isDouble_0 : isDouble 0.
Proof. reflexivity. Qed.

Lemma isDouble_Z z : Z.abs z <= 2 ^ 53 -> isDouble (inject_Z z).
Proof. apply round64_Z. Qed.

Lemma round64_le_Z x z : Z.abs z <= 2 ^ 53 -> (x <= inject_Z z)%Q -> (round64 x <= inject_Z z)%Q.
Proof. intros Hz H. rewrite <- (round64_Z z Hz). now apply round64_mono. Qed.

Lemma round64_ge_Z x z : Z.abs z <= 2 ^ 53 -> (inject_Z z <= x)%Q -> (inject_Z z <= round64 x)%Q.
Proof. intros Hz H. rewrite <- (round64_Z z Hz). now apply round64_mono. Qed.

(** ** Sorting and the map of groups *)

Lemma insertSorted_perm {A} (cmp : A -> A -> Z) x l :
  Permutation (insertSorted cmp x l) (x :: l).
Proof.
  induction l as [|y l IH]; simpl; [reflexivity|].
  destruct (cmp x y <=? 0); [reflexivity|].
  rewrite IH. apply perm_swap.
Qed.

Lemma sort_perm {A} (cmp : A -> A -> Z) l : Permutation (sort cmp l) l.
Proof.
  induction l as [|x l IH]; simpl; [reflexivity|].
  rewrite insertSorted_perm. now constructor.
Qed.

Lemma sort_In {A} (cmp : A -> A -> Z) l x : In x (sort cmp l) <-> In x l.
Proof.
  split; apply Permutation_in; [apply sort_perm | symmetry; apply sort_perm].
Qed.

Lemma has_keys m k : JsMap.has m k = true <-> In k (JsMap.keys m).
Proof.
  induction m as [|[k' g] m IH]; simpl; [split; [discriminate|tauto]|].
  destruct (String.eqb_spec k' k) as [->|Hne]; [tauto|].
  rewrite IH. split; [tauto|]. intros [E|H]; [contradiction|exact H].
Qed.

Lemma keys_set m k g :
  JsMap.keys (JsMap.set m k g)
  = if JsMap.has m k then JsMap.keys m else (JsMap.keys m ++ [k])%list.
Proof.
  induction m as [|[k' g'] m IH]; simpl; [reflexivity|].
  destruct (String.eqb_spec k' k) as [->|Hne]; simpl; [reflexivity|].
  rewrite IH. now destruct (JsMap.has m k).
Qed.

Lemma In_keys m k g : In (k, g) m -> In k (JsMap.keys m).
Proof. intros H. apply (in_map fst) in H. exact H. Qed.

Lemma In_set m k g k' g' :
  List.NoDup (JsMap.keys m) ->
  In (k', g') (JsMap.set m k g)
  <-> (k' = k /\ g' = g) \/ (k' <> k /\ In (k', g') m).
Proof.
  induction m as [|[k0 g0] m IH]; simpl; intros Hnd.
  - split; [intros [E|[]]; inversion E; auto | intros [[-> ->]|[_ []]]; auto].
  - inversion Hnd as [|? ? Hnotin Hnd']; subst.
    destruct (String.eqb_spec k0 k) as [->|Hne]; simpl.
    + split.
      * intros [E|H]; [inversion E; auto|].
        right. split; [|auto]. intros ->. apply Hnotin. eapply In_keys; eauto.
      * intros [[-> ->]|[Hk [E|H]]]; auto. inversion E; congruence.
    + rewrite (IH Hnd'). split.
      * intros [E|[H|H]]; [inversion E; subst; auto | auto | tauto].
      * intros [H|[Hk [E|H]]]; auto.
Qed.

Lemma get_In m k g :
  List.NoDup (JsMap.keys m) -> JsMap.get m k = Some g <-> In (k, g) m.
Proof.
  induction m as [|[k0 g0] m IH]; simpl; intros Hnd; [split; [discriminate|tauto]|].
  inversion Hnd as [|? ? Hnotin Hnd']; subst.
  destruct (String.eqb_spec k0 k) as [->|Hne].
  - split; [intros E; inversion E; auto|].
    intros [E|H]; [inversion E; auto|]. exfalso. apply Hnotin. eapply In_keys; eauto.
  - rewrite (IH Hnd'). split; [auto|]. intros [E|H]; [inversion E; congruence|auto].
Qed.

Lemma get_None m k : JsMap.has m k = false -> JsMap.get m k = None.
Proof.
  induction m as [|[k0 g0] m IH]; simpl; [reflexivity|].
  destruct (String.eqb k0 k); [discriminate|exact IH].
Qed.

(** ** The aggregation loop *)

Lemma sumCons_snoc l s :
  sumCons (l ++ [s]) = fadd (sumCons l) (NumberOr0 (Station.consumers s)).
Proof. unfold sumCons. now rewrite fold_left_app. Qed.

Lemma sumAffected_snoc F l s :
  sumAffected F (l ++ [s])
  = if effOutOf F s then fadd (sumAffected F l) (NumberOr0 (Station.consumers s))
    else sumAffected F l.
Proof. unfold sumAffected. now rewrite fold_left_app. Qed.

Lemma members_snoc k l s :
  members k (l ++ [s])
  = (members k l ++ if String.eqb (feederOf s) k then [s] else [])%list.
Proof. unfold members. now rewrite List.filter_app. Qed.

Lemma groupOf_snoc_same F l s :
  groupOf F (feederOf s) (l ++ [s])
  = let g := groupOf F (feederOf s) l in
    Group.mk (Group.name g) (Group.stations g ++ [StationE.mk s (effOutOf F s)])
      (fadd (Group.total g) (NumberOr0 (Station.consumers s)))
      (if effOutOf F s then fadd (Group.affected g) (NumberOr0 (Station.consumers s))
       else Group.affected g)
      (Group.healthy g).
Proof.
  unfold groupOf. simpl. rewrite members_snoc, String.eqb_refl.
  now rewrite map_app, sumCons_snoc, sumAffected_snoc.
Qed.

Lemma groupOf_snoc_other F k l s :
  feederOf s <> k -> groupOf F k (l ++ [s]) = groupOf F k l.
Proof.
  intros Hne. unfold groupOf. rewrite members_snoc.
  destruct (String.eqb_spec (feederOf s) k); [contradiction|].
  now rewrite app_nil_r.
Qed.

Lemma members_nil_of_absent k l :
  (forall s, In s l -> feederOf s <> k) -> members k l = [].
Proof.
  induction l as [|x l IH]; simpl; intros H; [reflexivity|].
  destruct (String.eqb_spec (feederOf x) k) as [E|_].
  - exfalso. apply (H x); auto.
  - apply IH. intros s Hs. apply H. auto.
Qed.

Lemma aggregateStep_inv F l a s :
  LoopInv F l a -> LoopInv F (l ++ [s]) (aggregateStep F a s).
Proof.
  intros (Hnd & Hgrp & Hkeys & Htot & Haff).
  unfold aggregateStep.
  set (f := feederOf s).
  set (groups1 := if JsMap.has (Acc.groups a) f then Acc.groups a
                  else JsMap.set (Acc.groups a) f (newGroup f)).
  assert (Hnd1 : List.NoDup (JsMap.keys groups1)).
  { unfold groups1. destruct (JsMap.has (Acc.groups a) f) eqn:Hhas; [exact Hnd|].
    rewrite keys_set, Hhas. apply List.NoDup_app; [exact Hnd | repeat constructor; simpl; tauto |].
    intros x Hx [<-|[]]. apply has_keys in Hx. congruence. }
  assert (Hgrp1 : forall k g, In (k, g) groups1 -> g = groupOf F k l).
  { unfold groups1. destruct (JsMap.has (Acc.groups a) f) eqn:Hhas; [exact Hgrp|].
    intros k g Hin. apply In_set in Hin; [|exact Hnd].
    destruct Hin as [[-> ->]|[_ Hin]]; [|auto].
    unfold groupOf, newGroup. rewrite members_nil_of_absent; [reflexivity|].
    intros s' Hs' E. apply Hkeys in Hs'. rewrite E in Hs'.
    apply has_keys in Hs'. congruence. }
  assert (Hsub : forall k, In k (JsMap.keys (Acc.groups a)) -> In k (JsMap.keys groups1)).
  { unfold groups1. destruct (JsMap.has (Acc.groups a) f) eqn:Hhas; [auto|].
    intros k Hk. rewrite keys_set, Hhas. apply in_or_app. auto. }
  assert (Hf : In f (JsMap.keys groups1)).
  { unfold groups1. destruct (JsMap.has (Acc.groups a) f) eqn:Hhas.
    - now apply has_keys.
    - rewrite keys_set, Hhas. apply in_or_app. right. now left. }
  assert (Hget : JsMap.get groups1 f = Some (groupOf F f l)).
  { apply in_map_iff in Hf. destruct Hf as ([k g] & Hk & Hin). simpl in Hk. subst k.
    apply get_In; [exact Hnd1|]. now rewrite <- (Hgrp1 _ _ Hin). }
  rewrite Hget. simpl default.
  pose proof (groupOf_snoc_same F l s) as Hsnoc. cbv zeta in Hsnoc. fold f in Hsnoc.
  cbv zeta. rewrite <- Hsnoc. clear Hsnoc.
  assert (Hhas1 : JsMap.has groups1 f = true) by now apply has_keys.
  repeat split; simpl.
  - now rewrite keys_set, Hhas1.
  - intros k g Hin. apply In_set in Hin; [|exact Hnd1].
    destruct Hin as [[-> ->]|[Hne Hin]]; [reflexivity|].
    rewrite groupOf_snoc_other; [auto|]. fold f. congruence.
  - intros s' Hs'. rewrite keys_set, Hhas1. apply in_app_or in Hs'.
    destruct Hs' as [Hs'|[<-|[]]]; [auto|exact Hf].
  - now rewrite sumCons_snoc, Htot.
  - now rewrite sumAffected_snoc, Haff.
Qed.

Lemma aggregateLoop_inv F l : LoopInv F l (aggregateLoop F l).
Proof.
  unfold aggregateLoop.
  induction l as [|s l IH] using rev_ind.
  - simpl. repeat split; simpl; try tauto. constructor.
  - rewrite fold_left_app. simpl. now apply aggregateStep_inv.
Qed.

(** ** The aggregation output *)

Lemma feeders_char cmp l F g :
  In g (Aggregate.feeders (aggregate cmp l F)) ->
  g = setHealthy (groupOf F (Group.name g) l).
Proof.
  unfold aggregate. simpl. intros Hin. apply sort_In in Hin.
  apply in_map_iff in Hin. destruct Hin as (g0 & <- & Hin).
  apply in_map_iff in Hin. destruct Hin as ([k g1] & Hk & Hin). simpl in Hk. subst g1.
  destruct (aggregateLoop_inv F l) as (_ & Hgrp & _).
  rewrite (Hgrp _ _ Hin). reflexivity.
Qed.

Lemma feeders_cover cmp l F s :
  In s l ->
  In (setHealthy (groupOf F (feederOf s) l)) (Aggregate.feeders (aggregate cmp l F)).
Proof.
  intros Hs. unfold aggregate. simpl. apply sort_In. apply in_map.
  destruct (aggregateLoop_inv F l) as (_ & Hgrp & Hkeys & _).
  apply Hkeys in Hs. apply in_map_iff in Hs. destruct Hs as ([k g] & Hk & Hin).
  simpl in Hk. subst k. apply in_map_iff. exists (feederOf s, g). split; [|exact Hin].
  simpl. now apply Hgrp.
Qed.

Lemma members_In k l s : In s (members k l) <-> In s l /\ feederOf s = k.
Proof.
  unfold members. rewrite filter_In. split; intros [H1 H2]; split; auto.
  - now apply String.eqb_eq.
  - now apply String.eqb_eq.
Qed.

Lemma aggregate_totals cmp l F :
  Aggregate.totals (aggregate cmp l F)
  = Totals.mk (sumCons l) (sumAffected F l) (fsub (sumCons l) (sumAffected F l))
              (pctOf (sumAffected F l) (sumCons l)).
Proof.
  destruct (aggregateLoop_inv F l) as (_ & _ & _ & Htot & Haff).
  unfold aggregate. simpl. now rewrite Htot, Haff.
Qed.

(** The end-to-end scenario of the specification: 40 (out) and 60 on F1,
    100 on F2, F2 forced off. *)
Lemma scenario_totals :
  Aggregate.totals (aggregate codeUnitCompare sampleStations (<["F2" := true]> ∅))
  = Totals.mk 200 140 60 70.
Proof. vm_compute. reflexivity. Qed.

(** ** Sums of consumers *)

Lemma sumAffected_from F l a :
  fold_left (fun acc s => if effOutOf F s
                          then fadd acc (NumberOr0 (Station.consumers s)) else acc) l a
  = fold_left (fun acc s => fadd acc (NumberOr0 (Station.consumers s)))
              (List.filter (effOutOf F) l) a.
Proof.
  revert a. induction l as [|x l IH]; intros a; simpl; [reflexivity|].
  destruct (effOutOf F x); simpl; apply IH.
Qed.

Lemma sumAffected_filter F l : sumAffected F l = sumCons (List.filter (effOutOf F) l).
Proof. apply sumAffected_from. Qed.


Lemma sumCountZ_snoc l s : sumCountZ (l ++ [s]) = sumCountZ l + countZ s.
Proof.
  unfold sumCountZ. induction l as [|x l IH]; simpl; [lia|]. rewrite IH. lia.
Qed.

Lemma sumCountZ_nonneg l : Forall wholeCount l -> 0 <= sumCountZ l.
Proof.
  unfold sumCountZ. induction 1 as [|x l [Hx _] _ IH]; simpl; lia.
Qed.

Lemma sumCountZ_filter p l :
  Forall wholeCount l -> sumCountZ (List.filter p l) <= sumCountZ l.
Proof.
  unfold sumCountZ. induction 1 as [|x l [Hx _] _ IH]; simpl; [lia|].
  destruct (p x); simpl; lia.
Qed.

Lemma Forall_filter_whole p l : Forall wholeCount l -> Forall wholeCount (List.filter p l).
Proof.
  intros H. apply List.Forall_forall. intros s Hs. apply filter_In in Hs.
  rewrite List.Forall_forall in H. now apply H.
Qed.

(** The binary64 sum of whole counts is their exact sum, as long as that
    stays within the integers binary64 represents exactly. *)
Lemma sumCons_whole l :
  Forall wholeCount l -> sumCountZ l <= 2 ^ 53 -> sumCons l = inject_Z (sumCountZ l).
Proof.
  induction l as [|s l IH] using rev_ind; intros Hw Hb; [reflexivity|].
  apply Forall_app in Hw. destruct Hw as [Hl Hs].
  inversion Hs as [|? ? [Hn Hc] _]; subst.
  pose proof (sumCountZ_nonneg l Hl) as H0.
  rewrite sumCountZ_snoc in *. rewrite sumCons_snoc, IH by (auto; lia).
  unfold fadd.
  rewrite (round64_proper _ (inject_Z (sumCountZ l + countZ s))).
  - apply round64_Z. lia.
  - rewrite Hc, inject_Z_plus. reflexivity.
Qed.

Lemma fsub_whole a b :
  0 <= b <= a -> a <= 2 ^ 53 -> fsub (inject_Z a) (inject_Z b) = inject_Z (a - b).
Proof.
  intros Hab Ha. unfold fsub.
  rewrite (round64_proper _ (inject_Z (a - b))).
  - apply round64_Z. lia.
  - unfold Z.sub. rewrite inject_Z_plus, inject_Z_opp. reflexivity.
Qed.

Lemma fadd_whole a b :
  0 <= a -> 0 <= b -> a + b <= 2 ^ 53 -> fadd (inject_Z a) (inject_Z b) = inject_Z (a + b).
Proof.
  intros Ha Hb Hab. unfold fadd. rewrite <- inject_Z_plus. apply round64_Z. lia.
Qed.

(** the figures of a list of whole counts: total, affected and healthy are
    the exact integer sums *)
Lemma whole_figures F l :
  Forall wholeCount l -> sumCountZ l <= 2 ^ 53 ->
  let t := sumCountZ l in
  let a := sumCountZ (List.filter (effOutOf F) l) in
  0 <= a <= t
  /\ sumCons l = inject_Z t
  /\ sumAffected F l = inject_Z a
  /\ fsub (sumCons l) (sumAffected F l) = inject_Z (t - a).
Proof.
  intros Hw Hb t a.
  pose proof (sumCountZ_filter (effOutOf F) l Hw) as Hle. fold a t in Hle.
  pose proof (sumCountZ_nonneg _ (Forall_filter_whole (effOutOf F) l Hw)) as Hge. fold a in Hge.
  assert (Et : sumCons l = inject_Z t) by now apply sumCons_whole.
  assert (Ea : sumAffected F l = inject_Z a).
  { rewrite sumAffected_filter. apply sumCons_whole; [now apply Forall_filter_whole|].
    fold a. unfold t in *. lia. }
  split; [lia|]. split; [exact Et|]. split; [exact Ea|].
  rewrite Et, Ea. apply fsub_whole; unfold t in *; lia.
Qed.

Lemma map_s_annotate F l : map StationE.s (map (annotate F) l) = l.
Proof. rewrite List.map_map. simpl. apply List.map_id. Qed.

Lemma filter_effOut_annotate F l :
  map StationE.s (List.filter StationE.effOut (map (annotate F) l))
  = List.filter (effOutOf F) l.
Proof.
  induction l as [|x l IH]; simpl; [reflexivity|].
  destruct (effOutOf F x); simpl; now rewrite IH.
Qed.

Lemma Forall_members_whole k l : Forall wholeCount l -> Forall wholeCount (members k l).
Proof. apply Forall_filter_whole. Qed.

(** C2, as the code has it. The totals and every feeder group carry the
    sums the loop accumulates in binary64, in input order: the total over
    all stations (of the group), the affected figure over those effectively
    out, and healthy = total - affected, rounded. A group's stations are
    exactly the input stations filed under its name. When every consumer
    count is a whole number, not negative, and the counts add up to at most
    2^53, the sums are exact and affected + healthy = total holds, globally
    and in every group. *)
Theorem aggregate_sums_add_up (cmp : string -> string -> Z)
    (stations : list Station.t) (feederOut : gmap string bool) :
  let out := aggregate cmp stations feederOut in
  let T := Aggregate.totals out in
  Totals.total T = sumCons stations
  /\ Totals.affected T = sumCons (List.filter (effOutOf feederOut) stations)
  /\ Totals.healthy T = fsub (Totals.total T) (Totals.affected T)
  /\ (forall g, In g (Aggregate.feeders out) ->
        Group.stations g = map (annotate feederOut) (members (Group.name g) stations)
        /\ Group.total g = sumCons (map StationE.s (Group.stations g))
        /\ Group.affected g
           = sumCons (map StationE.s (List.filter StationE.effOut (Group.stations g)))
        /\ Group.healthy g = fsub (Group.total g) (Group.affected g))
  /\ (Forall wholeCount stations -> sumCountZ stations <= 2 ^ 53 ->
      Totals.total T = inject_Z (sumCountZ stations)
      /\ (Totals.affected T + Totals.healthy T == Totals.total T)%Q
      /\ fadd (Totals.affected T) (Totals.healthy T) = Totals.total T
      /\ forall g, In g (Aggregate.feeders out) ->
           Group.total g = inject_Z (sumCountZ (map StationE.s (Group.stations g)))
           /\ (Group.affected g + Group.healthy g == Group.total g)%Q
           /\ fadd (Group.affected g) (Group.healthy g) = Group.total g).
Proof.
  intros out T. unfold T, out. rewrite aggregate_totals.
  cbn [Totals.total Totals.affected Totals.healthy].
  split; [reflexivity|]. split; [apply sumAffected_filter|]. split; [reflexivity|].
  split.
  - intros g Hg. apply feeders_char in Hg.
    remember (Group.name g) as k eqn:Hk. subst g. clear Hk.
    cbn [setHealthy groupOf Group.stations Group.total Group.affected Group.healthy Group.name].
    rewrite map_s_annotate, filter_effOut_annotate, sumAffected_filter.
    repeat split; reflexivity.
  - intros Hw Hb.
    destruct (whole_figures feederOut stations Hw Hb) as (Hat & Et & Ea & Eh).
    cbv zeta in Hat, Et, Ea, Eh. rewrite Eh, Et, Ea.
    split; [reflexivity|]. split; [|split].
    + rewrite <- inject_Z_plus. apply inject_Z_injective. lia.
    + rewrite fadd_whole by lia. f_equal. lia.
    + intros g Hg. apply feeders_char in Hg.
      remember (Group.name g) as k eqn:Hk. subst g. clear Hk.
      cbn [setHealthy groupOf Group.stations Group.total Group.affected Group.healthy Group.name].
      rewrite map_s_annotate.
      assert (Hwm : Forall wholeCount (members k stations)) by now apply Forall_members_whole.
      assert (Hbm : sumCountZ (members k stations) <= 2 ^ 53).
      { pose proof (sumCountZ_filter (fun s => String.eqb (feederOf s) k) stations Hw).
        unfold members. lia. }
      destruct (whole_figures feederOut (members k stations) Hwm Hbm) as (Hat' & Et' & Ea' & Eh').
      cbv zeta in Hat', Et', Ea', Eh'. rewrite Eh', Et', Ea'.
      split; [reflexivity|]. split.
      * rewrite <- inject_Z_plus. apply inject_Z_injective. lia.
      * rewrite fadd_whole by lia. f_equal. lia.
Qed.

Lemma aggregate_sums_add_up_witness :
  let T := Aggregate.totals (aggregate codeUnitCompare sampleStations ∅) in
  Totals.total T = 200%Q
  /\ (Totals.affected T + Totals.healthy T == Totals.total T)%Q.
Proof.
  intros T.
  destruct (aggregate_sums_add_up codeUnitCompare sampleStations ∅)
    as (_ & _ & _ & _ & H).
  destruct H as (H1 & H2 & _).
  - repeat constructor; vm_compute; try reflexivity; discriminate.
  - vm_compute. discriminate.
  - split; [exact H1 | exact H2].
Defined.

(** C2 as worded fails on counts that are not whole numbers. With the
    counts 0.1, 0.2 (out) and 0.4 the code reports total
    0.7000000000000001, affected 0.2 and healthy 0.5: affected + healthy is
    0.7, in binary64 and exactly, and not the total. And the total of the
    group F1, 0.5, is the rounded sum of its two counts, not their exact
    sum. *)
Lemma sums_drift_on_fractional_counts :
  ~ (forall (stations : list Station.t) (F : gmap string bool),
       let T := Aggregate.totals (aggregate codeUnitCompare stations F) in
       fadd (Totals.affected T) (Totals.healthy T) = Totals.total T)
  /\ ~ (forall (stations : list Station.t) (F : gmap string bool),
          let T := Aggregate.totals (aggregate codeUnitCompare stations F) in
          (Totals.affected T + Totals.healthy T == Totals.total T)%Q)
  /\ ~ (forall (stations : list Station.t) (F : gmap string bool) g,
          In g (Aggregate.feeders (aggregate codeUnitCompare stations F)) ->
          (Group.total g
           == sumQ (map (fun e => NumberOr0 (Station.consumers (StationE.s e)))
                        (Group.stations g)))%Q).
Proof.
  split; [|split].
  - intros H. specialize (H fractionStations ∅). vm_compute in H. discriminate H.
  - intros H. specialize (H fractionStations ∅). vm_compute in H. discriminate H.
  - intros H.
    specialize (H fractionStations ∅
                  (setHealthy (groupOf ∅ "F1" fractionStations))).
    assert (Hin : In (setHealthy (groupOf ∅ "F1" fractionStations))
                     (Aggregate.feeders (aggregate codeUnitCompare fractionStations ∅)))
      by (vm_compute; left; reflexivity).
    specialize (H Hin). vm_compute in H. discriminate H.
Qed.

(** ** Effective outage and the feeder toggle *)

Lemma isFeederOut_own F k b : F !! k = Some b -> isFeederOut F k = b.
Proof. intros H. unfold isFeederOut. now rewrite H. Qed.

Lemma isFeederOut_missing F k : F !! k = None -> isFeederOut F k = inherited k.
Proof. intros H. unfold isFeederOut. now rewrite H. Qed.

Lemma inherited_In k : inherited k = true <-> In k objectPrototypeKeys.
Proof.
  unfold inherited. rewrite existsb_exists. split.
  - intros (x & Hx & E). apply String.eqb_eq in E. now subst.
  - intros H. exists k. split; [exact H | apply String.eqb_refl].
Qed.

Lemma isFeederOut_toggle F name k :
  isFeederOut (<[name := negb (isFeederOut F name)]> F) k
  = if String.eqb name k then negb (isFeederOut F name) else isFeederOut F k.
Proof.
  unfold isFeederOut at 1. destruct (String.eqb_spec name k) as [->|Hne].
  - now rewrite lookup_insert_eq.
  - rewrite lookup_insert_ne by exact Hne. reflexivity.
Qed.

Lemma toggleFeeder_twice name st k :
  isFeederOut (State.feederOut (toggleFeeder name (toggleFeeder name st))) k
  = isFeederOut (State.feederOut st) k.
Proof.
  unfold toggleFeeder. simpl. rewrite !isFeederOut_toggle.
  destruct (String.eqb_spec name k) as [->|Hne]; [|reflexivity].
  rewrite String.eqb_refl. apply negb_involutive.
Qed.

Lemma feederOf_specKey s : feederOf s = specKey s.
Proof. unfold feederOf, specKey. now destruct (Station.feeder s). Qed.

Lemma group_station_char cmp l F g e :
  In g (Aggregate.feeders (aggregate cmp l F)) -> In e (Group.stations g) ->
  In (StationE.s e) l
  /\ feederOf (StationE.s e) = Group.name g
  /\ StationE.effOut e = effOutOf F (StationE.s e).
Proof.
  intros Hg He. apply feeders_char in Hg. rewrite Hg in He. simpl in He.
  apply in_map_iff in He. destruct He as (s & <- & Hs).
  apply members_In in Hs. simpl. tauto.
Qed.

(** C1, as the code has it. A station [s] is filed under the key [k], which
    is [s.feeder], or ["Unassigned"] when [s.feeder] is empty, and the flag
    computed for it is [F[k] || s.isOut]; every input station appears with
    this flag in the group named [k]. The override map is read as a plain
    object: an own entry gives its value, and a name the map does not own
    counts as false unless it is one of the properties inherited from
    [Object.prototype], which count as true. The feeder toggle leaves the
    station list untouched; switching a feeder OFF and ON again restores the
    reading of every feeder, so every station filed under a feeder that was
    on has its own [isOut] as [effOut] after the round trip, and [true] in
    between. *)
Theorem effOut_invariant_and_feeder_round_trip (cmp : string -> string -> Z)
    (st : State.t) (name : string) :
  let F := State.feederOut st in
  let l := State.stations st in
  let off := toggleFeeder name st in
  let on := toggleFeeder name off in
  (forall g e, In g (Aggregate.feeders (aggregate cmp l F)) ->
     In e (Group.stations g) ->
     Group.name g = specKey (StationE.s e)
     /\ StationE.effOut e
        = isFeederOut F (specKey (StationE.s e)) || Station.isOut (StationE.s e))
  /\ (forall s, In s l ->
        exists g, In g (Aggregate.feeders (aggregate cmp l F))
                  /\ Group.name g = specKey s
                  /\ In (StationE.mk s (isFeederOut F (specKey s) || Station.isOut s))
                        (Group.stations g))
  /\ (forall k b, F !! k = Some b -> isFeederOut F k = b)
  /\ (forall k, F !! k = None -> (isFeederOut F k = true <-> In k objectPrototypeKeys))
  /\ State.stations off = l
  /\ State.stations on = l
  /\ (forall k, isFeederOut (State.feederOut on) k = isFeederOut F k)
  /\ (isFeederOut F name = false ->
      (forall g e,
          In g (Aggregate.feeders (aggregate cmp (State.stations off) (State.feederOut off))) ->
          Group.name g = name -> In e (Group.stations g) ->
          StationE.effOut e = true)
      /\ (forall g e,
          In g (Aggregate.feeders (aggregate cmp (State.stations on) (State.feederOut on))) ->
          Group.name g = name -> In e (Group.stations g) ->
          StationE.effOut e = Station.isOut (StationE.s e))).
Proof.
  intros F l off on.
  split; [|split; [|split; [|split; [|split; [|split; [|split]]]]]].
  - intros g e Hg He. destruct (group_station_char _ _ _ _ _ Hg He) as (_ & Hk & ->).
    rewrite <- feederOf_specKey. split; [now symmetry | reflexivity].
  - intros s Hs. exists (setHealthy (groupOf F (feederOf s) l)).
    split; [now apply feeders_cover|]. rewrite <- feederOf_specKey.
    split; [reflexivity|]. simpl.
    apply (in_map (annotate F)). now apply members_In.
  - intros k b. apply isFeederOut_own.
  - intros k Hk. rewrite (isFeederOut_missing F k Hk). apply inherited_In.
  - reflexivity.
  - reflexivity.
  - intros k. apply toggleFeeder_twice.
  - intros Hon. split.
    + intros g e Hg Hname He.
      destruct (group_station_char _ _ _ _ _ Hg He) as (_ & Hk & ->).
      unfold effOutOf. rewrite Hk, Hname. unfold off, toggleFeeder. simpl.
      rewrite isFeederOut_toggle, String.eqb_refl. fold F. now rewrite Hon.
    + intros g e Hg Hname He.
      destruct (group_station_char _ _ _ _ _ Hg He) as (_ & Hk & ->).
      unfold effOutOf. rewrite Hk, Hname. unfold on, off.
      rewrite toggleFeeder_twice. fold F. now rewrite Hon.
Qed.

Lemma effOut_invariant_and_feeder_round_trip_witness :
  let on := toggleFeeder "F1" (toggleFeeder "F1" sampleState) in
  State.stations on = sampleStations
  /\ (forall g e,
        In g (Aggregate.feeders
                (aggregate codeUnitCompare (State.stations on) (State.feederOut on))) ->
        Group.name g = "F1" -> In e (Group.stations g) ->
        StationE.effOut e = Station.isOut (StationE.s e))
  /\ exists g, In g (Aggregate.feeders (aggregate codeUnitCompare [blankFeederStation] ∅))
               /\ Group.name g = "Unassigned".
Proof.
  destruct (effOut_invariant_and_feeder_round_trip codeUnitCompare sampleState "F1")
    as (_ & _ & _ & _ & _ & Hst & _ & Hrt).
  split; [exact Hst|]. split; [apply Hrt; vm_compute; reflexivity|].
  destruct (effOut_invariant_and_feeder_round_trip codeUnitCompare
              (State.mk [blankFeederStation] ∅) "F1") as (_ & Hall & _).
  destruct (Hall blankFeederStation) as (g & Hg & Hname & _).
  - vm_compute. left. reflexivity.
  - exists g. split; [exact Hg | exact Hname].
Defined.

(** C1 as worded fails in two places. The override is not read at
    [s.feeder] when that is empty: a station with a blank feeder is
    affected by the override of ["Unassigned"], although the map has no
    true entry under its own feeder. And a missing entry does not always
    count as false: on a feeder named like a property every object
    inherits, here ["constructor"], a station that is not out is computed
    as out under the empty map. *)
Lemma effOut_reads_sentinel_for_blank_feeder :
  ~ (forall (stations : list Station.t) (F : gmap string bool) g e,
       In g (Aggregate.feeders (aggregate codeUnitCompare stations F)) ->
       In e (Group.stations g) ->
       StationE.effOut e
       = isFeederOut F (Station.feeder (StationE.s e)) || Station.isOut (StationE.s e))
  /\ ~ (forall (stations : list Station.t) (F : gmap string bool) g e,
          In g (Aggregate.feeders (aggregate codeUnitCompare stations F)) ->
          In e (Group.stations g) ->
          F !! Station.feeder (StationE.s e) = None ->
          StationE.effOut e = Station.isOut (StationE.s e)).
Proof.
  split.
  - intros H.
    specialize (H [blankFeederStation] unassignedOff
                  (Group.mk "Unassigned" [StationE.mk blankFeederStation true] 5 5 0)
                  (StationE.mk blankFeederStation true)).
    assert (E : true = false); [|discriminate E].
    apply H; vm_compute; left; reflexivity.
  - intros H.
    specialize (H [constructorStation] ∅
                  (Group.mk "constructor" [StationE.mk constructorStation true] 5 5 0)
                  (StationE.mk constructorStation true)).
    assert (E : true = false); [|discriminate E].
    apply H; vm_compute; try (left; reflexivity); reflexivity.
Qed.

(** ** Record normalizer *)

Section NormalizerFacts.
Variable StringToNumber : string -> JsNum.
Variable rid : nat -> string.

Lemma normalizeRow_data row n :
  stationData (fst (normalizeRow StringToNumber rid row n)) = rowData StringToNumber row.
Proof. unfold normalizeRow. destruct (nonEmpty (givenId row)); reflexivity. Qed.

Lemma mapRows_data rows n :
  map stationData (fst (mapRows StringToNumber rid rows n))
  = map (rowData StringToNumber) rows.
Proof.
  revert n. induction rows as [|row rows IH]; intros n; simpl; [reflexivity|].
  pose proof (normalizeRow_data row n) as Hrow.
  destruct (normalizeRow StringToNumber rid row n) as [s n1].
  specialize (IH n1). destruct (mapRows StringToNumber rid rows n1) as [ss n2].
  simpl in *. now rewrite Hrow, IH.
Qed.

Lemma filter_map_data {A B C} (f : A -> C) (g : B -> C) (p : A -> bool) (q : B -> bool)
    (P : C -> bool) (la : list A) (lb : list B) :
  (forall a, p a = P (f a)) -> (forall b, q b = P (g b)) ->
  map f la = map g lb ->
  map f (List.filter p la) = map g (List.filter q lb).
Proof.
  intros Hp Hq. revert lb. induction la as [|a la IH]; intros [|b lb] E;
    try discriminate; [reflexivity|].
  simpl in E. injection E as Eab Erest. simpl.
  rewrite Hp, Hq, Eab. destruct (P (g b)); simpl; [rewrite <- Eab; f_equal|]; auto.
Qed.

(** The feeders/bays variant keeps exactly the rows whose resolved name is
    non-empty and whose resolved consumers value is a finite number, in
    input order, each with its resolved fields. *)
Lemma parseRows_keeps_resolved data n :
  map stationData (fst (parseRows StringToNumber rid data n))
  = map (rowData StringToNumber)
      (List.filter (fun row => nonEmpty (resolvedName row)
                               && isFinite (resolvedConsumers StringToNumber row)) data).
Proof.
  unfold parseRows. pose proof (mapRows_data data n) as H.
  destruct (mapRows StringToNumber rid data n) as [mapped n']. simpl in *.
  apply (filter_map_data stationData (rowData StringToNumber) _ _
           (fun d => nonEmpty (snd (fst (fst d))) && isFinite (snd (fst d))));
    [reflexivity | reflexivity | exact H].
Qed.

(** The paginated variants keep the rows whose raw [name] is truthy and
    whose raw [consumers] is a finite number, whatever the aliases hold. *)
Lemma normalizeParsed_keeps_raw data n :
  map stationData (fst (normalizeParsed StringToNumber rid data n))
  = map (rowData StringToNumber) (List.filter (keepRow StringToNumber) data).
Proof. unfold normalizeParsed. apply mapRows_data. Qed.

Lemma import_of_nothing n :
  parseRows StringToNumber rid [] n = ([], n)
  /\ normalizeParsed StringToNumber rid [] n = ([], n).
Proof. split; reflexivity. Qed.

End NormalizerFacts.

(** C3, evaluated on the paginated variants' [applyParsedRows]. A row that
    names its station only through the alias [station] resolves to a
    non-empty name and a finite count, yet is dropped, because the filter
    reads the raw [name] before the aliases are resolved; the feeders/bays
    variant, which filters after resolving, keeps it. A row whose name is
    blank passes the same filter and is stored with an empty name. *)
Theorem applyParsedRows_filters_before_resolving :
  nonEmpty (resolvedName aliasRow) = true
  /\ isFinite (resolvedConsumers decimalToNumber aliasRow) = true
  /\ State.stations (fst (applyParsedRows decimalToNumber seqId [aliasRow] 0)) = []
  /\ fst (parseRows decimalToNumber seqId [aliasRow] 0)
     = [Station.mk "id-0" "Unassigned" "S1" (Num 5) false]
  /\ nonEmpty (resolvedName blankNameRow) = false
  /\ State.stations (fst (applyParsedRows decimalToNumber seqId [blankNameRow] 0))
     = [Station.mk "id-0" "Unassigned" "" (Num 5) false].
Proof. repeat split; vm_compute; reflexivity. Qed.

(** ** Plain assignments and the initial feeder overrides *)


Lemma assign_writable k v obj : assign k v obj = if writable obj k then <[k := v]> obj else obj.
Proof.
  unfold assign, writable. destruct (obj !! k); [reflexivity|].
  now destruct (String.eqb k "__proto__").
Qed.

Lemma assign_lookup k v obj k' :
  assign k v obj !! k'
  = if String.eqb k k' && writable obj k then Some v else obj !! k'.
Proof.
  rewrite assign_writable. destruct (String.eqb_spec k k') as [->|Hne]; simpl.
  - destruct (writable obj k'); [apply lookup_insert_eq | reflexivity].
  - destruct (writable obj k); [now apply lookup_insert_ne | reflexivity].
Qed.

Lemma writable_assign k v obj k' : writable (assign k v obj) k' = writable obj k'.
Proof.
  unfold writable at 1. rewrite assign_lookup.
  destruct (String.eqb_spec k k') as [->|Hne]; simpl; [|reflexivity].
  destruct (writable obj k') eqn:E; [reflexivity|]. unfold writable in *.
  destruct (obj !! k'); [discriminate E | exact E].
Qed.

(** what a run of assignments of one value leaves under a key *)
Lemma assignAll_lookup {A} (key : A -> string) (v : bool) (xs : list A)
    (obj : gmap string bool) k :
  fold_left (fun next x => assign (key x) v next) xs obj !! k
  = if existsb (fun x => String.eqb (key x) k) xs && writable obj k
    then Some v else obj !! k.
Proof.
  revert obj. induction xs as [|x xs IH]; intros obj; simpl; [reflexivity|].
  rewrite IH, writable_assign, assign_lookup.
  destruct (String.eqb_spec (key x) k) as [->|Hne]; simpl.
  - destruct (writable obj k); simpl; [|now rewrite andb_false_r].
    now destruct (existsb _ xs).
  - reflexivity.
Qed.

Lemma feederFlag_false r : feederFlag r = false.
Proof. reflexivity. Qed.

Lemma initialFeederOut_lookup rows k :
  initialFeederOut rows !! k
  = if existsb (fun r => String.eqb (Station.feeder r) k) rows
       && negb (String.eqb k "__proto__")
    then Some false else None.
Proof.
  unfold initialFeederOut.
  rewrite (assignAll_lookup Station.feeder false rows ∅ k).
  unfold writable. rewrite lookup_empty. reflexivity.
Qed.

(** C6, evaluated. The initial override map is read off the normalized
    records, which carry no [feeder_isOut] property: every feeder present
    is initialized to false, also when its rows say ["true"] in the
    override column. *)
Theorem initialFeederOut_ignores_override_column :
  (forall rows k v, initialFeederOut rows !! k = Some v -> v = false)
  /\ coerceBool (Row.feeder_isOut overrideRow) = true
  /\ State.feederOut (fst (applyParsedRows decimalToNumber seqId [overrideRow] 0)) !! "F1"
     = Some false
  /\ State.feederOut (fst (importCsv decimalToNumber seqId [overrideRow] 0)) !! "F1"
     = Some false.
Proof.
  split.
  - intros rows k v. rewrite initialFeederOut_lookup.
    destruct (_ && _); congruence.
  - repeat split; vm_compute; reflexivity.
Qed.

(** ** Boolean coercion of the outage column *)

Lemma lowerChar_t c :
  lowerChar c = "t"%char <-> c = "t"%char \/ c = "T"%char.
Proof.
  destruct c as [[] [] [] [] [] [] [] []]; vm_compute;
    (split; [intros E; first [discriminate E | auto] | intros [E|E]; first [discriminate E | auto]]).
Qed.

Lemma prefix_char a b r : String.prefix (String a "") (String b r) = true <-> a = b.
Proof.
  cbn [String.prefix]. destruct (ascii_dec a b) as [E|NE].
  - destruct r; cbn; tauto.
  - split; [discriminate|contradiction].
Qed.

Lemma startsWith_lower_t s :
  startsWith (toLowerCase s) "t" = true
  <-> exists c r, s = String c r /\ (c = "t"%char \/ c = "T"%char).
Proof.
  destruct s as [|c r].
  - split; [discriminate | intros (c & r & E & _); discriminate E].
  - unfold startsWith. cbn [toLowerCase]. rewrite prefix_char. split.
    + intros E. exists c, r. split; [reflexivity|]. now apply lowerChar_t.
    + intros (c' & r' & E & Hc). injection E as <- <-.
      symmetry. now apply lowerChar_t.
Qed.

Lemma trimStart_head s c r : trimStart s = String c r -> isWhiteSpace c = false.
Proof.
  induction s as [|d s IH]; simpl; [discriminate|].
  destruct (isWhiteSpace d) eqn:Hd; [exact IH|].
  intros E. injection E as <- _. exact Hd.
Qed.

#[local] Arguments String.append : simpl nomatch.

Lemma append_assoc (a b c : string) : ((a ++ b) ++ c = a ++ (b ++ c))%string.
Proof. induction a as [|x a IH]; simpl; [reflexivity|]. now rewrite IH. Qed.

Lemma append_nil_r (s : string) : (s ++ "")%string = s.
Proof. induction s as [|c s IH]; simpl; [reflexivity|]. now rewrite IH. Qed.

Lemma revString_acc s acc : revString s acc = (revString s "" ++ acc)%string.
Proof.
  revert acc. induction s as [|c s IH]; intros acc; simpl; [reflexivity|].
  rewrite (IH (String c acc)), (IH (String c "")).
  now rewrite append_assoc.
Qed.

Lemma revString_app a b acc :
  revString (a ++ b)%string acc = revString b (revString a acc).
Proof. revert acc. induction a as [|c a IH]; intros acc; simpl; auto. Qed.

Lemma revString_rev s a b :
  revString (revString s a) b = revString a (s ++ b)%string.
Proof.
  revert a. induction s as [|c s IH]; intros a; simpl; [reflexivity|].
  rewrite (IH (String c a)). reflexivity.
Qed.

Lemma revString_involutive s : revString (revString s "") "" = s.
Proof. rewrite revString_rev. simpl. apply append_nil_r. Qed.

Lemma trimStart_keeps_last w c :
  isWhiteSpace c = false ->
  exists w', trimStart (w ++ String c "")%string = (w' ++ String c "")%string.
Proof.
  intros Hc. induction w as [|d w IH]; simpl.
  - rewrite Hc. now exists "".
  - destruct (isWhiteSpace d); [exact IH|]. now exists (String d w).
Qed.

Lemma trimEnd_head c r :
  isWhiteSpace c = false -> exists r', trimEnd (String c r) = String c r'.
Proof.
  intros Hc. unfold trimEnd. simpl. rewrite (revString_acc r (String c "")).
  destruct (trimStart_keeps_last (revString r "") c Hc) as [w' ->].
  rewrite revString_app. simpl. eauto.
Qed.

Lemma trim_head s c :
  (exists r, trim s = String c r) <-> (exists r, trimStart s = String c r).
Proof.
  unfold trim. destruct (trimStart s) as [|d u] eqn:E.
  - split; intros [r H]; discriminate H.
  - pose proof (trimStart_head _ _ _ E) as Hd.
    destruct (trimEnd_head d u Hd) as [r' ->].
    split; intros [r H]; injection H as -> _; eauto.
Qed.

Lemma coerceBool_true v : coerceBool v = true <-> startsWithT (ToString v).
Proof.
  unfold coerceBool, startsWithT. rewrite startsWith_lower_t. split.
  - intros (c & r & E & Hc). destruct (proj1 (trim_head _ c) (ex_intro _ r E)) as [r' E'].
    eauto.
  - intros (c & r & E & Hc). destruct (proj2 (trim_head _ c) (ex_intro _ r E)) as [r' E'].
    eauto.
Qed.

(** *** The text of a number never starts with a letter *)

Lemma plainChar_spec c :
  plainChar c = true -> isWhiteSpace c = false /\ c <> "t"%char /\ c <> "T"%char.
Proof.
  destruct c as [[] [] [] [] [] [] [] []]; vm_compute; intros H;
    first [discriminate H | repeat split; discriminate].
Qed.

Lemma plainStart_head s : plainStart s = true -> plainHead s = true.
Proof. now destruct s. Qed.

Lemma plainStart_app a b : plainStart a = true -> plainStart (a ++ b) = true.
Proof. destruct a; [discriminate | simpl; auto]. Qed.

Lemma plainHead_app a b :
  plainHead a = true -> plainStart b = true -> plainStart (a ++ b) = true.
Proof. destruct a; simpl; auto. Qed.

Lemma plainHead_app_weak a b :
  plainHead a = true -> plainHead b = true -> plainHead (a ++ b) = true.
Proof. destruct a; simpl; auto. Qed.

Lemma plainHead_prefix a z : plainHead (a ++ z) = true -> plainHead a = true.
Proof. destruct a; simpl; auto. Qed.

Lemma plainHead_substring n D : plainHead D = true -> plainHead (substring 0 n D) = true.
Proof. destruct n, D; simpl; auto. Qed.

Lemma plainHead_zeros n : plainHead (zeros n) = true.
Proof. destruct n; reflexivity. Qed.

Lemma showZ_plain z : plainStart (showZ z) = true.
Proof.
  unfold showZ. destruct (Z.to_int z) as [d|d]; [|reflexivity].
  destruct d; reflexivity.
Qed.

Lemma dropZeros_suffix t : exists z, t = (z ++ dropZeros t)%string.
Proof.
  induction t as [|c t [z IH]]; [now exists ""|].
  cbn [dropZeros]. destruct (Ascii.eqb_spec c "0") as [->|Hne].
  - exists (String "0" z). simpl. now rewrite <- IH.
  - exists "". simpl.
    destruct c as [[] [] [] [] [] [] [] []]; try reflexivity. contradiction.
Qed.

Lemma stripTrailingZeros_prefix s : exists z, s = (stripTrailingZeros s ++ z)%string.
Proof.
  unfold stripTrailingZeros. destruct (dropZeros_suffix (revString s "")) as [z Hz].
  exists (revString z "").
  rewrite <- (revString_involutive s) at 1. rewrite Hz at 1.
  rewrite revString_app. apply revString_acc.
Qed.

Lemma positiveToString_plain x : plainHead (positiveToString x) = true.
Proof.
  unfold positiveToString.
  destruct (shortestDigits 17 x (ilog10 x + 1) 1) as [s e].
  assert (HD : plainHead (stripTrailingZeros (showZ s)) = true).
  { destruct (stripTrailingZeros_prefix (showZ s)) as [z Hz].
    apply (plainHead_prefix _ z). rewrite <- Hz. apply plainStart_head, showZ_plain. }
  set (D := stripTrailingZeros (showZ s)) in *.
  set (n := Z.of_nat (String.length (showZ s)) + e).
  destruct (_ && _); [apply plainHead_app_weak; [exact HD | apply plainHead_zeros]|].
  destruct (_ && _).
  { apply plainStart_head, plainHead_app; [now apply plainHead_substring | reflexivity]. }
  destruct (_ && _); [reflexivity|].
  apply plainStart_head, plainStart_app.
  destruct D as [|c r]; [reflexivity|].
  destruct (Z.of_nat (String.length (String c r)) =? 1); [exact HD|].
  exact HD.
Qed.

Lemma NumberToString_plain x : plainHead (NumberToString x) = true.
Proof.
  unfold NumberToString. destruct (Qeq_bool x 0); [reflexivity|].
  destruct (Qle_bool 0 x); [apply positiveToString_plain | reflexivity].
Qed.

Lemma coerceBool_plain v : plainHead (ToString v) = true -> coerceBool v = false.
Proof.
  intros H. destruct (coerceBool v) eqn:E; [|reflexivity].
  apply coerceBool_true in E. destruct E as (c & r & E & Hc).
  destruct (ToString v) as [|d u]; [discriminate E|].
  simpl in H. destruct (plainChar_spec d H) as (Hw & Ht & HT).
  simpl in E. rewrite Hw in E. injection E as -> _. tauto.
Qed.

Lemma coerceBool_number x : coerceBool (JNumber x) = false.
Proof. apply coerceBool_plain. apply NumberToString_plain. Qed.

Lemma coerceBool_bool b : coerceBool (JBool b) = b.
Proof. now destruct b. Qed.

Lemma normalizeRow_isOut StringToNumber rid row n :
  Station.isOut (fst (normalizeRow StringToNumber rid row n))
  = coerceBool (Row.isOut row ?? Row.outage row ?? JString "false").
Proof. unfold normalizeRow. destruct (nonEmpty (givenId row)); reflexivity. Qed.

(** C7. The normalized [isOut] of a row is decided by the [isOut] cell, by
    the [outage] cell when [isOut] is missing, and is false when both are
    missing. A text decides true exactly when its first character after
    the leading white space is [t] or [T]; a boolean decides as itself; a
    number decides false. So ["true"], ["T"] and ["TRUE"] give true, and
    ["1"] gives false, as do ["false"], ["yes"] and the number 1. *)
Theorem isOut_true_iff_starts_with_t (StringToNumber : string -> JsNum)
    (rid : nat -> string) (row : Row.t) (n : nat) :
  let isOut := Station.isOut (fst (normalizeRow StringToNumber rid row n)) in
  let decides (v : JsVal) :=
    (forall s, v = JString s -> (isOut = true <-> startsWithT s))
    /\ (forall b, v = JBool b -> isOut = b)
    /\ (forall x, v = JNumber x -> isOut = false) in
  let isOutOf (r : Row.t) := Station.isOut (fst (normalizeRow StringToNumber rid r n)) in
  decides (Row.isOut row)
  /\ (missing (Row.isOut row) -> decides (Row.outage row))
  /\ (missing (Row.isOut row) -> missing (Row.outage row) -> isOut = false)
  /\ isOutOf (outageRow (JString "true") JUndefined) = true
  /\ isOutOf (outageRow (JString "T") JUndefined) = true
  /\ isOutOf (outageRow (JString "TRUE") JUndefined) = true
  /\ isOutOf (outageRow (JString "1") JUndefined) = false
  /\ isOutOf (outageRow (JString "false") (JString "true")) = false
  /\ isOutOf (outageRow (JString "yes") JUndefined) = false
  /\ isOutOf (outageRow (JNumber 1) JUndefined) = false
  /\ isOutOf (outageRow JNull (JString " True")) = true.
Proof.
  intros isOut decides isOutOf.
  assert (E : isOut = coerceBool (Row.isOut row ?? Row.outage row ?? JString "false"))
    by apply normalizeRow_isOut.
  assert (D : forall v, isOut = coerceBool v -> decides v).
  { intros v Ev. unfold decides. rewrite Ev. split; [|split].
    - intros s ->. apply coerceBool_true.
    - intros b ->. apply coerceBool_bool.
    - intros x ->. apply coerceBool_number. }
  split; [|split; [|split]].
  - destruct (Row.isOut row) eqn:Ei; try (apply D; rewrite E; reflexivity);
      (repeat split; intros; discriminate).
  - intros [Hm|Hm]; rewrite Hm in E;
      (destruct (Row.outage row) eqn:Eo; try (apply D; rewrite E; reflexivity);
       (repeat split; intros; discriminate)).
  - intros [Hi|Hi] [Ho|Ho]; rewrite E, Hi, Ho; reflexivity.
  - unfold isOutOf. rewrite !normalizeRow_isOut. repeat split; vm_compute; reflexivity.
Qed.

Lemma isOut_true_iff_starts_with_t_witness :
  Station.isOut (fst (normalizeRow decimalToNumber seqId paddedTrueRow 0)) = true
  /\ Station.isOut (fst (normalizeRow decimalToNumber seqId
                           (outageRow JUndefined (JBool true)) 0)) = true.
Proof.
  split.
  - destruct (isOut_true_iff_starts_with_t decimalToNumber seqId paddedTrueRow 0)
      as ((H & _) & _).
    apply (H "  True"); [reflexivity|].
    exists "T"%char, "rue". split; [reflexivity | right; reflexivity].
  - destruct (isOut_true_iff_starts_with_t decimalToNumber seqId
                (outageRow JUndefined (JBool true)) 0) as (_ & H & _).
    destruct H as (_ & Hb & _); [left; reflexivity|].
    apply (Hb true). reflexivity.
Defined.

(** ** Rounding of the percentage *)

Lemma gtb_true x y : gtb x y = true <-> (y < x)%Q.
Proof.
  unfold gtb. rewrite negb_true_iff. split.
  - intros H. apply Qnot_le_lt. intros L. apply Qle_bool_iff in L. congruence.
  - intros H. destruct (Qle_bool x y) eqn:E; [|reflexivity].
    apply Qle_bool_iff in E. exfalso. exact (Qlt_irrefl _ (Qlt_le_trans _ _ _ H E)).
Qed.

Lemma gtb_false x y : gtb x y = false <-> (x <= y)%Q.
Proof.
  unfold gtb. rewrite negb_false_iff. apply Qle_bool_iff.
Qed.

Lemma Math_round_spec x :
  (inject_Z (Math_round x) - (1 # 2) <= x)%Q /\ (x < inject_Z (Math_round x) + (1 # 2))%Q.
Proof.
  unfold Math_round. pose proof (Qfloor_le (x + (1 # 2))) as H1.
  pose proof (Qlt_floor (x + (1 # 2))) as H2.
  rewrite inject_Z_plus in H2. change (inject_Z 1) with 1%Q in H2. split; lra.
Qed.

Lemma Math_round_mono x y : (x <= y)%Q -> Math_round x <= Math_round y.
Proof. intros H. apply Qfloor_resp_le. lra. Qed.

Lemma Math_round_Z n : Math_round (inject_Z n) = n.
Proof.
  unfold Math_round.
  assert (L : n <= Qfloor (inject_Z n + (1 # 2))).
  { rewrite <- (Qfloor_Z n) at 1. apply Qfloor_resp_le. lra. }
  assert (U : Qfloor (inject_Z n + (1 # 2)) < n + 1).
  { rewrite Zlt_Qlt. eapply Qle_lt_trans; [apply Qfloor_le|]. rewrite inject_Z_plus.
    change (inject_Z 1) with 1%Q. lra. }
  lia.
Qed.

Lemma Qdiv_nonneg a t : (0 <= a)%Q -> (0 < t)%Q -> (0 <= a / t)%Q.
Proof. intros Ha Ht. apply Qle_shift_div_l; [exact Ht | lra]. Qed.

Lemma pctExpr_product_nonneg a t :
  (0 <= a)%Q -> (0 < t)%Q -> (0 <= fmul (fmul (fdiv a t) 100) 10)%Q.
Proof.
  intros Ha Ht.
  assert (H1 : (0 <= fdiv a t)%Q) by (apply round64_nonneg; now apply Qdiv_nonneg).
  assert (H2 : (0 <= fmul (fdiv a t) 100)%Q) by (apply round64_nonneg; lra).
  apply round64_nonneg. lra.
Qed.

(** C4, as the code has it. [pct] is 0 when [total <= 0]; otherwise
    the quotient [affected / total], times 100, times 10, each operation
    rounded to binary64, is rounded to an integer by [Math.round], the
    nearest integer with a tie going towards plus infinity, and divided by
    10 in binary64. For a non-negative [affected] and a positive [total]
    that is the specification's round half away from zero applied to the
    same binary64 product. For 1 of 3 it is 33.3, for 2 of 3 it is 66.7;
    for 23 of 80 it is 28.7, the binary64 product lying just below the
    half that the exact quotient reaches. *)
Theorem pct_rounds_half_up (cmp : string -> string -> Z)
    (stations : list Station.t) (feederOut : gmap string bool) (a t : Q) :
  let T := Aggregate.totals (aggregate cmp stations feederOut) in
  Totals.pct T = pctOf (Totals.affected T) (Totals.total T)
  /\ ((0 < t)%Q ->
      pctOf a t
      = round64 (inject_Z (Math_round
                   (round64 (round64 (round64 (a / t) * 100) * 10))) / 10))
  /\ (forall x, (inject_Z (Math_round x) - (1 # 2) <= x)%Q
                /\ (x < inject_Z (Math_round x) + (1 # 2))%Q)
  /\ ((0 < t)%Q -> (0 <= a)%Q -> pctOf a t = specPct a t)
  /\ ((t <= 0)%Q -> pctOf a t = 0%Q)
  /\ pctOf 1 3 = round64 33.3 /\ NumberToString (pctOf 1 3) = "33.3"
  /\ pctOf 2 3 = round64 66.7 /\ NumberToString (pctOf 2 3) = "66.7"
  /\ pctOf 23 80 = round64 28.7 /\ NumberToString (pctOf 23 80) = "28.7"
  /\ (exactPct 23 80 == 28.8)%Q
  /\ pctOf 0 0 = 0%Q.
Proof.
  intros T. split; [reflexivity|].
  split; [|split; [|split; [|split]]].
  - intros Ht. unfold pctOf. rewrite (proj2 (gtb_true t 0) Ht). reflexivity.
  - apply Math_round_spec.
  - intros Ht Ha. unfold pctOf, specPct, pctExpr, roundHalfAwayFromZero.
    rewrite (proj2 (gtb_true t 0) Ht).
    assert (E : Qeq_bool t 0 = false).
    { destruct (Qeq_bool t 0) eqn:B; [|reflexivity].
      apply Qeq_bool_iff in B. rewrite B in Ht. discriminate Ht. }
    rewrite E.
    rewrite (proj2 (Qle_bool_iff _ _) (pctExpr_product_nonneg a t Ha Ht)). reflexivity.
  - intros Ht. unfold pctOf. now rewrite (proj2 (gtb_false t 0) Ht).
  - repeat split; vm_compute; reflexivity.
Qed.

Lemma pct_rounds_half_up_witness :
  pctOf 1 16 = round64 6.3 /\ pctOf 1 16 = specPct 1 16 /\ pctOf 7 (-2) = 0%Q.
Proof.
  destruct (pct_rounds_half_up codeUnitCompare [] ∅ 1 16) as (_ & H1 & _ & H2 & _).
  destruct (pct_rounds_half_up codeUnitCompare [] ∅ 7 (-2)) as (_ & _ & _ & _ & H3 & _).
  split; [|split].
  - rewrite H1; [vm_compute; reflexivity | reflexivity].
  - apply H2; [reflexivity | discriminate].
  - apply H3. discriminate.
Defined.

(** C4 as worded fails in three places. On a negative tie: a station of -1
    consumers that is out, next to one of 17 that is not, gives affected -1
    of total 16, where the code answers -6.2 and round half away from zero
    -6.3. On the exact quotient: 23 of 80 is 28.75, which rounds half away
    from zero to 28.8, and the code answers 28.7. On a negative total: the
    code answers 0 for -5 of -5. *)
Lemma pct_differs_from_half_away_from_zero :
  ~ (forall (stations : list Station.t) (F : gmap string bool),
       let T := Aggregate.totals (aggregate codeUnitCompare stations F) in
       Totals.pct T = specPct (Totals.affected T) (Totals.total T))
  /\ ~ (forall a t : Q, (0 <= a)%Q -> (0 < t)%Q -> pctOf a t = round64 (exactPct a t))
  /\ ~ (forall a t : Q, ~ (t == 0)%Q -> pctOf a t = specPct a t)
  /\ (let T := Aggregate.totals (aggregate codeUnitCompare negativeStations ∅) in
      Totals.affected T = (-1)%Q /\ Totals.total T = 16%Q
      /\ Totals.pct T = round64 (-6.2)
      /\ specPct (Totals.affected T) (Totals.total T) = round64 (-6.3)).
Proof.
  split; [|split; [|split]].
  - intros H. specialize (H negativeStations ∅). vm_compute in H. discriminate H.
  - intros H. specialize (H 23%Q 80%Q ltac:(discriminate) ltac:(reflexivity)).
    vm_compute in H. discriminate H.
  - intros H. specialize (H (-5)%Q (-5)%Q ltac:(discriminate)).
    vm_compute in H. discriminate H.
  - repeat split; vm_compute; reflexivity.
Qed.

(** ** Pagination *)

Lemma totalPages_ge_1 len pageSize : 1 <= totalPages len pageSize.
Proof. unfold totalPages. lia. Qed.

(** C5. When the filtered row count or the page size differs from that of
    the previous render and the current page exceeds the new page count,
    the page after the commit is 1: a page that exists, and that shows the
    first rows of the filtered list. *)
Theorem page_resets_to_first {A : Type} (prev : Z * Z) (rows : list A)
    (pageSize page : Z) :
  let len := Z.of_nat (length rows) in
  (fst prev <> len \/ snd prev <> pageSize) ->
  totalPages len pageSize < page ->
  commitPage prev (len, pageSize) page = 1
  /\ 1 <= totalPages len pageSize
  /\ pageRows rows (commitPage prev (len, pageSize) page) pageSize
     = firstn (Z.to_nat pageSize) rows.
Proof.
  intros len Hdeps Hpage.
  assert (E1 : commitPage prev (len, pageSize) page = 1).
  { unfold commitPage, depsChanged, pageResetEffect. simpl.
    assert (E : (fst prev =? len) && (snd prev =? pageSize) = false).
    { apply andb_false_iff. destruct Hdeps as [H|H]; [left|right]; now apply Z.eqb_neq. }
    rewrite E. simpl.
    destruct (Z.ltb_spec (totalPages len pageSize) page); [reflexivity|lia]. }
  split; [exact E1|]. split; [apply totalPages_ge_1|].
  rewrite E1. unfold pageRows. reflexivity.
Qed.

Lemma page_resets_to_first_witness :
  totalPages 120 50 = 3 /\ totalPages 10 50 = 1
  /\ commitPage (120, 50) (10, 50) 3 = 1.
Proof.
  split; [reflexivity|]. split; [reflexivity|].
  apply (page_resets_to_first (120, 50) (repeat tt 10) 50 3);
    [left; simpl; lia | vm_compute; reflexivity].
Defined.

Lemma page_in_range_stays prev cur page :
  page <= totalPages (fst cur) (snd cur) -> commitPage prev cur page = page.
Proof.
  intros H. unfold commitPage, pageResetEffect.
  destruct (depsChanged prev cur); [|reflexivity].
  destruct (Z.ltb_spec (totalPages (fst cur) (snd cur)) page); [lia|reflexivity].
Qed.

(** ** Viewer mode *)

(** C10. In viewer mode both toggles return the state they were given:
    the station list and the override map are unchanged, for every feeder
    name and every station id, and so is the aggregation computed from
    them. Outside viewer mode they are the toggles of the other variants,
    which do flip the stored flags. *)
Theorem viewer_toggles_are_noops (cmp : string -> string -> Z)
    (name id : string) (st : State.t) :
  ViewerAdmin.toggleFeeder true name st = st
  /\ ViewerAdmin.toggleStation true id st = st
  /\ State.stations (ViewerAdmin.toggleStation true id
                       (ViewerAdmin.toggleFeeder true name st)) = State.stations st
  /\ State.feederOut (ViewerAdmin.toggleStation true id
                        (ViewerAdmin.toggleFeeder true name st)) = State.feederOut st
  /\ (let st' := ViewerAdmin.toggleFeeder true name st in
      aggregate cmp (State.stations st') (State.feederOut st')
      = aggregate cmp (State.stations st) (State.feederOut st))
  /\ isFeederOut (State.feederOut (ViewerAdmin.toggleFeeder false name st)) name
     = negb (isFeederOut (State.feederOut st) name)
  /\ State.stations (ViewerAdmin.toggleStation false id st)
     = map (flipStation id) (State.stations st).
Proof.
  repeat split.
  unfold ViewerAdmin.toggleFeeder, toggleFeeder. simpl.
  now rewrite isFeederOut_toggle, String.eqb_refl.
Qed.

(** ** Snapshot publish *)

Lemma truthyField_given y : ~ (y == 0)%Q -> truthyField (Given y) = true.
Proof.
  intros H. simpl. destruct (Qeq_bool y 0) eqn:E; [|reflexivity].
  apply Qeq_bool_iff in E. contradiction.
Qed.

Lemma truthyField_false (f : Field Q) :
  (forall y, f = Given y -> (y == 0)%Q) -> truthyField f = false.
Proof.
  intros H. destruct f as [| |y]; try reflexivity.
  simpl. now rewrite (proj2 (Qeq_bool_iff y 0) (H y eq_refl)).
Qed.

Lemma Math_max_0 d :
  ((0 <= d)%Q -> Math_max 0 d = d) /\ ((d < 0)%Q -> Math_max 0 d = 0%Q).
Proof.
  unfold Math_max. split; intros H.
  - now rewrite (proj2 (Qle_bool_iff 0 d) H).
  - destruct (Qle_bool 0 d) eqn:E; [|reflexivity].
    apply Qle_bool_iff in E. exfalso. exact (Qlt_irrefl _ (Qlt_le_trans _ _ _ H E)).
Qed.

Lemma pctExpr_pctOf x y : (0 < y)%Q -> pctExpr x y = pctOf x y.
Proof. intros H. unfold pctOf. now rewrite (proj2 (gtb_true y 0) H). Qed.

(** C8, as the code has it. A body that reads as a record is answered 200
    and its payload stored under the one key, stamped with the current
    time, no other key being touched. Every property of the body that is a
    number is stored as given. A property that is absent or [null] is
    filled: [affected], [total], [subsOff] and [subsOn] with 0; [healthy]
    with [max(0, total - affected)]; [subsTotal] with [subsOff + subsOn];
    [pct] with [Math.round(affected/total*100*10)/10] when the body's
    [total] is a number other than 0, which is the aggregation engine's
    [pct] when [total > 0] and is [NaN] when [affected] is absent, and
    with 0 otherwise; [offPct] likewise from the body's [subsOff] and
    [subsTotal]. A body that fails to read is answered 400 and the store is
    left as it was; so it is by an OPTIONS request. *)
Theorem publish_fills_and_stores (now : string) (body : Body.t)
    (store : gmap string Payload.t) :
  let p := makePayload now body in
  let num (f : Field Q) := match f with Given x => x | _ => 0%Q end in
  let derives (given top bottom : Field Q) (stored : JsPct) :=
    (forall q, given = Given q -> stored = Pct q)
    /\ ((forall q, given <> Given q) ->
        (forall x y, bottom = Given y -> ~ (y == 0)%Q -> top = Given x ->
           stored = Pct (pctExpr x y))
        /\ (forall x y, bottom = Given y -> (0 < y)%Q -> top = Given x ->
              stored = Pct (pctOf x y))
        /\ (forall y, bottom = Given y -> ~ (y == 0)%Q -> top = Null ->
              stored = Pct (pctExpr 0 y))
        /\ (forall y, bottom = Given y -> ~ (y == 0)%Q -> top = Absent ->
              stored = PctNaN)
        /\ ((forall y, bottom = Given y -> (y == 0)%Q) -> stored = Pct 0)) in
  let a := num (Body.affected body) in
  let t := num (Body.total body) in
  publish now (POST (Some body)) store
    = (<["current" := p]> store, Response.mk 200 "OK")
  /\ fst (publish now (POST (Some body)) store) !! "current" = Some p
  /\ (forall k, k <> "current" ->
        fst (publish now (POST (Some body)) store) !! k = store !! k)
  /\ Payload.updatedAt p = Some now
  /\ Payload.affected p = a
  /\ Payload.total p = t
  /\ Payload.subsOff p = num (Body.subsOff body)
  /\ Payload.subsOn p = num (Body.subsOn body)
  /\ (forall h, Body.healthy body = Given h -> Payload.healthy p = h)
  /\ ((forall h, Body.healthy body <> Given h) ->
      ((0 <= round64 (t - a))%Q -> Payload.healthy p = round64 (t - a))
      /\ ((round64 (t - a) < 0)%Q -> Payload.healthy p = 0%Q))
  /\ (forall n, Body.subsTotal body = Given n -> Payload.subsTotal p = n)
  /\ ((forall n, Body.subsTotal body <> Given n) ->
      Payload.subsTotal p
      = round64 (num (Body.subsOff body) + num (Body.subsOn body)))
  /\ derives (Body.pct body) (Body.affected body) (Body.total body) (Payload.pct p)
  /\ derives (Body.offPct body) (Body.subsOff body) (Body.subsTotal body)
             (Payload.offPct p)
  /\ publish now (POST None) store = (store, Response.mk 400 "Bad Request")
  /\ publish now OPTIONS store = (store, Response.mk 200 "").
Proof.
  intros p num derives a t.
  assert (Hnum : forall f, orElse f 0%Q = num f) by (intros [| |x]; reflexivity).
  assert (Hder : forall given top bottom,
             derives given top bottom
               (match given with
                | Given q => Pct q
                | _ => derivedPct top bottom
                end)).
  { intros given top bottom. split.
    - intros q ->. reflexivity.
    - intros Hg.
      assert (E : match given with Given q => Pct q | _ => derivedPct top bottom end
                  = derivedPct top bottom).
      { destruct given as [| |q]; try reflexivity. exfalso. now apply (Hg q). }
      rewrite E. unfold derivedPct. split; [|split; [|split; [|split]]].
      + intros x y -> Hy ->. now rewrite truthyField_given.
      + intros x y -> Hy ->. rewrite truthyField_given by now apply nonzero_of_pos.
        simpl. now rewrite pctExpr_pctOf.
      + intros y -> Hy ->. now rewrite truthyField_given.
      + intros y -> Hy ->. now rewrite truthyField_given.
      + intros H0. now rewrite truthyField_false. }
  split; [reflexivity|]. split; [simpl; apply lookup_insert_eq|].
  split; [intros k Hk; simpl; now apply lookup_insert_ne|].
  split; [reflexivity|].
  split; [apply Hnum|]. split; [apply Hnum|]. split; [apply Hnum|]. split; [apply Hnum|].
  split; [intros h H; unfold p, makePayload; cbn [Payload.healthy]; now rewrite H|].
  split.
  { intros Hh.
    assert (E : Payload.healthy p = Math_max 0 (round64 (t - a))).
    { unfold p, makePayload. cbn [Payload.healthy]. rewrite !Hnum.
      destruct (Body.healthy body) as [| |h]; try reflexivity.
      exfalso. now apply (Hh h). }
    rewrite E. apply Math_max_0. }
  split; [intros n H; unfold p, makePayload; cbn [Payload.subsTotal]; now rewrite H|].
  split.
  { intros Hs. unfold p, makePayload. cbn [Payload.subsTotal]. rewrite !Hnum.
    destruct (Body.subsTotal body) as [| |n]; try reflexivity.
    exfalso. now apply (Hs n). }
  split; [apply Hder|]. split; [apply Hder|].
  split; reflexivity.
Qed.

Lemma publish_fills_and_stores_witness :
  let p := makePayload "2025-01-01T00:00:00.000Z" thirdBody in
  let q := makePayload "2025-01-01T00:00:00.000Z" partialBody in
  Payload.healthy p = 2%Q /\ Payload.pct p = Pct (pctOf 1 3) /\ Payload.subsTotal p = 0%Q
  /\ Payload.healthy q = 7%Q /\ Payload.pct q = Pct 50 /\ Payload.subsTotal q = 5%Q
  /\ Payload.offPct q = Pct 0.
Proof.
  destruct (publish_fills_and_stores "2025-01-01T00:00:00.000Z" thirdBody ∅)
    as (_ & _ & _ & _ & _ & _ & _ & _ & _ & Hh & _ & Hs & (_ & Hp) & _).
  destruct (publish_fills_and_stores "2025-01-01T00:00:00.000Z" partialBody ∅)
    as (_ & _ & _ & _ & _ & _ & _ & _ & Hh' & _ & _ & Hs' & (Hp' & _) & (_ & Ho') & _).
  split; [|split; [|split; [|split; [|split; [|split]]]]].
  - apply (proj1 (Hh ltac:(discriminate))). vm_compute. discriminate.
  - apply (proj1 (proj2 (Hp ltac:(discriminate))) 1%Q 3%Q);
      [reflexivity | reflexivity | reflexivity].
  - apply (Hs ltac:(discriminate)).
  - apply (Hh' 7%Q). reflexivity.
  - apply (Hp' 50%Q). reflexivity.
  - rewrite (Hs' ltac:(discriminate)). vm_compute. reflexivity.
  - apply (proj2 (proj2 (proj2 (proj2 (Ho' ltac:(discriminate)))))). discriminate.
Defined.

(** C8 as worded fails in two places. Where [affected] exceeds [total]
    the stored [healthy] is clamped at 0 and is not [total - affected]. And
    the stored [pct] is not always the aggregation engine's: the handler
    tests [total] for truth, the engine for [total > 0], so for -5 of -5
    the handler stores 100 where the engine computes 0. *)
Lemma publish_clamps_healthy :
  ~ (forall now body store p,
       Body.healthy body = Absent ->
       fst (publish now (POST (Some body)) store) !! "current" = Some p ->
       Payload.healthy p = fsub (Payload.total p) (Payload.affected p))
  /\ Payload.healthy (makePayload "" overfullBody) = 0%Q
  /\ fsub (Payload.total (makePayload "" overfullBody))
          (Payload.affected (makePayload "" overfullBody)) = (-2)%Q
  /\ ~ (forall now body store p a t,
          Body.pct body = Absent -> Body.affected body = Given a ->
          Body.total body = Given t ->
          fst (publish now (POST (Some body)) store) !! "current" = Some p ->
          Payload.pct p = Pct (pctOf a t))
  /\ Payload.pct (makePayload "" negativeBody) = Pct 100
  /\ pctOf (-5) (-5) = 0%Q.
Proof.
  split; [|split; [|split; [|split; [|split]]]].
  - intros H.
    specialize (H "" overfullBody ∅ (makePayload "" overfullBody) eq_refl).
    assert (E : Payload.healthy (makePayload "" overfullBody)
                = fsub (Payload.total (makePayload "" overfullBody))
                       (Payload.affected (makePayload "" overfullBody))).
    { apply H. simpl. apply lookup_insert_eq. }
    vm_compute in E. discriminate E.
  - vm_compute. reflexivity.
  - vm_compute. reflexivity.
  - intros H.
    specialize (H "" negativeBody ∅ (makePayload "" negativeBody) (-5)%Q (-5)%Q
                  eq_refl eq_refl eq_refl).
    assert (E : Payload.pct (makePayload "" negativeBody) = Pct (pctOf (-5) (-5))).
    { apply H. simpl. apply lookup_insert_eq. }
    vm_compute in E. discriminate E.
  - vm_compute. reflexivity.
  - vm_compute. reflexivity.
Qed.

(** ** The front-end variants compared *)

Lemma sumConsumers_sumCons l : Dark.sumConsumers l = sumCons l.
Proof. reflexivity. Qed.

Lemma filter_effOut_no_override F l :
  (forall s, In s l -> isFeederOut F (feederOf s) = false) ->
  List.filter (effOutOf F) l = List.filter Station.isOut l.
Proof.
  intros H. apply filter_ext_in. intros s Hs. unfold effOutOf. now rewrite (H s Hs).
Qed.

Lemma totals_without_override cmp l F :
  (forall s, In s l -> isFeederOut F (feederOf s) = false) ->
  Aggregate.totals (aggregate cmp l F) = Dark.totals l.
Proof.
  intros H. rewrite aggregate_totals. unfold Dark.totals.
  change Dark.sumConsumers with sumCons.
  now rewrite sumAffected_filter, (filter_effOut_no_override F l H).
Qed.




(** The two feeder-aware filters order the same rows differently. *)
Lemma filteredRows_order_differs :
  map FlatRow.name (filteredRows codeUnitCompare "" false "ALL" (flatOf crossStations ∅))
  = ["Gamma"; "Zeta"]
  /\ map FlatRow.name (filteredRows200 codeUnitCompare "" false (flatOf crossStations ∅))
     = ["Zeta"; "Gamma"].
Proof. split; vm_compute; reflexivity. Qed.

(** ** Evaluations of the import properties *)

Lemma initialFeederOut_ignores_override_column_witness :
  exists v, initialFeederOut sampleStations !! "F1" = Some v /\ v = false.
Proof.
  exists false. split; [vm_compute; reflexivity|].
  apply (proj1 initialFeederOut_ignores_override_column sampleStations "F1" false).
  vm_compute. reflexivity.
Defined.

(** * Further properties *)

(** ** The groups partition the stations *)

Lemma aggregateStep_keys F a s :
  JsMap.keys (Acc.groups (aggregateStep F a s))
  = if JsMap.has (Acc.groups a) (feederOf s) then JsMap.keys (Acc.groups a)
    else (JsMap.keys (Acc.groups a) ++ [feederOf s])%list.
Proof.
  unfold aggregateStep. simpl. rewrite keys_set.
  destruct (JsMap.has (Acc.groups a) (feederOf s)) eqn:Hhas.
  - now rewrite Hhas.
  - rewrite keys_set, Hhas.
    assert (H : JsMap.has (JsMap.set (Acc.groups a) (feederOf s) (newGroup (feederOf s)))
                          (feederOf s) = true).
    { apply has_keys. rewrite keys_set, Hhas. apply in_or_app. right. now left. }
    now rewrite H.
Qed.

Lemma aggregateLoop_keys_used F l k :
  In k (JsMap.keys (Acc.groups (aggregateLoop F l))) ->
  exists s, In s l /\ feederOf s = k.
Proof.
  unfold aggregateLoop. induction l as [|s l IH] using rev_ind; [simpl; tauto|].
  rewrite fold_left_app. cbn [fold_left]. rewrite aggregateStep_keys.
  intros Hk.
  assert (Hor : In k (JsMap.keys (Acc.groups
                  (fold_left (aggregateStep F) l (Acc.mk [] 0 0)))) \/ k = feederOf s).
  { destruct (JsMap.has _ (feederOf s)); [now left|].
    apply in_app_or in Hk. destruct Hk as [Hk|[Hk|[]]]; auto. }
  destruct Hor as [Hk' | ->].
  - destruct (IH Hk') as (s' & Hs' & E). exists s'. split; [apply in_or_app; auto|exact E].
  - exists s. split; [apply in_or_app; right; now left|reflexivity].
Qed.

Lemma filter_split {A} (p : A -> bool) (l : list A) :
  Permutation (List.filter p l ++ List.filter (fun x => negb (p x)) l) l.
Proof.
  induction l as [|x l IH]; simpl; [reflexivity|].
  destruct (p x); simpl.
  - now constructor.
  - rewrite <- Permutation_middle. now constructor.
Qed.

Lemma flat_map_ext_In {A B} (f g : A -> list B) (l : list A) :
  (forall x, In x l -> f x = g x) -> flat_map f l = flat_map g l.
Proof.
  induction l as [|x l IH]; simpl; intros H; [reflexivity|].
  rewrite (H x (or_introl eq_refl)), IH; [reflexivity|]. intros y Hy. apply H. now right.
Qed.

Lemma members_without k k' l :
  k' <> k ->
  members k' (List.filter (fun s => negb (String.eqb (feederOf s) k)) l) = members k' l.
Proof.
  intros Hne. unfold members. induction l as [|x l IH]; simpl; [reflexivity|].
  destruct (String.eqb_spec (feederOf x) k) as [E|NE]; simpl.
  - destruct (String.eqb_spec (feederOf x) k') as [E'|_]; [congruence|exact IH].
  - now rewrite IH.
Qed.

Lemma members_partition ks l :
  List.NoDup ks -> (forall s, In s l -> In (feederOf s) ks) ->
  Permutation (flat_map (fun k => members k l) ks) l.
Proof.
  revert l. induction ks as [|k ks IH]; intros l Hnd Hcov; simpl.
  - destruct l as [|s l]; [reflexivity|]. destruct (Hcov s (or_introl eq_refl)).
  - inversion Hnd as [|? ? Hnotin Hnd']; subst.
    set (l' := List.filter (fun s => negb (String.eqb (feederOf s) k)) l).
    rewrite (flat_map_ext_In (fun k0 => members k0 l) (fun k0 => members k0 l')).
    + rewrite (IH l' Hnd').
      * apply (filter_split (fun s => String.eqb (feederOf s) k) l).
      * intros s Hs. apply filter_In in Hs. destruct Hs as [Hs Hk].
        destruct (Hcov s Hs) as [E|Hin]; [|exact Hin].
        rewrite <- E, String.eqb_refl in Hk. discriminate Hk.
    + intros k' Hk'. symmetry. apply members_without. intros ->. contradiction.
Qed.

Lemma stations_of_groups F l (m : JsMap.t) :
  (forall k g, In (k, g) m -> g = groupOf F k l) ->
  flat_map Group.stations (map setHealthy (JsMap.values m))
  = map (annotate F) (flat_map (fun k => members k l) (JsMap.keys m)).
Proof.
  induction m as [|[k g] m IH]; simpl; intros H; [reflexivity|].
  rewrite map_app, <- IH by (intros k' g' Hin; apply H; now right).
  now rewrite (H k g (or_introl eq_refl)).
Qed.

Lemma flatRows_se feeders F :
  map FlatRow.se (flatRows feeders F) = flat_map Group.stations feeders.
Proof.
  unfold flatRows. induction feeders as [|f fs IH]; simpl; [reflexivity|].
  rewrite map_app, IH, List.map_map. simpl. now rewrite List.map_id.
Qed.

Lemma aggregate_feeders_perm cmp l F :
  Permutation (Aggregate.feeders (aggregate cmp l F))
              (map setHealthy (JsMap.values (Acc.groups (aggregateLoop F l)))).
Proof. unfold aggregate. simpl. apply sort_perm. Qed.

Lemma group_stations_partition cmp l F :
  Permutation (flat_map Group.stations (Aggregate.feeders (aggregate cmp l F)))
              (map (annotate F) l).
Proof.
  rewrite (aggregate_feeders_perm cmp l F).
  destruct (aggregateLoop_inv F l) as (Hnd & Hgrp & Hkeys & _).
  rewrite (stations_of_groups F l _ Hgrp).
  apply Permutation_map. now apply members_partition.
Qed.

Lemma flatRows_rearrange_the_stations_aux cmp l F :
  let flat := flatRows (Aggregate.feeders (aggregate cmp l F)) F in
  Permutation (map FlatRow.se flat) (map (annotate F) l)
  /\ length flat = length l.
Proof.
  intros flat.
  assert (HP : Permutation (map FlatRow.se flat) (map (annotate F) l)).
  { unfold flat. rewrite flatRows_se. apply group_stations_partition. }
  split; [exact HP|].
  apply Permutation_length in HP. now rewrite !length_map in HP.
Qed.

(** X1. The flat row list built from the aggregation holds every input
    station exactly once (it is a rearrangement of the input, each station
    with the effective flag computed for it), and on every row the
    effective flag is the row's feeder flag or the station's own. *)
Theorem flatRows_rearrange_the_stations (cmp : string -> string -> Z)
    (stations : list Station.t) (feederOut : gmap string bool) :
  let flat := flatRows (Aggregate.feeders (aggregate cmp stations feederOut)) feederOut in
  Permutation (map FlatRow.se flat) (map (annotate feederOut) stations)
  /\ length flat = length stations
  /\ forall r, In r flat ->
       FlatRow.effOut r
       = FlatRow.feederEffOut r || Station.isOut (StationE.s (FlatRow.se r)).
Proof.
  intros flat.
  assert (HP : Permutation (map FlatRow.se flat) (map (annotate feederOut) stations)).
  { unfold flat. rewrite flatRows_se. apply group_stations_partition. }
  split; [exact HP|]. split.
  - apply Permutation_length in HP. now rewrite !length_map in HP.
  - intros r Hr. unfold flat, flatRows in Hr. apply in_flat_map in Hr.
    destruct Hr as (g & Hg & Hr). apply in_map_iff in Hr. destruct Hr as (e & <- & He).
    destruct (group_station_char _ _ _ _ _ Hg He) as (_ & Hk & Heff).
    unfold FlatRow.effOut. simpl. rewrite Heff. unfold effOutOf. now rewrite Hk.
Qed.

Lemma flatRows_rearrange_the_stations_witness :
  let r := FlatRow.mk false (StationE.mk stationA true) in
  FlatRow.effOut r = FlatRow.feederEffOut r || Station.isOut (StationE.s (FlatRow.se r)).
Proof.
  intros r.
  apply (proj2 (proj2 (flatRows_rearrange_the_stations codeUnitCompare sampleStations ∅))).
  vm_compute. left. reflexivity.
Defined.

(** ** Shape of the feeder list *)

Lemma names_of_groups F l (m : JsMap.t) :
  (forall k g, In (k, g) m -> g = groupOf F k l) ->
  map Group.name (map setHealthy (JsMap.values m)) = JsMap.keys m.
Proof.
  induction m as [|[k g] m IH]; simpl; intros H; [reflexivity|].
  rewrite IH by (intros k' g' Hin; apply H; now right).
  now rewrite (H k g (or_introl eq_refl)).
Qed.

Lemma feeder_names_perm cmp l F :
  Permutation (map Group.name (Aggregate.feeders (aggregate cmp l F)))
              (JsMap.keys (Acc.groups (aggregateLoop F l))).
Proof.
  rewrite (aggregate_feeders_perm cmp l F).
  destruct (aggregateLoop_inv F l) as (_ & Hgrp & _).
  now rewrite (names_of_groups F l _ Hgrp).
Qed.



(** X2. The output has one group per feeder key: the group names are
    pairwise distinct, every group holds at least one station and is named
    after the feeder key of an input station, and every input station's
    feeder key names a group. In particular no station gives no group. *)
Theorem one_group_per_feeder_key (cmp : string -> string -> Z)
    (stations : list Station.t) (feederOut : gmap string bool) :
  let feeders := Aggregate.feeders (aggregate cmp stations feederOut) in
  List.NoDup (map Group.name feeders)
  /\ (forall g, In g feeders ->
        Group.stations g <> []
        /\ exists s, In s stations /\ feederOf s = Group.name g)
  /\ (forall s, In s stations -> In (feederOf s) (map Group.name feeders))
  /\ (stations = [] -> feeders = []).
Proof.
  intros feeders.
  destruct (aggregateLoop_inv feederOut stations) as (Hnd & Hgrp & Hkeys & _).
  pose proof (feeder_names_perm cmp stations feederOut) as HP. fold feeders in HP.
  split; [|split; [|split]].
  - eapply Permutation_NoDup; [symmetry; exact HP | exact Hnd].
  - intros g Hg.
    assert (Hk : In (Group.name g) (JsMap.keys (Acc.groups (aggregateLoop feederOut stations)))).
    { eapply Permutation_in; [exact HP|]. now apply in_map. }
    destruct (aggregateLoop_keys_used _ _ _ Hk) as (s & Hs & E).
    split; [|eauto]. apply feeders_char in Hg. rewrite Hg. simpl.
    intros Hnil. apply map_eq_nil in Hnil.
    assert (Hin : In s (members (Group.name g) stations)) by now apply members_In.
    rewrite Hnil in Hin. destruct Hin.
  - intros s Hs. eapply Permutation_in; [symmetry; exact HP|]. now apply Hkeys.
  - intros ->. reflexivity.
Qed.

Lemma one_group_per_feeder_key_witness :
  In "F2" (map Group.name (Aggregate.feeders (aggregate codeUnitCompare sampleStations ∅))).
Proof.
  apply (proj1 (proj2 (proj2 (one_group_per_feeder_key codeUnitCompare sampleStations ∅)))
           stationC).
  vm_compute. right. right. left. reflexivity.
Defined.

Lemma insertSorted_sorted {A} (cmp : A -> A -> Z) x l :
  (forall a b, 0 < cmp a b -> cmp b a <= 0) ->
  Sorted (fun a b => cmp a b <= 0) l ->
  Sorted (fun a b => cmp a b <= 0) (insertSorted cmp x l).
Proof.
  intros Htot. induction l as [|y l IH]; simpl; intros Hs.
  - repeat constructor.
  - destruct (Z.leb_spec (cmp x y) 0) as [Hle|Hgt].
    + constructor; [exact Hs|]. now constructor.
    + inversion Hs as [|? ? Hs' Hhd]; subst. constructor; [now apply IH|].
      destruct l as [|z l]; simpl.
      * constructor. now apply Htot.
      * destruct (cmp x z <=? 0).
        -- constructor. now apply Htot.
        -- inversion Hhd; subst. now constructor.
Qed.

Lemma sort_sorted {A} (cmp : A -> A -> Z) l :
  (forall a b, 0 < cmp a b -> cmp b a <= 0) ->
  Sorted (fun a b => cmp a b <= 0) (sort cmp l).
Proof.
  intros Htot. induction l as [|x l IH]; simpl; [constructor|].
  now apply insertSorted_sorted.
Qed.

Lemma codeUnitCompare_total a b :
  0 < codeUnitCompare a b -> codeUnitCompare b a <= 0.
Proof.
  unfold codeUnitCompare. rewrite (String.compare_antisym a b).
  destruct (String.compare b a); simpl; lia.
Qed.

(** X3. When the comparison never ranks two names both ways (a positive
    [a.localeCompare(b)] means [b.localeCompare(a)] is not positive), the
    feeder groups come out in ascending order of name: no group is followed
    by one whose name compares smaller. *)
Theorem feeders_in_name_order (cmp : string -> string -> Z)
    (stations : list Station.t) (feederOut : gmap string bool) :
  (forall a b, 0 < cmp a b -> cmp b a <= 0) ->
  Sorted (fun g h => cmp (Group.name g) (Group.name h) <= 0)
         (Aggregate.feeders (aggregate cmp stations feederOut)).
Proof.
  intros Htot. unfold aggregate. simpl.
  apply (sort_sorted (fun x y => cmp (Group.name x) (Group.name y))).
  intros a b. apply Htot.
Qed.

Lemma feeders_in_name_order_witness :
  Sorted (fun g h => codeUnitCompare (Group.name g) (Group.name h) <= 0)
         (Aggregate.feeders (aggregate codeUnitCompare sampleStations ∅)).
Proof.
  apply (feeders_in_name_order codeUnitCompare sampleStations ∅).
  exact codeUnitCompare_total.
Defined.

(** ** Sums over the groups, and bounds *)

Lemma sumZ_perm l l' : Permutation l l' -> sumZ l = sumZ l'.
Proof. induction 1; simpl; lia. Qed.

Lemma sumZ_app l l' : sumZ (l ++ l') = sumZ l + sumZ l'.
Proof. induction l as [|x l IH]; simpl; lia. Qed.

Lemma sumZ_sub {A} (f h : A -> Z) (l : list A) :
  sumZ (map (fun x => f x - h x) l) = sumZ (map f l) - sumZ (map h l).
Proof. induction l as [|x l IH]; simpl; lia. Qed.

Lemma sumQ_perm l l' : Permutation l l' -> (sumQ l == sumQ l')%Q.
Proof. induction 1; simpl; lra. Qed.

Lemma sumQ_inject {A} (f : A -> Q) (h : A -> Z) (xs : list A) :
  (forall x, In x xs -> f x = inject_Z (h x)) ->
  (sumQ (map f xs) == inject_Z (sumZ (map h xs)))%Q.
Proof.
  induction xs as [|x xs IH]; intros H; simpl; [reflexivity|].
  rewrite IH by (intros y Hy; apply H; now right).
  rewrite (H x (or_introl eq_refl)), inject_Z_plus. reflexivity.
Qed.

Lemma sumCountZ_perm l l' : Permutation l l' -> sumCountZ l = sumCountZ l'.
Proof. intros H. unfold sumCountZ. apply sumZ_perm. now apply Permutation_map. Qed.

Lemma sumCountZ_app l l' : sumCountZ (l ++ l') = sumCountZ l + sumCountZ l'.
Proof. unfold sumCountZ. now rewrite map_app, sumZ_app. Qed.

Lemma sumCountZ_flat_map {A} (f : A -> list Station.t) (ks : list A) :
  sumCountZ (flat_map f ks) = sumZ (map (fun k => sumCountZ (f k)) ks).
Proof.
  induction ks as [|k ks IH]; simpl; [reflexivity|].
  now rewrite sumCountZ_app, IH.
Qed.

Lemma filter_flat_map {A B} (p : B -> bool) (f : A -> list B) (ks : list A) :
  List.filter p (flat_map f ks) = flat_map (fun k => List.filter p (f k)) ks.
Proof.
  induction ks as [|k ks IH]; simpl; [reflexivity|].
  now rewrite List.filter_app, IH.
Qed.

Lemma filter_perm {A} (p : A -> bool) l l' :
  Permutation l l' -> Permutation (List.filter p l) (List.filter p l').
Proof.
  induction 1; simpl.
  - constructor.
  - destruct (p x); [now constructor | assumption].
  - destruct (p x), (p y); try reflexivity. apply perm_swap.
  - etransitivity; eassumption.
Qed.

(** the figures of a group over whole counts *)
Lemma group_whole_figures cmp l F g :
  Forall wholeCount l -> sumCountZ l <= 2 ^ 53 ->
  In g (Aggregate.feeders (aggregate cmp l F)) ->
  let t := sumCountZ (members (Group.name g) l) in
  let a := sumCountZ (List.filter (effOutOf F) (members (Group.name g) l)) in
  Group.total g = inject_Z t /\ Group.affected g = inject_Z a
  /\ Group.healthy g = inject_Z (t - a).
Proof.
  intros Hw Hb Hg t a. apply feeders_char in Hg.
  assert (Hwm : Forall wholeCount (members (Group.name g) l)) by now apply Forall_members_whole.
  assert (Hbm : sumCountZ (members (Group.name g) l) <= 2 ^ 53).
  { pose proof (sumCountZ_filter (fun s => String.eqb (feederOf s) (Group.name g)) l Hw).
    unfold members. lia. }
  destruct (whole_figures F _ Hwm Hbm) as (_ & Et & Ea & Eh). cbv zeta in Et, Ea, Eh.
  rewrite Hg. cbn [setHealthy groupOf Group.total Group.affected Group.healthy Group.name].
  rewrite Eh, Et, Ea. repeat split; reflexivity.
Qed.

(** X4. Over whole, non-negative consumer counts that add up to at most
    2^53 the group figures add up to the global ones: over the feeder
    groups of the output, the totals sum to [totals.total], the affected
    counts to [totals.affected] and the healthy counts to
    [totals.healthy]. *)
Theorem group_figures_sum_to_totals (cmp : string -> string -> Z)
    (stations : list Station.t) (feederOut : gmap string bool) :
  Forall wholeCount stations -> sumCountZ stations <= 2 ^ 53 ->
  let out := aggregate cmp stations feederOut in
  (sumQ (map Group.total (Aggregate.feeders out)) == Totals.total (Aggregate.totals out))%Q
  /\ (sumQ (map Group.affected (Aggregate.feeders out))
      == Totals.affected (Aggregate.totals out))%Q
  /\ (sumQ (map Group.healthy (Aggregate.feeders out))
      == Totals.healthy (Aggregate.totals out))%Q.
Proof.
  intros Hw Hb out.
  destruct (aggregateLoop_inv feederOut stations) as (Hnd & _ & Hkeys & _).
  pose proof (feeder_names_perm cmp stations feederOut) as HP. fold out in HP.
  pose proof (members_partition _ _ Hnd Hkeys) as Hpart.
  set (tz := fun g : Group.t => sumCountZ (members (Group.name g) stations)).
  set (az := fun g : Group.t =>
               sumCountZ (List.filter (effOutOf feederOut) (members (Group.name g) stations))).
  assert (Hfig : forall g, In g (Aggregate.feeders out) ->
            Group.total g = inject_Z (tz g) /\ Group.affected g = inject_Z (az g)
            /\ Group.healthy g = inject_Z (tz g - az g)).
  { intros g Hg. now apply (group_whole_figures cmp stations feederOut g Hw Hb). }
  assert (T : sumZ (map tz (Aggregate.feeders out)) = sumCountZ stations).
  { unfold tz. rewrite <- (List.map_map Group.name (fun k => sumCountZ (members k stations))).
    rewrite (sumZ_perm _ _ (Permutation_map _ HP)).
    rewrite <- (sumCountZ_flat_map (fun k => members k stations)).
    now apply sumCountZ_perm. }
  assert (A : sumZ (map az (Aggregate.feeders out))
              = sumCountZ (List.filter (effOutOf feederOut) stations)).
  { unfold az.
    rewrite <- (List.map_map Group.name
                  (fun k => sumCountZ (List.filter (effOutOf feederOut) (members k stations)))).
    rewrite (sumZ_perm _ _ (Permutation_map _ HP)).
    rewrite <- (sumCountZ_flat_map
                  (fun k => List.filter (effOutOf feederOut) (members k stations))).
    rewrite <- filter_flat_map. apply sumCountZ_perm. now apply filter_perm. }
  assert (H : sumZ (map (fun g => tz g - az g) (Aggregate.feeders out))
              = sumZ (map tz (Aggregate.feeders out)) - sumZ (map az (Aggregate.feeders out))).
  { apply sumZ_sub. }
  destruct (whole_figures feederOut stations Hw Hb) as (_ & Et & Ea & Eh).
  cbv zeta in Et, Ea, Eh.
  unfold out at 2 4 6. rewrite aggregate_totals.
  cbn [Totals.total Totals.affected Totals.healthy]. rewrite Eh, Et, Ea.
  split; [|split].
  - rewrite (sumQ_inject Group.total tz) by (intros g Hg; apply (Hfig g Hg)).
    now rewrite T.
  - rewrite (sumQ_inject Group.affected az) by (intros g Hg; apply (Hfig g Hg)).
    now rewrite A.
  - rewrite (sumQ_inject Group.healthy (fun g => tz g - az g))
      by (intros g Hg; apply (Hfig g Hg)).
    now rewrite H, T, A.
Qed.

Lemma group_figures_sum_to_totals_witness :
  let out := aggregate codeUnitCompare sampleStations (<["F2" := true]> ∅) in
  (sumQ (map Group.affected (Aggregate.feeders out))
   == Totals.affected (Aggregate.totals out))%Q.
Proof.
  destruct (group_figures_sum_to_totals codeUnitCompare sampleStations (<["F2" := true]> ∅))
    as (_ & H & _).
  - repeat constructor; vm_compute; try reflexivity; discriminate.
  - vm_compute. discriminate.
  - exact H.
Defined.

(** Without the restriction to whole counts the group totals need not add
    up to the global total: the groups and the whole list add in different
    orders. With 0.1 and 0.4 on feeder A and 0.1 on feeder B the total is
    0.6000000000000001 and the group totals are 0.5 and 0.1. *)
Lemma group_totals_drift_on_fractional_counts :
  let out := aggregate codeUnitCompare splitStations ∅ in
  NumberToString (Totals.total (Aggregate.totals out)) = "0.6000000000000001"
  /\ map (fun g => NumberToString (Group.total g)) (Aggregate.feeders out) = ["0.5"; "0.1"]
  /\ ~ (sumQ (map Group.total (Aggregate.feeders out))
        == Totals.total (Aggregate.totals out))%Q.
Proof.
  split; [vm_compute; reflexivity|]. split; [vm_compute; reflexivity|].
  intros H. vm_compute in H. discriminate H.
Qed.



Lemma small_Z z : Z.abs z <= 1000 -> Z.abs z <= 2 ^ 53.
Proof. intros H. eapply Z.le_trans; [exact H|]. vm_compute. discriminate. Qed.

Lemma fdiv_unit a t :
  (0 <= a)%Q -> (a <= t)%Q -> (0 < t)%Q -> (0 <= fdiv a t)%Q /\ (fdiv a t <= 1)%Q.
Proof.
  intros Ha Hat Ht. unfold fdiv. split.
  - apply round64_nonneg. now apply Qdiv_nonneg.
  - apply (round64_le_Z _ 1); [now apply small_Z|].
    apply Qle_shift_div_r; [exact Ht|]. change (inject_Z 1) with 1%Q. lra.
Qed.

Lemma tenths_bounds n :
  0 <= n <= 1000 ->
  (0 <= fdiv (inject_Z n) 10)%Q /\ (fdiv (inject_Z n) 10 <= 100)%Q.
Proof.
  intros Hn. unfold fdiv.
  assert (H0 : (0 <= inject_Z n)%Q) by (change 0%Q with (inject_Z 0); rewrite <- Zle_Qle; lia).
  assert (H1 : (inject_Z n <= 1000)%Q)
    by (change 1000%Q with (inject_Z 1000); rewrite <- Zle_Qle; lia).
  split.
  - apply round64_nonneg. apply Qdiv_nonneg; [exact H0 | reflexivity].
  - apply (round64_le_Z _ 100); [now apply small_Z|].
    apply Qle_shift_div_r; [reflexivity|]. change (inject_Z 100) with 100%Q. lra.
Qed.

Lemma Math_round_bounds x m :
  (0 <= x)%Q -> (x <= inject_Z m)%Q -> 0 <= Math_round x <= m.
Proof.
  intros H0 H1. split.
  - rewrite <- (Math_round_Z 0). now apply Math_round_mono.
  - rewrite <- (Math_round_Z m). now apply Math_round_mono.
Qed.





(** ** Substation counts *)

Lemma countOff_from rows a :
  fold_left (fun off r => if FlatRow.effOut r then off + 1 else off) rows a
  = a + Z.of_nat (length (List.filter FlatRow.effOut rows)).
Proof.
  revert a. induction rows as [|r rows IH]; intros a; simpl; [lia|].
  rewrite IH. destruct (FlatRow.effOut r); simpl; lia.
Qed.

Lemma countOff_length rows :
  countOff rows = Z.of_nat (length (List.filter FlatRow.effOut rows)).
Proof. unfold countOff. now rewrite countOff_from. Qed.

Lemma filter_length_perm {A} (p : A -> bool) l l' :
  Permutation l l' -> length (List.filter p l) = length (List.filter p l').
Proof. intros H. apply Permutation_length. now apply filter_perm. Qed.

Lemma filter_map_length {A B} (f : A -> B) (p : B -> bool) l :
  length (List.filter p (map f l)) = length (List.filter (fun x => p (f x)) l).
Proof.
  induction l as [|x l IH]; simpl; [reflexivity|].
  destruct (p (f x)); simpl; congruence.
Qed.

(** X6. The substation counts of the viewer/admin variant count the input
    stations: [total] is the number of stations, [off] the number of
    stations whose effective flag is set, [on] the rest, so that
    [off + on = total] and [0 <= off <= total]. *)
Theorem stationCounts_count_the_stations (cmp : string -> string -> Z)
    (stations : list Station.t) (feederOut : gmap string bool) :
  let c := stationCounts
             (flatRows (Aggregate.feeders (aggregate cmp stations feederOut)) feederOut) in
  Counts.total c = Z.of_nat (length stations)
  /\ Counts.off c = Z.of_nat (length (List.filter (effOutOf feederOut) stations))
  /\ Counts.off c + Counts.on c = Counts.total c
  /\ 0 <= Counts.off c <= Counts.total c.
Proof.
  intros c.
  destruct (flatRows_rearrange_the_stations_aux cmp stations feederOut) as [HP Hlen].
  assert (Htot : Counts.total c = Z.of_nat (length stations)).
  { unfold c, stationCounts, countsOf. cbn [Counts.total]. now rewrite Hlen. }
  assert (Hoff : Counts.off c
                 = Z.of_nat (length (List.filter (effOutOf feederOut) stations))).
  { unfold c, stationCounts, countsOf. cbn [Counts.off]. rewrite countOff_length. f_equal.
    unfold FlatRow.effOut.
    rewrite <- (filter_map_length FlatRow.se StationE.effOut).
    rewrite (filter_length_perm _ _ _ HP).
    rewrite filter_map_length. reflexivity. }
  split; [exact Htot|]. split; [exact Hoff|].
  split; [unfold c, stationCounts, countsOf; cbn [Counts.total Counts.off Counts.on]; lia|].
  rewrite Hoff, Htot. pose proof (List.filter_length_le (effOutOf feederOut) stations). lia.
Qed.

(** ** The toggles and the all-feeders switch *)




Lemma isFeederOut_swallowed F k : swallowed F k -> isFeederOut F k = true.
Proof. intros [-> H]. unfold isFeederOut. now rewrite H. Qed.







Lemma flipStation_twice id s : flipStation id (flipStation id s) = s.
Proof.
  unfold flipStation. destruct (String.eqb (Station.id s) id) eqn:E; simpl.
  - rewrite E. rewrite negb_involutive. now destruct s.
  - now rewrite E.
Qed.

Lemma flipStation_core id s : stationCore (flipStation id s) = stationCore s.
Proof. unfold flipStation. now destruct (String.eqb (Station.id s) id). Qed.

Lemma act_core cmp st a :
  map stationCore (State.stations (act cmp st a)) = map stationCore (State.stations st).
Proof.
  destruct a; simpl; try reflexivity.
  rewrite List.map_map. apply map_ext. intros s. apply flipStation_core.
Qed.

Lemma sumCons_from_core l l' a :
  map stationCore l = map stationCore l' ->
  fold_left (fun acc s => fadd acc (NumberOr0 (Station.consumers s))) l a
  = fold_left (fun acc s => fadd acc (NumberOr0 (Station.consumers s))) l' a.
Proof.
  revert l' a. induction l as [|x l IH]; intros [|y l'] a E; try discriminate; [reflexivity|].
  simpl in E. injection E as _ _ _ Hc El. simpl. rewrite Hc. now apply IH.
Qed.

Lemma sumCons_core l l' : map stationCore l = map stationCore l' -> sumCons l = sumCons l'.
Proof. apply sumCons_from_core. Qed.

(** X8. Whatever the run of feeder toggles, station toggles and all-feeders
    switches, the stations keep their identifier, feeder, name and
    consumer count, in the same order, and the total of consumers reported
    by the aggregation is that of the start. *)
Theorem actions_keep_the_stations (cmp : string -> string -> Z)
    (acts : list Action) (st : State.t) :
  let st' := run cmp acts st in
  map stationCore (State.stations st') = map stationCore (State.stations st)
  /\ length (State.stations st') = length (State.stations st)
  /\ Totals.total (Aggregate.totals (aggregate cmp (State.stations st') (State.feederOut st')))
     = Totals.total (Aggregate.totals (aggregate cmp (State.stations st) (State.feederOut st))).
Proof.
  intros st'.
  assert (Hcore : map stationCore (State.stations st') = map stationCore (State.stations st)).
  { unfold st', run. clear st'. revert st.
    induction acts as [|a acts IH]; intros st; simpl; [reflexivity|].
    rewrite IH. apply act_core. }
  split; [exact Hcore|]. split.
  - apply (f_equal (@length _)) in Hcore. now rewrite !length_map in Hcore.
  - rewrite !aggregate_totals. simpl. now apply sumCons_core.
Qed.

(** X9. Toggling a station twice restores the state exactly, and a station
    toggle touches neither the override map nor any station with another
    identifier. *)
Theorem toggleStation_is_an_involution (id : string) (st : State.t) :
  toggleStation id (toggleStation id st) = st
  /\ State.feederOut (toggleStation id st) = State.feederOut st
  /\ forall s, In s (State.stations st) -> Station.id s <> id ->
       In s (State.stations (toggleStation id st)).
Proof.
  split; [|split; [reflexivity|]].
  - unfold toggleStation. simpl. destruct st as [l F]. simpl. f_equal.
    rewrite List.map_map. rewrite <- (List.map_id l) at 2. apply map_ext.
    intros s. apply flipStation_twice.
  - intros s Hs Hne. unfold toggleStation. simpl. apply in_map_iff. exists s.
    split; [|exact Hs]. unfold flipStation.
    destruct (String.eqb_spec (Station.id s) id); [contradiction|reflexivity].
Qed.

Lemma toggleStation_is_an_involution_witness :
  In stationB (State.stations (toggleStation "a" sampleState)).
Proof.
  apply (proj2 (proj2 (toggleStation_is_an_involution "a" sampleState)) stationB).
  - vm_compute. right. left. reflexivity.
  - discriminate.
Defined.

Lemma sumCons_flip id l : sumCons (map (flipStation id) l) = sumCons l.
Proof.
  apply sumCons_core. rewrite List.map_map. apply map_ext. intros s. apply flipStation_core.
Qed.

Lemma feederOf_flip id s : feederOf (flipStation id s) = feederOf s.
Proof. unfold flipStation. now destruct (String.eqb (Station.id s) id). Qed.

Lemma sumAffected_flip_from F id l a :
  (forall s, In s l -> Station.id s = id -> isFeederOut F (feederOf s) = true) ->
  fold_left (fun acc s => if effOutOf F s
                          then fadd acc (NumberOr0 (Station.consumers s)) else acc)
            (map (flipStation id) l) a
  = fold_left (fun acc s => if effOutOf F s
                            then fadd acc (NumberOr0 (Station.consumers s)) else acc) l a.
Proof.
  revert a. induction l as [|x l IH]; intros a H; [reflexivity|]. cbn [map fold_left].
  assert (E : effOutOf F (flipStation id x) = effOutOf F x
              /\ NumberOr0 (Station.consumers (flipStation id x))
                 = NumberOr0 (Station.consumers x)).
  { unfold effOutOf. rewrite feederOf_flip. unfold flipStation.
    destruct (String.eqb_spec (Station.id x) id) as [Hid|_]; [|tauto].
    rewrite (H x (or_introl eq_refl) Hid). simpl. tauto. }
  destruct E as [E1 E2]. rewrite E1, E2. apply IH.
  intros s Hs. apply H. now right.
Qed.

Lemma sumAffected_flip F id l :
  (forall s, In s l -> Station.id s = id -> isFeederOut F (feederOf s) = true) ->
  sumAffected F (map (flipStation id) l) = sumAffected F l.
Proof. apply sumAffected_flip_from. Qed.

(** X10. While a feeder is forced off, toggling one of its stations does
    not change any global figure: the totals computed after the toggle are
    those computed before. *)
Theorem station_toggle_under_forced_feeder (cmp : string -> string -> Z)
    (id : string) (st : State.t) :
  (forall s, In s (State.stations st) -> Station.id s = id ->
     isFeederOut (State.feederOut st) (feederOf s) = true) ->
  let st' := toggleStation id st in
  Aggregate.totals (aggregate cmp (State.stations st') (State.feederOut st'))
  = Aggregate.totals (aggregate cmp (State.stations st) (State.feederOut st)).
Proof.
  intros H st'. rewrite !aggregate_totals. unfold st', toggleStation. simpl.
  now rewrite sumCons_flip, sumAffected_flip.
Qed.

Lemma station_toggle_under_forced_feeder_witness :
  let st := State.mk sampleStations (<["F2" := true]> ∅) in
  let st' := toggleStation "c" st in
  Aggregate.totals (aggregate codeUnitCompare (State.stations st') (State.feederOut st'))
  = Aggregate.totals (aggregate codeUnitCompare (State.stations st) (State.feederOut st)).
Proof.
  intros st.
  apply (station_toggle_under_forced_feeder codeUnitCompare "c" st).
  intros s [<-|[<-|[<-|[]]]] E; try discriminate E. reflexivity.
Defined.

(** ** The feeder-less variants *)





(** ** Paging *)

Lemma ceilDiv_spec len ps :
  0 < ps -> len <= ps * ceilDiv len ps < len + ps.
Proof.
  intros Hps. unfold ceilDiv.
  pose proof (Z.mul_div_le (- len) ps Hps).
  pose proof (Z.mul_succ_div_gt (- len) ps Hps). lia.
Qed.

Lemma totalPages_spec len ps :
  0 < ps -> 0 <= len ->
  len <= ps * totalPages len ps
  /\ (0 < len -> ps * (totalPages len ps - 1) < len).
Proof.
  intros Hps Hlen. pose proof (ceilDiv_spec len ps Hps) as Hc. unfold totalPages.
  destruct (Z.max_spec 1 (ceilDiv len ps)) as [[H ->]|[H ->]]; split; nia.
Qed.

(** X12. The pager keeps the page in range: from a page between 1 and the
    page count, each of First, Prev, Next and Last leads to a page between
    1 and the page count; and a commit in which the row count or the page
    size changed leaves a page that was at least 1 between 1 and the new
    page count. *)
Theorem pager_keeps_page_in_range (b : PagerButton) (prev : Z * Z)
    (len pageSize page : Z) :
  let n := totalPages len pageSize in
  (1 <= page <= n -> 1 <= pagerClick b n page <= n)
  /\ (1 <= page -> (fst prev <> len \/ snd prev <> pageSize) ->
      1 <= commitPage prev (len, pageSize) page <= n).
Proof.
  intros n. pose proof (totalPages_ge_1 len pageSize) as Hn. fold n in Hn. split.
  - intros Hp. destruct b; simpl.
    + destruct (page =? 1); lia.
    + destruct (page =? 1); lia.
    + destruct (page =? n); lia.
    + destruct (page =? n); lia.
  - intros Hp Hdeps. unfold commitPage, depsChanged, pageResetEffect. simpl.
    assert (E : (fst prev =? len) && (snd prev =? pageSize) = false).
    { apply andb_false_iff. destruct Hdeps as [H|H]; [left|right]; now apply Z.eqb_neq. }
    rewrite E. simpl. fold n. destruct (Z.ltb_spec n page); lia.
Qed.

Lemma pager_keeps_page_in_range_witness :
  1 <= pagerClick Next (totalPages 120 50) 3 <= totalPages 120 50
  /\ 1 <= commitPage (120, 50) (60, 50) 3 <= totalPages 60 50.
Proof.
  split.
  - apply (proj1 (pager_keeps_page_in_range Next (120, 50) 120 50 3)). vm_compute.
    split; discriminate.
  - apply (proj2 (pager_keeps_page_in_range Next (120, 50) 60 50 3)); [lia|].
    left. simpl. lia.
Defined.

Lemma firstn_plus {A} (a b : nat) (l : list A) :
  firstn (a + b) l = (firstn a l ++ firstn b (skipn a l))%list.
Proof.
  revert l. induction a as [|a IH]; intros l; simpl; [reflexivity|].
  destruct l as [|x l]; simpl; [now rewrite firstn_nil|]. now rewrite IH.
Qed.

Lemma pageRows_chunk {A} (rows : list A) (i : nat) (pageSize : Z) :
  0 <= pageSize ->
  pageRows rows (Z.of_nat (S i)) pageSize
  = firstn (Z.to_nat pageSize) (skipn (i * Z.to_nat pageSize) rows).
Proof.
  intros Hps. unfold pageRows. do 2 f_equal.
  replace (Z.of_nat (S i) - 1) with (Z.of_nat i) by lia.
  rewrite Z2Nat.inj_mul by lia. now rewrite Nat2Z.id.
Qed.

Lemma pagesOf_concat {A} (rows : list A) (pageSize : Z) (k : nat) :
  0 <= pageSize ->
  concat (pagesOf rows pageSize k) = firstn (k * Z.to_nat pageSize) rows.
Proof.
  intros Hps. unfold pagesOf. induction k as [|k IH]; [reflexivity|].
  rewrite seq_S, map_app, concat_app, IH. simpl map. simpl concat.
  rewrite app_nil_r, pageRows_chunk by exact Hps.
  rewrite <- firstn_plus. f_equal. lia.
Qed.

(** X13. The pages cut the filtered rows without loss or overlap: for a
    positive page size, the pages 1 to [totalPages], one after the other,
    are the filtered rows; no page is longer than the page size; and when
    there are rows, no page up to [totalPages] is empty. *)
Theorem pages_partition_the_rows {A : Type} (rows : list A) (pageSize : Z) :
  0 < pageSize ->
  let len := Z.of_nat (length rows) in
  let n := totalPages len pageSize in
  concat (pagesOf rows pageSize (Z.to_nat n)) = rows
  /\ (forall page, Z.of_nat (length (pageRows rows page pageSize)) <= pageSize)
  /\ (rows <> [] -> forall page, 1 <= page <= n -> pageRows rows page pageSize <> []).
Proof.
  intros Hps len n.
  assert (Hlen : 0 <= len) by (unfold len; lia).
  destruct (totalPages_spec len pageSize Hps Hlen) as [Hup Hlow]. fold n in Hup, Hlow.
  pose proof (totalPages_ge_1 len pageSize) as Hn. fold n in Hn.
  split; [|split].
  - rewrite pagesOf_concat by lia. apply firstn_all2.
    apply Nat2Z.inj_le. rewrite Nat2Z.inj_mul, !Z2Nat.id by lia. fold len. lia.
  - intros page. unfold pageRows. rewrite length_firstn. lia.
  - intros Hne page Hp Hnil.
    assert (Hpos : 0 < len).
    { unfold len. destruct rows; [contradiction|]. simpl. lia. }
    specialize (Hlow Hpos).
    apply (f_equal (@length _)) in Hnil. unfold pageRows in Hnil.
    rewrite length_firstn, length_skipn in Hnil. simpl in Hnil.
    assert (Hstart : (page - 1) * pageSize < len) by nia.
    assert (Hs : Z.of_nat (Z.to_nat ((page - 1) * pageSize)) < len).
    { rewrite Z2Nat.id by nia. exact Hstart. }
    unfold len in Hs. lia.
Qed.

Lemma pages_partition_the_rows_witness :
  concat (pagesOf (repeat tt 7) 3 3) = repeat tt 7
  /\ pageRows (repeat tt 7) 3 3 <> [].
Proof.
  destruct (pages_partition_the_rows (repeat tt 7) 3) as (H1 & _ & H3); [lia|].
  split; [exact H1|].
  apply H3; [discriminate | vm_compute; split; discriminate].
Defined.

(** X14. The caption agrees with the rows shown: on a page between 1 and
    [totalPages] of a non-empty row list, with a positive page size, the
    page holds exactly the rows numbered from [showingFrom] to [showingTo],
    that is [showingTo - showingFrom + 1] of them, and [showingTo] never
    exceeds the row count; on an empty list the caption reads 0 to 0. *)
Theorem caption_counts_the_page {A : Type} (rows : list A) (pageSize page : Z) :
  0 < pageSize ->
  let len := Z.of_nat (length rows) in
  1 <= page <= totalPages len pageSize ->
  (rows <> [] ->
   Z.of_nat (length (pageRows rows page pageSize))
   = showingTo len page pageSize - showingFrom len page pageSize + 1
   /\ 1 <= showingFrom len page pageSize <= showingTo len page pageSize
   /\ showingTo len page pageSize <= len)
  /\ (rows = [] -> showingFrom len page pageSize = 0 /\ showingTo len page pageSize = 0).
Proof.
  intros Hps len Hp.
  assert (Hlen : 0 <= len) by (unfold len; lia).
  destruct (totalPages_spec len pageSize Hps Hlen) as [Hup Hlow].
  split.
  - intros Hne.
    assert (Hpos : 0 < len).
    { unfold len. destruct rows; [contradiction|]. simpl. lia. }
    specialize (Hlow Hpos).
    assert (Hstart : (page - 1) * pageSize < len) by nia.
    unfold pageRows, showingFrom, showingTo.
    rewrite length_firstn, length_skipn.
    destruct (Z.eqb_spec len 0); [lia|].
    assert (Hs : Z.of_nat (Z.to_nat ((page - 1) * pageSize)) = (page - 1) * pageSize)
      by (apply Z2Nat.id; nia).
    fold len. nia.
  - intros ->. unfold showingFrom, showingTo, len. simpl.
    split; [reflexivity|]. apply Z.min_r. nia.
Qed.

Lemma caption_counts_the_page_witness :
  Z.of_nat (length (pageRows (repeat tt 120) 3 50))
  = showingTo 120 3 50 - showingFrom 120 3 50 + 1.
Proof.
  destruct (caption_counts_the_page (repeat tt 120) 50 3) as [H _].
  - lia.
  - vm_compute. split; discriminate.
  - apply H. discriminate.
Defined.

(** ** Feeder colours *)

Lemma polyHash_linear s x :
  polyHash s x = x * 31 ^ Z.of_nat (String.length s) + polyHash s 0.
Proof.
  revert x. induction s as [|c s IH]; intros x.
  - simpl. lia.
  - cbn [polyHash String.length]. rewrite (IH (x * 31 + charCodeAt c)), (IH (0 * 31 + charCodeAt c)).
    rewrite Nat2Z.inj_succ, Z.pow_succ_r by lia. ring.
Qed.

Lemma polyHash_mod s x :
  polyHash s (x mod 2 ^ 32) mod 2 ^ 32 = polyHash s x mod 2 ^ 32.
Proof.
  rewrite (polyHash_linear s (x mod 2 ^ 32)), (polyHash_linear s x).
  rewrite Z.add_mod by lia. rewrite Z.mul_mod_idemp_l by lia.
  now rewrite <- Z.add_mod by lia.
Qed.

Lemma hashLoop_polyHash s h :
  0 <= h < 2 ^ 32 -> hashLoop s h = polyHash s h mod 2 ^ 32.
Proof.
  revert h. induction s as [|c s IH]; intros h Hh.
  - simpl. now rewrite Z.mod_small.
  - cbn [hashLoop polyHash]. unfold toUint32. rewrite IH by (apply Z.mod_pos_bound; lia).
    apply polyHash_mod.
Qed.

(** X15. [hashStringToHue] always yields a hue between 0 and 359, the
    running hash never leaves the unsigned 32-bit range, and wrapping at
    every character gives the same result as wrapping once: the hue is the
    base-31 polynomial of the character codes modulo 2^32, modulo 360. *)
Theorem hashStringToHue_is_a_hue (str : string) :
  0 <= hashStringToHue str < 360
  /\ 0 <= hashLoop str 0 < 2 ^ 32
  /\ hashStringToHue str = (polyHash str 0 mod 2 ^ 32) mod 360.
Proof.
  assert (E : hashLoop str 0 = polyHash str 0 mod 2 ^ 32) by (apply hashLoop_polyHash; lia).
  split; [unfold hashStringToHue; apply Z.mod_pos_bound; lia|].
  split; [rewrite E; apply Z.mod_pos_bound; lia|].
  unfold hashStringToHue. now rewrite E.
Qed.

(** ** Legend percentages *)

Lemma legendPct_bounds v t :
  (0 <= v)%Q -> (v <= t)%Q -> (0 < t)%Q ->
  (0 <= legendPct v t)%Q /\ (legendPct v t <= 100)%Q.
Proof.
  intros Hv Hvt Ht. unfold legendPct. rewrite (proj2 (gtb_true t 0) Ht).
  destruct (fdiv_unit v t Hv Hvt Ht) as [Q0 Q1].
  assert (M : (0 <= fmul (fdiv v t) 1000)%Q /\ (fmul (fdiv v t) 1000 <= inject_Z 1000)%Q).
  { unfold fmul. split; [apply round64_nonneg; lra|].
    apply (round64_le_Z _ 1000); [now apply small_Z|]. change (inject_Z 1000) with 1000%Q. lra. }
  destruct M as [M0 M1]. apply tenths_bounds. now apply Math_round_bounds.
Qed.

Lemma fdiv_self t : (0 < t)%Q -> fdiv t t = 1%Q.
Proof.
  intros Ht. unfold fdiv. rewrite (round64_proper (t / t) 1); [reflexivity|].
  apply Qmult_inv_r. now apply nonzero_of_pos.
Qed.

(** X16. The legend chip of the viewer/admin variant shows a percentage
    between 0 and 100 for a value between 0 and a positive total: 100 for
    the whole, 0 for nothing, and 0 as well when the total is not positive.
    It is computed from the quotient times 1000, not times 100 times 10 as
    the centre label is, so the two can differ by a tenth: for 23 of 80 the
    legend shows 28.8 and the centre label 28.7; and 201 and 199 of 400
    show 50.2 and 49.8. *)
Theorem legend_percentage_in_range (value total : Q) :
  ((0 <= value)%Q -> (value <= total)%Q -> (0 < total)%Q ->
   (0 <= legendPct value total)%Q /\ (legendPct value total <= 100)%Q)
  /\ ((0 < total)%Q -> legendPct total total = 100%Q /\ legendPct 0 total = 0%Q)
  /\ ((total <= 0)%Q -> legendPct value total = 0%Q)
  /\ NumberToString (legendPct 23 80) = "28.8"
  /\ NumberToString (pctOf 23 80) = "28.7"
  /\ NumberToString (legendPct 201 400) = "50.2"
  /\ NumberToString (legendPct 199 400) = "49.8".
Proof.
  split; [apply legendPct_bounds|]. split; [|split].
  - intros Ht. unfold legendPct. rewrite (proj2 (gtb_true total 0) Ht). split.
    + rewrite (fdiv_self total Ht). vm_compute. reflexivity.
    + unfold fdiv at 2. rewrite (round64_zero (0 / total)) by (unfold Qdiv; ring).
      vm_compute. reflexivity.
  - intros Ht. unfold legendPct. now rewrite (proj2 (gtb_false total 0) Ht).
  - repeat split; vm_compute; reflexivity.
Qed.

Lemma legend_percentage_in_range_witness :
  (0 <= legendPct 1 16)%Q /\ (legendPct 1 16 <= 100)%Q /\ legendPct 16 16 = 100%Q.
Proof.
  destruct (legend_percentage_in_range 1 16) as (H & _).
  destruct (legend_percentage_in_range 16 16) as (_ & H' & _).
  destruct H as [H0 H1]; [discriminate | discriminate | reflexivity |].
  split; [exact H0|]. split; [exact H1|]. apply H'. reflexivity.
Defined.

(** ** Table rendering with feeder headers *)

Lemma underHeaders_renderFrom last rows :
  underHeaders last (renderFrom last rows)
  = map (fun r => (Some (FlatRow.feeder r), r)) rows.
Proof.
  revert last. induction rows as [|r rows IH]; intros last; simpl; [reflexivity|].
  destruct last as [l|]; simpl.
  - destruct (String.eqb_spec (FlatRow.feeder r) l) as [E|NE]; simpl.
    + rewrite IH, E. reflexivity.
    + now rewrite IH.
  - now rewrite IH.
Qed.

(** X17. The rendered table body keeps the rows: with the header rows left
    out it is the page's rows in their order, every station row stands
    under a header that names that row's own feeder, and there are never
    more headers than station rows. *)
Theorem renderRows_keeps_rows_under_their_feeder (rows : list FlatRow.t) :
  map snd (underHeaders None (renderRows rows)) = rows
  /\ (forall h r, In (h, r) (underHeaders None (renderRows rows)) ->
        h = Some (FlatRow.feeder r))
  /\ (length (renderRows rows) <= 2 * length rows)%nat.
Proof.
  unfold renderRows. rewrite underHeaders_renderFrom. split; [|split].
  - rewrite List.map_map. simpl. apply List.map_id.
  - intros h r Hin. apply in_map_iff in Hin. destruct Hin as (r' & E & _).
    now injection E as <- <-.
  - generalize (@None string). induction rows as [|r rows IH]; intros last; simpl; [lia|].
    destruct (match last with Some l => _ | None => false end); simpl.
    + specialize (IH last). lia.
    + specialize (IH (Some (FlatRow.feeder r))). lia.
Qed.

(** ** Publishing in sequence *)

Lemma serve_current reqs store :
  serve reqs store !! "current" = lastPublished reqs (store !! "current").
Proof.
  unfold serve, lastPublished. revert store.
  induction reqs as [|[now r] reqs IH]; intros store; simpl; [reflexivity|].
  rewrite IH. f_equal. destruct r as [|[body|]]; simpl; [reflexivity| |reflexivity].
  apply lookup_insert_eq.
Qed.

Lemma serve_other reqs store k :
  k <> "current" -> serve reqs store !! k = store !! k.
Proof.
  intros Hk. unfold serve. revert store.
  induction reqs as [|[now r] reqs IH]; intros store; simpl; [reflexivity|].
  rewrite IH. destruct r as [|[body|]]; simpl; try reflexivity.
  now apply lookup_insert_ne.
Qed.

(** X18. After any run of requests the store holds, under its one key, the
    payload of the last well-formed POST of the run, and what it held
    before when there was none: OPTIONS and rejected bodies never write,
    and every publish overwrites the previous snapshot. No other key is
    ever written, and the read endpoint answers with the zero fallback as
    long as nothing is stored. *)
Theorem store_holds_the_last_publish (reqs : list (string * Request))
    (store : gmap string Payload.t) (now : string) (body : Body.t) :
  serve reqs store !! "current" = lastPublished reqs (store !! "current")
  /\ serve (reqs ++ [(now, POST (Some body))]) store !! "current"
     = Some (makePayload now body)
  /\ serve (reqs ++ [(now, POST None)]) store = serve reqs store
  /\ serve (reqs ++ [(now, OPTIONS)]) store = serve reqs store
  /\ (forall k, k <> "current" -> serve reqs store !! k = store !! k)
  /\ (lastPublished reqs (store !! "current") = None ->
      readSnapshot (serve reqs store) = Payload.fallback).
Proof.
  split; [apply serve_current|]. split; [|split; [|split; [|split]]].
  - rewrite serve_current. unfold lastPublished. rewrite fold_left_app. reflexivity.
  - unfold serve. rewrite fold_left_app. reflexivity.
  - unfold serve. rewrite fold_left_app. reflexivity.
  - intros k Hk. now apply serve_other.
  - intros H. unfold readSnapshot. now rewrite serve_current, H.
Qed.

Lemma store_holds_the_last_publish_witness :
  serve [("t1", POST (Some thirdBody)); ("t2", POST None)] ∅ !! "other"
    = (∅ : gmap string Payload.t) !! "other"
  /\ readSnapshot (serve [("t0", OPTIONS); ("t1", POST None)] ∅) = Payload.fallback.
Proof.
  split.
  - apply (proj1 (proj2 (proj2 (proj2 (proj2
             (store_holds_the_last_publish
                [("t1", POST (Some thirdBody)); ("t2", POST None)] ∅ "" thirdBody)))))).
    discriminate.
  - apply (proj2 (proj2 (proj2 (proj2 (proj2
             (store_holds_the_last_publish
                [("t0", OPTIONS); ("t1", POST None)] ∅ "" thirdBody)))))).
    reflexivity.
Defined.

(** ** What an import leaves behind *)









Lemma initialFeederOut_reads rows k :
  isFeederOut (initialFeederOut rows) k
  = if String.eqb k "__proto__" then true
    else if existsb (fun r => String.eqb (Station.feeder r) k) rows then false
    else inherited k.
Proof.
  unfold isFeederOut. rewrite initialFeederOut_lookup.
  destruct (String.eqb_spec k "__proto__") as [->|Hne].
  - rewrite andb_false_r. reflexivity.
  - rewrite andb_true_r. now destruct (existsb _ rows).
Qed.

Lemma initialFeederOut_effOut rows s :
  In s rows ->
  effOutOf (initialFeederOut rows) s
  = String.eqb (Station.feeder s) "__proto__" || Station.isOut s.
Proof.
  intros Hs. unfold effOutOf. rewrite initialFeederOut_reads. f_equal.
  unfold feederOf. destruct (Station.feeder s) as [|c r] eqn:Ef; cbn [nonEmpty].
  - simpl. now destruct (existsb _ rows).
  - destruct (String.eqb (String c r) "__proto__"); [reflexivity|].
    assert (E : existsb (fun r0 => String.eqb (Station.feeder r0) (String c r)) rows = true).
    { apply existsb_exists. exists s. split; [exact Hs|]. rewrite Ef. apply String.eqb_refl. }
    now rewrite E.
Qed.

(** X20. An import switches every feeder on, but one named [__proto__].
    After [importCsv] of the feeders/bays variant and after
    [applyParsedRows] of the paginated ones, whatever the rows, every entry
    of the override map is false, and the map has an entry exactly for the
    feeders of the stored stations other than [__proto__], whose assignment
    is swallowed. Every stored station's effective flag is its own, unless
    its feeder is [__proto__]: such a station is effectively out. When no
    stored station has that feeder, the totals are those of the station
    flags alone. *)
Theorem import_switches_every_feeder_on (cmp : string -> string -> Z)
    (StringToNumber : string -> JsNum) (rid : nat -> string)
    (data : list Row.t) (n : nat) (viaApply : bool) :
  let st := if viaApply then fst (applyParsedRows StringToNumber rid data n)
            else fst (importCsv StringToNumber rid data n) in
  (forall k v, State.feederOut st !! k = Some v -> v = false)
  /\ (forall k, is_Some (State.feederOut st !! k)
                <-> k <> "__proto__"
                    /\ exists s, In s (State.stations st) /\ Station.feeder s = k)
  /\ (forall s, In s (State.stations st) -> Station.feeder s <> "__proto__" ->
        effOutOf (State.feederOut st) s = Station.isOut s)
  /\ (forall s, In s (State.stations st) -> Station.feeder s = "__proto__" ->
        effOutOf (State.feederOut st) s = true)
  /\ ((forall s, In s (State.stations st) -> Station.feeder s <> "__proto__") ->
      Aggregate.totals (aggregate cmp (State.stations st) (State.feederOut st))
      = Dark.totals (State.stations st)).
Proof.
  intros st.
  assert (E : State.feederOut st = initialFeederOut (State.stations st)).
  { unfold st. destruct viaApply.
    - unfold applyParsedRows.
      destruct (normalizeParsed StringToNumber rid data n) as [rows n']. reflexivity.
    - unfold importCsv.
      destruct (parseRows StringToNumber rid data n) as [rows n']. reflexivity. }
  assert (Hown : forall s, In s (State.stations st) -> Station.feeder s <> "__proto__" ->
                   effOutOf (State.feederOut st) s = Station.isOut s).
  { intros s Hs Hne. rewrite E, (initialFeederOut_effOut _ s Hs).
    destruct (String.eqb_spec (Station.feeder s) "__proto__"); [contradiction|reflexivity]. }
  split; [|split; [|split; [|split]]].
  - intros k v. rewrite E, initialFeederOut_lookup. destruct (_ && _); congruence.
  - intros k. rewrite E, initialFeederOut_lookup.
    destruct (existsb _ (State.stations st)) eqn:Hex;
      destruct (String.eqb_spec k "__proto__") as [Ek|Nk]; simpl.
    + split; [intros [x Hx]; discriminate Hx | intros [Hk _]; contradiction].
    + apply existsb_exists in Hex. destruct Hex as (s & Hs & Hk).
      apply String.eqb_eq in Hk. split; [eauto|]. intros _. now exists false.
    + split; [intros [x Hx]; discriminate Hx | intros [Hk _]; contradiction].
    + split; [intros [x Hx]; discriminate Hx|].
      intros (_ & s & Hs & Hk). exfalso.
      assert (Ht : existsb (fun r => String.eqb (Station.feeder r) k) (State.stations st) = true).
      { apply existsb_exists. exists s. split; [exact Hs|]. now apply String.eqb_eq. }
      congruence.
  - exact Hown.
  - intros s Hs Hp. rewrite E, (initialFeederOut_effOut _ s Hs), Hp. reflexivity.
  - intros Hnone. apply totals_without_override. intros s Hs.
    pose proof (Hown s Hs (Hnone s Hs)) as H. unfold effOutOf in H.
    destruct (isFeederOut (State.feederOut st) (feederOf s)) eqn:B; [|reflexivity].
    simpl in H. rewrite E in B. rewrite initialFeederOut_reads in B.
    destruct (String.eqb_spec (feederOf s) "__proto__") as [Ek|Nk].
    + exfalso. apply (Hnone s Hs). unfold feederOf in Ek.
      destruct (Station.feeder s); [discriminate Ek | exact Ek].
    + destruct (existsb _ (State.stations st)) eqn:Hex; [discriminate B|].
      unfold feederOf in *. destruct (Station.feeder s) as [|c r] eqn:Ef; cbn [nonEmpty] in *.
      * discriminate B.
      * exfalso.
        assert (Ht : existsb (fun r0 => String.eqb (Station.feeder r0) (String c r))
                       (State.stations st) = true).
        { apply existsb_exists. exists s. split; [exact Hs|]. rewrite Ef. apply String.eqb_refl. }
        congruence.
Qed.

(** ** The search filter of the feeders/bays variant *)

Lemma flat_map_filter_empty (p : Group.t -> bool) (l : list Group.t) :
  (forall g, In g l -> p g = false -> Group.stations g = []) ->
  flat_map Group.stations (List.filter p l) = flat_map Group.stations l.
Proof.
  induction l as [|g l IH]; simpl; intros H; [reflexivity|].
  rewrite <- IH by (intros g' Hg'; apply H; now right).
  destruct (p g) eqn:E; simpl; [reflexivity|].
  now rewrite (H g (or_introl eq_refl) E).
Qed.

Lemma visible_rows_of_group needle b (f : Group.t) (sts : list StationE.t) :
  (forall e, In e sts -> Station.feeder (StationE.s e) = Group.name f) ->
  map FlatRow.se (List.filter (matchesNeedle needle) (map (FlatRow.mk b) sts))
  = List.filter (visibleStation needle f) sts.
Proof.
  induction sts as [|e sts IH]; simpl; intros H; [reflexivity|].
  rewrite <- IH by (intros e' He'; apply H; now right).
  unfold matchesNeedle at 1, visibleStation at 1, FlatRow.name, FlatRow.feeder. simpl.
  rewrite (H e (or_introl eq_refl)).
  destruct (_ || _); reflexivity.
Qed.

Lemma flatRows_cons f fs F :
  flatRows (f :: fs) F
  = (map (FlatRow.mk (isFeederOut F (Group.name f))) (Group.stations f)
     ++ flatRows fs F)%list.
Proof. reflexivity. Qed.

Lemma visible_rows needle F (feeders : list Group.t) :
  (forall g e, In g feeders -> In e (Group.stations g) ->
     Station.feeder (StationE.s e) = Group.name g) ->
  flat_map Group.stations
    (map (fun f => Group.mk (Group.name f)
                            (List.filter (visibleStation needle f) (Group.stations f))
                            (Group.total f) (Group.affected f) (Group.healthy f))
         feeders)
  = map FlatRow.se (List.filter (matchesNeedle needle) (flatRows feeders F)).
Proof.
  induction feeders as [|f fs IH]; intros Hfeed; [reflexivity|].
  rewrite flatRows_cons, List.filter_app, map_app. cbn [map flat_map Group.stations].
  f_equal.
  - symmetry. apply visible_rows_of_group. intros e He. apply (Hfeed f e); [now left|exact He].
  - apply IH. intros g e Hg He. apply (Hfeed g e); [now right|exact He].
Qed.

(** X21. The search of the feeders/bays variant. An empty needle shows the
    feeders as they are. Otherwise every group shown is a group of the
    input with its name and figures unchanged, so the figures of a group
    stay those of the whole feeder while only matching stations are listed.
    When no station has an empty feeder, the stations shown are, up to
    order, the rows which the paginated variants find for the same needle
    under scope ["ALL"]. *)
Theorem visibleFeeders_lists_the_matches (cmp : string -> string -> Z) (q : string)
    (feeders : list Group.t) (stations : list Station.t) (F : gmap string bool) :
  (nonEmpty (toLowerCase (trim q)) = false -> visibleFeeders q feeders = feeders)
  /\ (forall g', In g' (visibleFeeders q feeders) ->
        exists g, In g feeders
                  /\ Group.name g' = Group.name g /\ Group.total g' = Group.total g
                  /\ Group.affected g' = Group.affected g
                  /\ Group.healthy g' = Group.healthy g
                  /\ forall e, In e (Group.stations g') -> In e (Group.stations g))
  /\ ((forall s, In s stations -> Station.feeder s <> "") ->
      let fs := Aggregate.feeders (aggregate cmp stations F) in
      Permutation (flat_map Group.stations (visibleFeeders q fs))
                  (map FlatRow.se (filteredRows cmp q false "ALL" (flatRows fs F)))).
Proof.
  split; [|split].
  - unfold visibleFeeders. intros ->. reflexivity.
  - unfold visibleFeeders. destruct (nonEmpty (toLowerCase (trim q))); simpl negb; cbv iota.
    + intros g' Hg'. apply filter_In in Hg'. destruct Hg' as [Hg' _].
      apply in_map_iff in Hg'. destruct Hg' as (g & <- & Hg). exists g. simpl.
      repeat split; auto. intros e He. apply filter_In in He. tauto.
    + intros g' Hg'. exists g'. repeat split; auto.
  - intros Hne fs.
    assert (Hfeed : forall g e, In g fs -> In e (Group.stations g) ->
                      Station.feeder (StationE.s e) = Group.name g).
    { intros g e Hg He. destruct (group_station_char _ _ _ _ _ Hg He) as (Hin & Hk & _).
      rewrite <- Hk. unfold feederOf. specialize (Hne _ Hin).
      destruct (Station.feeder (StationE.s e)); [contradiction|reflexivity]. }
    unfold visibleFeeders, filteredRows. simpl negb. cbv iota.
    destruct (nonEmpty (toLowerCase (trim q))); simpl negb; cbv iota; rewrite sort_perm.
    + rewrite flat_map_filter_empty.
      * apply Permutation_refl'. now apply visible_rows.
      * intros g Hg Hp. apply orb_false_iff in Hp. destruct Hp as [Hp _].
        destruct (Group.stations g); [reflexivity|]. simpl in Hp. discriminate Hp.
    + rewrite flatRows_se. reflexivity.
Qed.

Lemma visibleFeeders_lists_the_matches_witness :
  let fs := Aggregate.feeders (aggregate codeUnitCompare sampleStations ∅) in
  Permutation (flat_map Group.stations (visibleFeeders "f2" fs))
              (map FlatRow.se (filteredRows codeUnitCompare "f2" false "ALL" (flatRows fs ∅))).
Proof.
  apply (proj2 (proj2 (visibleFeeders_lists_the_matches
                         codeUnitCompare "f2" [] sampleStations ∅))).
  intros s [<-|[<-|[<-|[]]]]; discriminate.
Defined.

(** ** The filtered rows *)

Lemma sort_by_name_sorted cmp (rows : list FlatRow.t) :
  (forall a b, 0 < cmp a b -> cmp b a <= 0) ->
  Sorted (fun a b => cmp (FlatRow.name a) (FlatRow.name b) <= 0)
         (sort (fun a b => cmp (FlatRow.name a) (FlatRow.name b)) rows).
Proof.
  intros Htot. apply (sort_sorted (fun a b => cmp (FlatRow.name a) (FlatRow.name b))).
  intros a b. apply Htot.
Qed.

(** X22. The filtered rows of the light-simple and viewer/admin variants
    are exactly the matching rows: a row is listed if and only if it is a
    flat row that lies in the selected feeder (or the scope is ["ALL"]),
    contains the needle in its name or feeder (or the needle is empty), and
    is effectively out when only affected rows are asked for; each such
    row is listed as often as it occurs in the flat list. When the
    comparison never ranks two names both ways, the list is in ascending
    order of name. *)
Theorem filteredRows_are_the_matches (cmp : string -> string -> Z) (q : string)
    (affectedOnly : bool) (sel : string) (flat : list FlatRow.t) :
  let needle := toLowerCase (trim q) in
  let keep r :=
    (String.eqb sel "ALL" || String.eqb (FlatRow.feeder r) sel)
    && (negb (nonEmpty needle) || matchesNeedle needle r)
    && (negb affectedOnly || FlatRow.effOut r) in
  Permutation (filteredRows cmp q affectedOnly sel flat) (List.filter keep flat)
  /\ (forall r, In r (filteredRows cmp q affectedOnly sel flat)
                <-> In r flat /\ keep r = true)
  /\ ((forall a b, 0 < cmp a b -> cmp b a <= 0) ->
      Sorted (fun a b => cmp (FlatRow.name a) (FlatRow.name b) <= 0)
             (filteredRows cmp q affectedOnly sel flat)).
Proof.
  intros needle keep.
  assert (E : exists rows,
             filteredRows cmp q affectedOnly sel flat
             = sort (fun a b => cmp (FlatRow.name a) (FlatRow.name b)) rows
             /\ rows = List.filter keep flat).
  { eexists. split; [reflexivity|]. fold needle. unfold keep.
    destruct (String.eqb sel "ALL"), (nonEmpty needle), affectedOnly; simpl;
      induction flat as [|r flat IH]; simpl; try reflexivity;
      repeat (match goal with |- context [if ?b then _ else _] => destruct b eqn:?; simpl end);
      rewrite ?andb_true_r, ?andb_false_r in *; simpl in *;
      try congruence; try (f_equal; exact IH); try exact IH. }
  destruct E as (rows & E1 & E2). rewrite E1. split; [|split].
  - rewrite sort_perm, E2. reflexivity.
  - intros r. rewrite sort_In, E2. apply filter_In.
  - intros Htot. now apply sort_by_name_sorted.
Qed.

Lemma filteredRows_are_the_matches_witness :
  Sorted (fun a b => codeUnitCompare (FlatRow.name a) (FlatRow.name b) <= 0)
         (filteredRows codeUnitCompare "a" true "ALL" (flatOf crossStations ∅)).
Proof.
  apply (proj2 (proj2 (filteredRows_are_the_matches codeUnitCompare "a" true "ALL"
                         (flatOf crossStations ∅)))).
  exact codeUnitCompare_total.
Defined.

Lemma renderRows_keeps_rows_under_their_feeder_witness :
  let r := FlatRow.mk false (StationE.mk stationC false) in
  Some "F2" = Some (FlatRow.feeder r).
Proof.
  intros r.
  apply (proj1 (proj2 (renderRows_keeps_rows_under_their_feeder [r])) (Some "F2") r).
  vm_compute. left. reflexivity.
Defined.

Lemma import_switches_every_feeder_on_witness :
  is_Some (State.feederOut (fst (applyParsedRows decimalToNumber seqId [overrideRow] 0))
             !! "F1")
  /\ effOutOf (State.feederOut (fst (importCsv decimalToNumber seqId
                                       [setName (JString "S") (Row.mk JUndefined (JString "__proto__")
                                          JUndefined JUndefined JUndefined JUndefined JUndefined
                                          (JNumber 5) JUndefined JUndefined JUndefined JUndefined
                                          JUndefined)] 0)))
              (Station.mk "id-0" "__proto__" "S" (Num 5) false) = true.
Proof.
  split.
  - apply (proj2 (proj1 (proj2 (import_switches_every_feeder_on codeUnitCompare decimalToNumber
                           seqId [overrideRow] 0 true)) "F1")).
    split; [discriminate|].
    exists (Station.mk "id-0" "F1" "S1" (Num 1) false). split; [|reflexivity].
    vm_compute. left. reflexivity.
  - apply (proj1 (proj2 (proj2 (proj2
             (import_switches_every_feeder_on codeUnitCompare decimalToNumber seqId
                [setName (JString "S") (Row.mk JUndefined (JString "__proto__")
                   JUndefined JUndefined JUndefined JUndefined JUndefined
                   (JNumber 5) JUndefined JUndefined JUndefined JUndefined
                   JUndefined)] 0 false))))).
    + vm_compute. left. reflexivity.
    + reflexivity.
Defined.

(** ** Counts under a feeder scope *)

Lemma filter_twice {A} (p q : A -> bool) (l : list A) :
  List.filter p (List.filter q l) = List.filter (fun x => p x && q x) l.
Proof.
  induction l as [|x l IH]; simpl; [reflexivity|].
  destruct (q x); simpl; rewrite ?andb_true_r, ?andb_false_r;
    [destruct (p x)|]; simpl; now rewrite IH.
Qed.

(** X23. The per-feeder substation counts are absent under the scope
    ["ALL"]; under a feeder scope they count the input stations of that
    feeder: [total] is the number of stations whose feeder is the selected
    one, [off] the number of those that are effectively out, and
    [off + on = total]. *)
Theorem feederStationCounts_count_the_feeder (cmp : string -> string -> Z)
    (stations : list Station.t) (feederOut : gmap string bool) (sel : string) :
  let flat := flatRows (Aggregate.feeders (aggregate cmp stations feederOut)) feederOut in
  feederStationCounts "ALL" flat = None
  /\ (sel <> "ALL" ->
      exists c, feederStationCounts sel flat = Some c
        /\ Counts.total c
           = Z.of_nat (length (List.filter (fun s => String.eqb (Station.feeder s) sel) stations))
        /\ Counts.off c
           = Z.of_nat (length (List.filter
                                 (fun s => String.eqb (Station.feeder s) sel
                                           && effOutOf feederOut s) stations))
        /\ Counts.off c + Counts.on c = Counts.total c
        /\ 0 <= Counts.off c <= Counts.total c).
Proof.
  intros flat. split; [reflexivity|]. intros Hsel.
  destruct (flatRows_rearrange_the_stations_aux cmp stations feederOut) as [HP _].
  fold flat in HP.
  unfold feederStationCounts. destruct (String.eqb_spec sel "ALL"); [contradiction|].
  eexists. split; [reflexivity|].
  set (rows := List.filter (fun r => String.eqb (FlatRow.feeder r) sel) flat).
  assert (Htot : Z.of_nat (length rows)
                 = Z.of_nat (length (List.filter
                                       (fun s => String.eqb (Station.feeder s) sel) stations))).
  { f_equal. unfold rows, FlatRow.feeder.
    rewrite <- (filter_map_length FlatRow.se
                  (fun e => String.eqb (Station.feeder (StationE.s e)) sel)).
    rewrite (filter_length_perm _ _ _ HP). now rewrite filter_map_length. }
  assert (Hoff : countOff rows
                 = Z.of_nat (length (List.filter
                                       (fun s => String.eqb (Station.feeder s) sel
                                                 && effOutOf feederOut s) stations))).
  { rewrite countOff_length. f_equal. unfold rows. rewrite filter_twice.
    unfold FlatRow.feeder, FlatRow.effOut.
    rewrite <- (filter_map_length FlatRow.se
                  (fun e => StationE.effOut e
                            && String.eqb (Station.feeder (StationE.s e)) sel)).
    rewrite (filter_length_perm _ _ _ HP). rewrite filter_map_length.
    f_equal. apply List.filter_ext. intros s. simpl. apply andb_comm. }
  unfold countsOf. cbn [Counts.total Counts.off Counts.on].
  split; [exact Htot|]. split; [exact Hoff|]. split; [lia|].
  rewrite Hoff.
  pose proof (List.filter_length_le FlatRow.effOut rows) as Hle.
  rewrite countOff_length in Hoff. lia.
Qed.

Lemma feederStationCounts_count_the_feeder_witness :
  exists c, feederStationCounts "F1" (flatOf sampleStations ∅) = Some c
            /\ Counts.total c = 2.
Proof.
  destruct (proj2 (feederStationCounts_count_the_feeder codeUnitCompare sampleStations ∅ "F1"))
    as (c & H1 & H2 & _); [discriminate|].
  exists c. split; [exact H1|]. rewrite H2. reflexivity.
Defined.

(** ** What a feeder toggle adds *)

Lemma effOutOf_toggle_other name st s :
  feederOf s <> name ->
  effOutOf (State.feederOut (toggleFeeder name st)) s = effOutOf (State.feederOut st) s.
Proof.
  intros Hne. unfold effOutOf, toggleFeeder. simpl. rewrite isFeederOut_toggle.
  destruct (String.eqb_spec name (feederOf s)); [congruence|reflexivity].
Qed.

Lemma sumCountZ_toggle_on F name l :
  isFeederOut F name = false ->
  sumCountZ (List.filter (effOutOf (<[name := negb (isFeederOut F name)]> F)) l)
  = sumCountZ (List.filter (effOutOf F) l)
    + sumCountZ (List.filter
                   (fun s => String.eqb (feederOf s) name && negb (Station.isOut s)) l).
Proof.
  intros Hon. unfold sumCountZ.
  induction l as [|x l IH]; [reflexivity|]. cbn [List.filter].
  assert (Ex : effOutOf (<[name := negb (isFeederOut F name)]> F) x
               = effOutOf F x
                 || (String.eqb (feederOf x) name && negb (Station.isOut x))).
  { unfold effOutOf. rewrite isFeederOut_toggle, Hon.
    destruct (String.eqb_spec name (feederOf x)) as [E|NE].
    - rewrite <- E, Hon, String.eqb_refl. simpl. now destruct (Station.isOut x).
    - destruct (String.eqb_spec (feederOf x) name) as [E'|_]; [congruence|].
      simpl. now rewrite orb_false_r. }
  assert (Dis : effOutOf F x
                && (String.eqb (feederOf x) name && negb (Station.isOut x)) = false).
  { unfold effOutOf. destruct (String.eqb_spec (feederOf x) name) as [E|NE].
    - rewrite E, Hon. simpl. now destruct (Station.isOut x).
    - simpl. apply andb_false_r. }
  rewrite Ex.
  destruct (effOutOf F x), (String.eqb (feederOf x) name && negb (Station.isOut x));
    simpl in *; try discriminate Dis; lia.
Qed.

(** Without the restriction to whole counts the identity fails: with 0.1
    and 0.4 on F1 and 0.2, out, on F2, forcing F1 off makes the affected
    figure 0.7000000000000001, where 0.2 plus the 0.5 of F1 is 0.7. *)
Lemma feeder_off_drifts_on_fractional_counts :
  let st := State.mk fractionStations ∅ in
  let st' := toggleFeeder "F1" st in
  NumberToString (Totals.affected (Aggregate.totals
     (aggregate codeUnitCompare (State.stations st') (State.feederOut st'))))
  = "0.7000000000000001"
  /\ NumberToString (fadd (Totals.affected (Aggregate.totals
        (aggregate codeUnitCompare (State.stations st) (State.feederOut st))))
        (sumCons (members "F1" fractionStations))) = "0.7".
Proof. split; vm_compute; reflexivity. Qed.

(** X24. Over whole, non-negative consumer counts that add up to at most
    2^53, forcing a feeder off adds to the affected count exactly the
    consumers of the feeder's stations that were not already out. Whatever
    the counts, it leaves the total as it was and changes the effective
    flag of no station of another feeder. *)
Theorem feeder_off_adds_its_healthy_stations (cmp : string -> string -> Z)
    (name : string) (st : State.t) :
  isFeederOut (State.feederOut st) name = false ->
  let st' := toggleFeeder name st in
  let T := Aggregate.totals (aggregate cmp (State.stations st) (State.feederOut st)) in
  let T' := Aggregate.totals (aggregate cmp (State.stations st') (State.feederOut st')) in
  (Forall wholeCount (State.stations st) -> sumCountZ (State.stations st) <= 2 ^ 53 ->
   (Totals.affected T'
    == Totals.affected T
       + inject_Z (sumCountZ
                     (List.filter
                        (fun s => String.eqb (feederOf s) name && negb (Station.isOut s))
                        (State.stations st))))%Q)
  /\ Totals.total T' = Totals.total T
  /\ forall s, feederOf s <> name ->
       effOutOf (State.feederOut st') s = effOutOf (State.feederOut st) s.
Proof.
  intros Hon st' T T'. unfold T, T'. rewrite !aggregate_totals.
  cbn [Totals.affected Totals.total].
  split; [|split; [reflexivity|]].
  - intros Hw Hb.
    destruct (whole_figures (State.feederOut st) _ Hw Hb) as (_ & _ & Ea & _).
    destruct (whole_figures (State.feederOut st') _ Hw Hb) as (_ & _ & Ea' & _).
    cbv zeta in Ea, Ea'. unfold st' in Ea' |- *.
    change (State.stations (toggleFeeder name st)) with (State.stations st) in Ea' |- *.
    rewrite Ea, Ea'. unfold toggleFeeder. cbn [State.feederOut].
    rewrite (sumCountZ_toggle_on _ _ _ Hon), inject_Z_plus. reflexivity.
  - intros s Hne. now apply effOutOf_toggle_other.
Qed.

Lemma feeder_off_adds_its_healthy_stations_witness :
  let st' := toggleFeeder "F1" sampleState in
  (Totals.affected (Aggregate.totals
                      (aggregate codeUnitCompare (State.stations st') (State.feederOut st')))
   == 40 + 60)%Q.
Proof.
  destruct (feeder_off_adds_its_healthy_stations codeUnitCompare "F1" sampleState)
    as (H & _); [reflexivity|].
  intros st'. unfold st'. rewrite H.
  - vm_compute. reflexivity.
  - repeat constructor; vm_compute; try reflexivity; discriminate.
  - vm_compute. discriminate.
Defined.
